(** * Pithon evaluator: a shallow embedding of [pithon/evaluator/evaluator.py]

    The evaluator is a tree-walking interpreter.  Python objects that the
    evaluator mutates through references (environment frames, instances)
    live in an explicit store and are named by their index; Python
    exceptions, among them the three control-flow signals, are an outcome of
    the evaluation next to the final store.  Python's unbounded recursion and
    [while True] are cut by a fuel counter: [None] means that the fuel ran
    out, never that the program failed. *)

From Stdlib Require Import ZArith Floats.SpecFloat.
From stdpp Require Import gmap strings list fin_maps.

Set Warnings "-register-all,-clear-no-such-hyp".
Local Open Scope string_scope.
Local Open Scope Z_scope.

(** ** Numbers *)

(** Modelled from the spec: the classes [PiNumber] and [VNumber] are not
    part of the sources.  A Number holds a numeric scalar, which in Python is
    an [int] of any size or a [float], an IEEE 754 binary64 value.  The
    evaluator itself converts such a payload with [int] and takes its truth
    value; arithmetic is left to the primitives. *)

Inductive PyNumber : Type :=
| PyInt (value : Z)
| PyFloat (value : spec_float).

Coercion PyInt : Z >-> PyNumber.

(** ** Syntax (the node classes imported from [pithon.syntax]) *)

Inductive PiStatement : Type :=
| PiNumber (value : PyNumber)
| PiBool (value : bool)
| PiNone
| PiString (value : string)
| PiList (elements : list PiStatement)
| PiTuple (elements : list PiStatement)
| PiVariable (name : string)
| PiBinaryOperation (left : PiStatement) (operator : string) (right : PiStatement)
| PiAssignment (name : string) (value : PiStatement)
| PiAttributeAssignment (object : PiStatement) (attr : string) (value : PiStatement)
| PiAttribute (object : PiStatement) (attr : string)
| PiIfThenElse (condition : PiStatement) (then_branch else_branch : list PiStatement)
| PiNot (operand : PiStatement)
| PiAnd (left right : PiStatement)
| PiOr (left right : PiStatement)
| PiWhile (condition : PiStatement) (body : list PiStatement)
| PiFunctionDef (def : PiFunctionDefinition)
| PiClassDef (name : string) (methods : list PiFunctionDefinition)
| PiReturn (value : PiStatement)
| PiFunctionCall (function : PiStatement) (args : list PiStatement)
| PiFor (var : string) (iterable : PiStatement) (body : list PiStatement)
| PiBreak
| PiContinue
| PiIn (element container : PiStatement)
| PiSubscript (collection index : PiStatement)
with PiFunctionDefinition : Type :=
| MkFunctionDef (name : string) (arg_names : list string)
                (vararg : option string) (body : list PiStatement).

(** A program is a list of statements. *)
Abbreviation PiProgram := (list PiStatement).

Definition fd_name (f : PiFunctionDefinition) : string :=
  let 'MkFunctionDef n _ _ _ := f in n.
Definition fd_arg_names (f : PiFunctionDefinition) : list string :=
  let 'MkFunctionDef _ a _ _ := f in a.
Definition fd_vararg (f : PiFunctionDefinition) : option string :=
  let 'MkFunctionDef _ _ v _ := f in v.
Definition fd_body (f : PiFunctionDefinition) : PiProgram :=
  let 'MkFunctionDef _ _ _ b := f in b.

(** ** Values (the classes imported from [pithon.evaluator.envvalue]) *)

(** Frames and instances are shared by reference in Python; a reference is
    the index of the frame, or of the instance, in the store. *)
Abbreviation frame_ref := nat.
Abbreviation object_ref := nat.

Record FunctionClosure : Type := MkClosure {
  funcdef : PiFunctionDefinition;
  closure_env : frame_ref
}.

(** [methods] is a Python dict filled in source order: an association list
    in which a later method of the same name replaces the earlier one. *)
Record ClassDef : Type := MkClassDef {
  class_name : string;
  class_methods : list (string * FunctionClosure)
}.

(** [VPrimitive] stands for a host callable of the primitive table, named
    by the key it is registered under. *)
Inductive EnvValue : Type :=
| VNumber (value : PyNumber)
| VBool (value : bool)
| VString (value : string)
| VNone
| VList (value : list EnvValue)
| VTuple (value : list EnvValue)
| VFunctionClosure (closure : FunctionClosure)
| VMethodClosure (function : FunctionClosure) (instance : object_ref)
| VClassDef (class_def : ClassDef)
| VObject (ref : object_ref)
| VPrimitive (name : string).

(** ** Exceptions *)

Inductive Exn : Type :=
| TypeError (msg : string)
| NameError (name : string)
| AttributeError (msg : string)
| IndexError (msg : string)
| ValueError (msg : string)
| OverflowError (msg : string)
| HostError (kind msg : string)
| ReturnException (value : EnvValue)
| BreakException
| ContinueException.

(** The three control-flow signals, as opposed to the ordinary errors. *)
Definition is_signal (e : Exn) : bool :=
  match e with
  | ReturnException _ | BreakException | ContinueException => true
  | _ => false
  end.

Inductive Outcome (A : Type) : Type :=
| Normal (a : A)
| Raise (e : Exn).
Arguments Normal {A} a.
Arguments Raise {A} e.

(** ** The store *)

Record EnvFrame : Type := MkFrame {
  vars : gmap string EnvValue;
  parent : option frame_ref
}.

Record Object : Type := MkObject {
  obj_class : ClassDef;
  attributes : gmap string EnvValue
}.

Record Store : Type := MkStore {
  frames : list EnvFrame;
  objects : list Object
}.

(** ** The evaluation monad

    A computation takes the store and gives back the store it left and its
    outcome.  A raised exception keeps every write made before it. *)

Definition M (A : Type) : Type := Store → option (Store * Outcome A).

Definition ret {A} (a : A) : M A := λ st, Some (st, Normal a).

Definition raise {A} (e : Exn) : M A := λ st, Some (st, Raise e).

Definition bind {A B} (m : M A) (k : A → M B) : M B := λ st,
  match m st with
  | Some (st', Normal a) => k a st'
  | Some (st', Raise e) => Some (st', Raise e)
  | None => None
  end.

(** [try: m except h]: the handler [h] answers [None] for the exceptions
    that its [except] clauses do not name, which then propagate. *)
Definition try_except {A} (m : M A) (h : Exn → option (M A)) : M A := λ st,
  match m st with
  | Some (st', Raise e) =>
      match h e with
      | Some k => k st'
      | None => Some (st', Raise e)
      end
  | r => r
  end.

Notation "'do' x <- m ; k" := (bind m (λ x, k))
  (at level 10, x name, m at level 100, k at level 200,
   format "'[v' 'do'  x  <-  m ; '/' k ']'").

(** ** Environment frames *)

(** Modelled from the spec: the class [EnvFrame] of
    [pithon.evaluator.envframe] is not part of the sources.  A frame holds a
    mapping from names to values and an optional parent; a new frame is
    empty. *)
Definition store_new_frame (parent : option frame_ref) (st : Store) : Store :=
  MkStore (frames st ++ [MkFrame ∅ parent]) (objects st).

Definition EnvFrame_new (parent : option frame_ref) : M frame_ref := λ st,
  Some (store_new_frame parent st, Normal (length (frames st))).

(** Modelled from the spec: [EnvFrame.insert] writes to the current frame
    only and overwrites an existing local binding. *)
Definition store_insert (env : frame_ref) (name : string) (value : EnvValue)
    (st : Store) : Store :=
  MkStore
    (alter (λ fr, MkFrame (<[name := value]> (vars fr)) (parent fr))
           env (frames st))
    (objects st).

Definition EnvFrame_insert (env : frame_ref) (name : string) (value : EnvValue)
  : M unit := λ st,
  Some (store_insert env name value st, Normal tt).

(** The binding of [name] in the frame [env] itself, parents apart. *)
Definition local_binding (st : Store) (env : frame_ref) (name : string)
  : option EnvValue :=
  match frames st !! env with
  | Some fr => vars fr !! name
  | None => None
  end.

(** The chain of parents is walked outward; [depth] bounds the walk by the
    number of frames of the store. *)
Fixpoint lookup_chain (depth : nat) (fs : list EnvFrame) (env : frame_ref)
    (name : string) : option EnvValue :=
  match fs !! env with
  | None => None
  | Some fr =>
      match vars fr !! name with
      | Some v => Some v
      | None =>
          match parent fr, depth with
          | Some p, S depth' => lookup_chain depth' fs p name
          | _, _ => None
          end
      end
  end.

(** Modelled from the spec: [EnvFrame.lookup] resolves to the value bound in
    the nearest frame and fails with an unresolved-name error if no frame
    binds the name. *)
Definition EnvFrame_lookup (env : frame_ref) (name : string) : M EnvValue :=
  λ st,
  match lookup_chain (length (frames st)) (frames st) env name with
  | Some v => ret v st
  | None => raise (NameError name) st
  end.

(** ** Instances *)

(** [VObject(class_def=..., attributes={})]: a new instance in the store. *)
Definition store_new_object (cd : ClassDef) (st : Store) : Store :=
  MkStore (frames st) (objects st ++ [MkObject cd ∅]).

Definition new_object (cd : ClassDef) : M object_ref := λ st,
  Some (store_new_object cd st, Normal (length (objects st))).

(** [obj.attributes[attr] = value] *)
Definition store_set_attribute (o : object_ref) (attr : string)
    (value : EnvValue) (st : Store) : Store :=
  MkStore (frames st)
    (alter (λ ob, MkObject (obj_class ob) (<[attr := value]> (attributes ob)))
           o (objects st)).

Definition set_attribute (o : object_ref) (attr : string) (value : EnvValue)
  : M unit := λ st,
  Some (store_set_attribute o attr value st, Normal tt).

(** ** The host: primitives and value equality *)

(** The primitive table of [pithon.evaluator.primitive] and the equality of
    the value classes are not part of the sources; the evaluator is
    parameterised by them.  A primitive receives the evaluated arguments and
    returns a value or raises. *)
Record Host : Type := MkHost {
  prim_names : list string;
  prim_call : string → Store → list EnvValue → Outcome EnvValue;
  prim_type_name : string;
  value_eq : Store → EnvValue → EnvValue → bool
}.

(** [type(v).__name__] *)
Definition type_name (host : Host) (v : EnvValue) : string :=
  match v with
  | VNumber _ => "VNumber"
  | VBool _ => "VBool"
  | VString _ => "VString"
  | VNone => "VNone"
  | VList _ => "VList"
  | VTuple _ => "VTuple"
  | VFunctionClosure _ => "VFunctionClosure"
  | VMethodClosure _ _ => "VMethodClosure"
  | VClassDef _ => "VClassDef"
  | VObject _ => "VObject"
  | VPrimitive _ => prim_type_name host
  end.

(** Modelled from the spec: [check_type] of [pithon.evaluator.primitive] is
    not part of the sources.  It returns the value when it is of the expected
    class and fails with a type error otherwise. *)
Definition check_type_VBool (v : EnvValue) : M bool :=
  match v with
  | VBool b => ret b
  | _ => raise (TypeError "VBool")
  end.

Definition check_type_VNumber (v : EnvValue) : M PyNumber :=
  match v with
  | VNumber n => ret n
  | _ => raise (TypeError "VNumber")
  end.

(** ** Python sequences *)

(** [int(x)] on a float: the integer part, rounded toward zero;
    [OverflowError] on an infinity and [ValueError] on a NaN.  A finite float
    is [m * 2^e] with its sign, and [Z.shiftl] by a negative [e] is the
    quotient by [2^-e]. *)
Definition float_to_int (x : spec_float) : Z + Exn :=
  match x with
  | S754_zero _ => inl 0
  | S754_finite s m e =>
      let magnitude := Z.shiftl (Z.pos m) e in
      inl (if s then - magnitude else magnitude)
  | S754_infinity _ =>
      inr (OverflowError "cannot convert float infinity to integer")
  | S754_nan => inr (ValueError "cannot convert float NaN to integer")
  end.

(** [int(x)] on the payload of a Number. *)
Definition number_to_int (x : PyNumber) : Z + Exn :=
  match x with
  | PyInt z => inl z
  | PyFloat f => float_to_int f
  end.

Definition py_int (x : PyNumber) : M Z :=
  match number_to_int x with
  | inl z => ret z
  | inr e => raise e
  end.

(** [not x] is true of a number [x] that is zero: the int [0] and the floats
    [0.0] and [-0.0]; a NaN is not zero. *)
Definition number_is_zero (x : PyNumber) : bool :=
  match x with
  | PyInt z => z =? 0
  | PyFloat (S754_zero _) => true
  | PyFloat _ => false
  end.

(** [l[i]] on a Python sequence: a negative index counts from the end;
    [None] is Python's [IndexError]. *)
Definition py_index {A} (l : list A) (i : Z) : option A :=
  if 0 <=? i then l !! Z.to_nat i
  else if - Z.of_nat (length l) <=? i then l !! Z.to_nat (Z.of_nat (length l) + i)
  else None.

Definition py_index_string (s : string) (i : Z) : option string :=
  let n := Z.of_nat (String.length s) in
  match
    (if 0 <=? i then String.get (Z.to_nat i) s
     else if - n <=? i then String.get (Z.to_nat (n + i)) s
     else None)
  with
  | Some c => Some (String c EmptyString)
  | None => None
  end.

(** [l[i:]] *)
Definition py_slice_from {A} (l : list A) (i : Z) : list A :=
  if 0 <=? i then drop (Z.to_nat i) l
  else drop (Z.to_nat (Z.max 0 (Z.of_nat (length l) + i))) l.

(** [sub in s] on Python strings: [sub] occurs in [s] as a substring. *)
Fixpoint str_contains (sub s : string) : bool :=
  String.prefix sub s ||
  match s with
  | EmptyString => false
  | String _ s' => str_contains sub s'
  end.

(** [x in l] on a Python sequence, for the equality [eq] of the elements. *)
Definition py_in {A} (eq : A → A → bool) (x : A) (l : list A) : bool :=
  existsb (eq x) l.

(** [d[k] = v] on a dict kept as an association list. *)
Fixpoint dict_set {V} (d : list (string * V)) (k : string) (v : V)
  : list (string * V) :=
  match d with
  | [] => [(k, v)]
  | (k', v') :: d' =>
      if String.eqb k' k then (k, v) :: d' else (k', v') :: dict_set d' k v
  end.

(** [d.get(k)] *)
Fixpoint dict_get {V} (d : list (string * V)) (k : string) : option V :=
  match d with
  | [] => None
  | (k', v') :: d' => if String.eqb k' k then Some v' else dict_get d' k
  end.

(** The instance behind a reference.  Every reference that evaluation
    produces is in the store; a reference outside it is reported as a host
    error. *)
Definition read_object (o : object_ref) : M Object := λ st,
  match objects st !! o with
  | Some ob => ret ob st
  | None => raise (HostError "ReferenceError" "unknown instance") st
  end.

(** The truth value Python gives to [obj.value] for the classes that
    [_check_valid_piandor_type] lets through; no other class reaches it. *)
Definition truth_value (v : EnvValue) : bool :=
  match v with
  | VBool b => b
  | VNumber n => negb (number_is_zero n)
  | VString s => negb (String.eqb s EmptyString)
  | VNone => false
  | VList l => negb (bool_decide (length l = 0%nat))
  | VTuple l => negb (bool_decide (length l = 0%nat))
  | _ => true
  end.

(** [if funcdef.vararg:] holds for a name that is not the empty string. *)
Definition vararg_name (f : PiFunctionDefinition) : option string :=
  match fd_vararg f with
  | Some s => if String.eqb s EmptyString then None else Some s
  | None => None
  end.

(** What one run of a loop body tells the loop. *)
Inductive LoopStep : Type :=
| BodyValue (v : EnvValue)
| BodyBreak
| BodyContinue.

(** ** The evaluator *)

Section Evaluator.

Context (host : Host).

Definition lookup (env : frame_ref) (name : string) : M EnvValue :=
  EnvFrame_lookup env name.

Definition insert (env : frame_ref) (name : string) (value : EnvValue) : M unit :=
  EnvFrame_insert env name value.

Definition _check_valid_piandor_type (obj : EnvValue) : M unit :=
  match obj with
  | VBool _ | VNumber _ | VString _ | VNone | VList _ | VTuple _ => ret tt
  | _ => raise (TypeError ("Type non supporté pour l'opérateur 'and': "
                           +:+ type_name host obj))
  end.

(** The functions of the evaluator call each other recursively; below,
    [ev] is [evaluate_stmt] with the fuel left for the nested calls. *)
Section Nodes.

Variable ev : PiStatement → frame_ref → M EnvValue.

(** [[evaluate_stmt(e, env) for e in nodes]] *)
Fixpoint evaluate_each (nodes : list PiStatement) (env : frame_ref)
  : M (list EnvValue) :=
  match nodes with
  | [] => ret []
  | e :: es =>
      do v <- ev e env;
      do vs <- evaluate_each es env;
      ret (v :: vs)
  end.

(** [for stmt in stmts: last_value = evaluate_stmt(stmt, env)], then
    [last_value]. *)
Fixpoint evaluate_seq (stmts : PiProgram) (env : frame_ref)
    (last_value : EnvValue) : M EnvValue :=
  match stmts with
  | [] => ret last_value
  | stmt :: rest =>
      do v <- ev stmt env;
      evaluate_seq rest env v
  end.

(** [evaluate] on a list of statements. *)
Definition evaluate_list (node : PiProgram) (env : frame_ref) : M EnvValue :=
  evaluate_seq node env VNone.

(** The [try] block of both loops: the body, with [BreakException] and
    [ContinueException] caught. *)
Definition loop_body (body : PiProgram) (env : frame_ref) : M LoopStep :=
  try_except
    (do v <- evaluate_list body env; ret (BodyValue v))
    (λ e, match e with
          | BreakException => Some (ret BodyBreak)
          | ContinueException => Some (ret BodyContinue)
          | _ => None
          end).

(** [while True:] of [_evaluate_while]; [n] bounds the iterations. *)
Fixpoint while_loop (n : nat) (condition : PiStatement) (body : PiProgram)
    (env : frame_ref) (last_value : EnvValue) : M EnvValue :=
  match n with
  | O => λ _, None
  | S n' =>
      do cond <- ev condition env;
      do cond <- check_type_VBool cond;
      if negb cond then ret last_value
      else
        do step <- loop_body body env;
        match step with
        | BodyValue v => while_loop n' condition body env v
        | BodyBreak => ret last_value
        | BodyContinue => while_loop n' condition body env last_value
        end
  end.

Definition _evaluate_while (n : nat) (condition : PiStatement)
    (body : PiProgram) (env : frame_ref) : M EnvValue :=
  while_loop n condition body env VNone.

(** [for item in iterable:] of [_evaluate_for] *)
Fixpoint for_loop (var : string) (body : PiProgram) (env : frame_ref)
    (iterable : list EnvValue) (last_value : EnvValue) : M EnvValue :=
  match iterable with
  | [] => ret last_value
  | item :: rest =>
      do _ <- EnvFrame_insert env var item;
      do step <- loop_body body env;
      match step with
      | BodyValue v => for_loop var body env rest v
      | BodyBreak => ret last_value
      | BodyContinue => for_loop var body env rest last_value
      end
  end.

Definition _evaluate_for (var : string) (iterable : PiStatement)
    (body : PiProgram) (env : frame_ref) : M EnvValue :=
  do iterable_val <- ev iterable env;
  match iterable_val with
  | VList items | VTuple items => for_loop var body env items VNone
  | _ => raise (TypeError "La boucle for attend une liste ou un tuple.")
  end.

(** [collection.value[int(idx.value)]] in a [try] whose [except IndexError]
    raises the evaluator's own index error; what [int] raises is no
    [IndexError] and passes. *)
Definition _evaluate_subscript (collection index : PiStatement)
    (env : frame_ref) : M EnvValue :=
  do collection <- ev collection env;
  do index <- ev index env;
  match collection with
  | VList l =>
      do idx <- check_type_VNumber index;
      do i <- py_int idx;
      match py_index l i with
      | Some v => ret v
      | None => raise (IndexError "Index de liste hors limites")
      end
  | VTuple l =>
      do idx <- check_type_VNumber index;
      do i <- py_int idx;
      match py_index l i with
      | Some v => ret v
      | None => raise (IndexError "Index de tuple hors limites")
      end
  | VString s =>
      do idx <- check_type_VNumber index;
      do i <- py_int idx;
      match py_index_string s i with
      | Some c => ret (VString c)
      | None => raise (IndexError "Index de chaîne hors limites")
      end
  | _ =>
      raise (TypeError
        "L'indexation n'est supportée que pour les listes, tuples et chaînes.")
  end.

Definition _evaluate_in (element container : PiStatement) (env : frame_ref)
  : M EnvValue :=
  do container <- ev container env;
  do element <- ev element env;
  match container with
  | VList l | VTuple l =>
      λ st, ret (VBool (py_in (value_eq host st) element l)) st
  | VString s =>
      match element with
      | VString e => ret (VBool (str_contains e s))
      | _ => ret (VBool false)
      end
  | _ => raise (TypeError "'in' n'est supporté que pour les listes et chaînes.")
  end.

(** [for i, arg_name in enumerate(names): if i < len(args): insert ... else:
    raise]: names and arguments are walked together. *)
Fixpoint bind_args (call_env : frame_ref) (names : list string)
    (args : list EnvValue) (missing : string → Exn) : M unit :=
  match names with
  | [] => ret tt
  | arg_name :: names' =>
      match args with
      | arg :: args' =>
          do _ <- EnvFrame_insert call_env arg_name arg;
          bind_args call_env names' args' missing
      | [] => raise (missing arg_name)
      end
  end.

(** [if len(arg_names) > 0: call_env.insert(arg_names[0], instance)] *)
Definition bind_self (call_env : frame_ref) (names : list string)
    (instance : object_ref) : M unit :=
  match names with
  | self :: _ => EnvFrame_insert call_env self (VObject instance)
  | [] => ret tt
  end.

(** The [try] block around the body of a function or method: a
    [ReturnException] gives the result of the call. *)
Definition call_body (body : PiProgram) (call_env : frame_ref) : M EnvValue :=
  try_except (evaluate_list body call_env)
    (λ e, match e with
          | ReturnException value => Some (ret value)
          | _ => None
          end).

(** The call frame of [__init__], with the receiver and the arguments
    bound. *)
Definition init_call_env (init_method : FunctionClosure) (instance : object_ref)
    (args : list EnvValue) : M frame_ref :=
  let arg_names := fd_arg_names (funcdef init_method) in
  do call_env <- EnvFrame_new (Some (closure_env init_method));
  do _ <- bind_self call_env arg_names instance;
  do _ <- bind_args call_env (tail arg_names) args
            (λ arg_name, TypeError ("Argument manquant pour __init__: "
                                    +:+ arg_name));
  ret call_env.

Definition call_constructor (func_val : ClassDef) (args : list EnvValue)
  : M EnvValue :=
  do instance <- new_object func_val;
  do _ <-
    match dict_get (class_methods func_val) "__init__" with
    | Some init_method =>
        do call_env <- init_call_env init_method instance args;
        try_except
          (do _ <- evaluate_list (fd_body (funcdef init_method)) call_env; ret tt)
          (λ e, match e with
                | ReturnException _ => Some (ret tt)
                | _ => None
                end)
    | None => ret tt
    end;
  ret (VObject instance).

(** The call frame of a bound method, with the receiver and the arguments
    bound. *)
Definition method_call_env (function : FunctionClosure) (instance : object_ref)
    (args : list EnvValue) : M frame_ref :=
  let funcdef := funcdef function in
  let arg_names := fd_arg_names funcdef in
  do call_env <- EnvFrame_new (Some (closure_env function));
  do _ <- bind_self call_env arg_names instance;
  do _ <- bind_args call_env (tail arg_names) args
            (λ arg_name, TypeError ("Argument manquant pour la méthode "
                                    +:+ fd_name funcdef +:+ ": " +:+ arg_name));
  do _ <-
    match vararg_name funcdef with
    | Some vararg =>
        EnvFrame_insert call_env vararg
          (VList (py_slice_from args (Z.of_nat (length arg_names) - 1)))
    | None =>
        if Z.of_nat (length args) >? Z.of_nat (length arg_names) - 1
        then raise (TypeError "Trop d'arguments pour la méthode.")
        else ret tt
    end;
  ret call_env.

Definition call_method (function : FunctionClosure) (instance : object_ref)
    (args : list EnvValue) : M EnvValue :=
  do call_env <- method_call_env function instance args;
  call_body (fd_body (funcdef function)) call_env.

(** The call frame of a user function, with the arguments bound. *)
Definition function_call_env (func_val : FunctionClosure) (args : list EnvValue)
  : M frame_ref :=
  let funcdef := funcdef func_val in
  let arg_names := fd_arg_names funcdef in
  do call_env <- EnvFrame_new (Some (closure_env func_val));
  do _ <- bind_args call_env arg_names args
            (λ arg_name, TypeError ("Argument manquant pour la fonction "
                                    +:+ fd_name funcdef +:+ ": " +:+ arg_name));
  do _ <-
    match vararg_name funcdef with
    | Some vararg =>
        EnvFrame_insert call_env vararg
          (VList (py_slice_from args (Z.of_nat (length arg_names))))
    | None =>
        if Z.of_nat (length args) >? Z.of_nat (length arg_names)
        then raise (TypeError "Trop d'arguments pour la fonction.")
        else ret tt
    end;
  ret call_env.

Definition call_function (func_val : FunctionClosure) (args : list EnvValue)
  : M EnvValue :=
  do call_env <- function_call_env func_val args;
  call_body (fd_body (funcdef func_val)) call_env.

Definition _evaluate_function_call (function : PiStatement)
    (args : list PiStatement) (env : frame_ref) : M EnvValue :=
  do func_val <- ev function env;
  do args <- evaluate_each args env;
  match func_val with
  | VPrimitive name => λ st, Some (st, prim_call host name st args)
  | VClassDef class_def => call_constructor class_def args
  | VMethodClosure function instance => call_method function instance args
  | VFunctionClosure closure => call_function closure args
  | _ =>
      raise (TypeError ("Tentative d'appel d'un objet non-fonction de type "
                        +:+ type_name host func_val))
  end.

End Nodes.

(** The methods of a class body, as the dict [methods] of the [PiClassDef]
    case. *)
Definition class_method_table (class_env : frame_ref)
    (methods : list PiFunctionDefinition) : list (string * FunctionClosure) :=
  fold_left
    (λ table method, dict_set table (fd_name method) (MkClosure method class_env))
    methods [].

Fixpoint evaluate_stmt (fuel : nat) (node : PiStatement) (env : frame_ref)
    {struct fuel} : M EnvValue :=
  match fuel with
  | O => λ _, None
  | S fuel' =>
      let ev := evaluate_stmt fuel' in
      match node with
      | PiNumber value => ret (VNumber value)
      | PiBool value => ret (VBool value)
      | PiNone => ret VNone
      | PiString value => ret (VString value)
      | PiList elements =>
          do elements <- evaluate_each ev elements env;
          ret (VList elements)
      | PiTuple elements =>
          do elements <- evaluate_each ev elements env;
          ret (VTuple elements)
      | PiVariable name => lookup env name
      | PiBinaryOperation lhs operator rhs =>
          ev (PiFunctionCall (PiVariable operator) [lhs; rhs]) env
      | PiAssignment name value =>
          do value <- ev value env;
          do _ <- insert env name value;
          ret value
      | PiAttributeAssignment object attr value =>
          do obj <- ev object env;
          match obj with
          | VObject o =>
              do value <- ev value env;
              do _ <- set_attribute o attr value;
              ret value
          | _ =>
              raise (TypeError
                ("Impossible d'assigner un attribut à un objet de type "
                 +:+ type_name host obj))
          end
      | PiAttribute object attr =>
          do obj <- ev object env;
          match obj with
          | VObject o =>
              do ob <- read_object o;
              match attributes ob !! attr with
              | Some v => ret v
              | None =>
                  match dict_get (class_methods (obj_class ob)) attr with
                  | Some method => ret (VMethodClosure method o)
                  | None =>
                      raise (AttributeError
                        ("L'objet " +:+ class_name (obj_class ob)
                         +:+ " n'a pas d'attribut '" +:+ attr +:+ "'"))
                  end
              end
          | _ =>
              raise (TypeError
                ("Impossible d'accéder à un attribut d'un objet de type "
                 +:+ type_name host obj))
          end
      | PiIfThenElse condition then_branch else_branch =>
          do cond <- ev condition env;
          do cond <- check_type_VBool cond;
          let branch := if cond then then_branch else else_branch in
          evaluate_list ev branch env
      | PiNot operand =>
          do operand <- ev operand env;
          do _ <- _check_valid_piandor_type operand;
          ret (VBool (negb (truth_value operand)))
      | PiAnd lhs rhs =>
          do lhs <- ev lhs env;
          do _ <- _check_valid_piandor_type lhs;
          if negb (truth_value lhs) then ret lhs
          else
            do rhs <- ev rhs env;
            do _ <- _check_valid_piandor_type rhs;
            ret rhs
      | PiOr lhs rhs =>
          do lhs <- ev lhs env;
          do _ <- _check_valid_piandor_type lhs;
          if truth_value lhs then ret lhs
          else
            do rhs <- ev rhs env;
            do _ <- _check_valid_piandor_type rhs;
            ret rhs
      | PiWhile condition body => _evaluate_while ev fuel' condition body env
      | PiFunctionDef def =>
          do _ <- insert env (fd_name def) (VFunctionClosure (MkClosure def env));
          ret VNone
      | PiClassDef name methods =>
          do class_env <- EnvFrame_new (Some env);
          let methods := class_method_table class_env methods in
          do _ <- insert env name (VClassDef (MkClassDef name methods));
          ret VNone
      | PiReturn value =>
          do value <- ev value env;
          raise (ReturnException value)
      | PiFunctionCall function args => _evaluate_function_call ev function args env
      | PiFor var iterable body => _evaluate_for ev var iterable body env
      | PiBreak => raise BreakException
      | PiContinue => raise ContinueException
      | PiIn element container => _evaluate_in ev element container env
      | PiSubscript collection index => _evaluate_subscript ev collection index env
      end
  end.

(** [evaluate] on a program. *)
Definition evaluate (fuel : nat) (node : PiProgram) (env : frame_ref)
  : M EnvValue :=
  evaluate_list (evaluate_stmt fuel) node env.

(** [initial_env]: one frame, without parent, that binds the primitives. *)
Definition initial_env : Store :=
  MkStore
    [MkFrame (list_to_map ((λ n, (n, VPrimitive n)) <$> prim_names host)) None]
    [].

End Evaluator.

(** * Definitions for the properties *)

(** The classes of [_check_valid_piandor_type]. *)
Definition valid_piandor_kind (v : EnvValue) : bool :=
  match v with
  | VBool _ | VNumber _ | VString _ | VNone | VList _ | VTuple _ => true
  | _ => false
  end.

(** The items of a value that can be subscripted; the items of a String are
    its one-character Strings. *)
Definition sequence_items (v : EnvValue) : option (list EnvValue) :=
  match v with
  | VList l | VTuple l => Some l
  | VString s =>
      Some ((λ c, VString (String c EmptyString))
              <$> String.list_ascii_of_string s)
  | _ => None
  end.

(** The message of the index error, by the class of the collection. *)
Definition index_error_message (collection : EnvValue) : string :=
  match collection with
  | VList _ => "Index de liste hors limites"
  | VTuple _ => "Index de tuple hors limites"
  | _ => "Index de chaîne hors limites"
  end.

(** [store_le st st']: every name that a frame of [st] binds is bound by the
    same frame in [st']. *)
Definition store_le (st st' : Store) : Prop :=
  (length (frames st) ≤ length (frames st'))%nat
  ∧ ∀ env name,
      is_Some (local_binding st env name) → is_Some (local_binding st' env name).

(** A computation that removes no binding, whatever its outcome. *)
Definition mono {A} (m : M A) : Prop :=
  ∀ st st' r, m st = Some (st', r) → store_le st st'.

(** The store after [bind_args] has bound every name it could. *)
Fixpoint store_bind_args (call_env : frame_ref) (names : list string)
    (args : list EnvValue) (st : Store) : Store :=
  match names, args with
  | arg_name :: names', arg :: args' =>
      store_bind_args call_env names' args' (store_insert call_env arg_name arg st)
  | _, _ => st
  end.

Definition store_bind_self (call_env : frame_ref) (names : list string)
    (instance : object_ref) (st : Store) : Store :=
  match names with
  | self :: _ => store_insert call_env self (VObject instance) st
  | [] => st
  end.

(** The floats [1.9], [-0.5] and [-3.5] in binary64: the 53-bit mantissa
    and the exponent of its last bit. *)
Definition float_1_9 : spec_float :=
  S754_finite false 8556839292003942 (-52).

Definition float_minus_0_5 : spec_float :=
  S754_finite true 4503599627370496 (-53).

Definition float_minus_3_5 : spec_float :=
  S754_finite true 7881299347898368 (-51).

(** The program [for x in [1, 2, 3]: y = x]. *)
Definition for_leak_program : PiStatement :=
  PiFor "x" (PiList [PiNumber 1; PiNumber 2; PiNumber 3])
    [PiAssignment "y" (PiVariable "x")].

(** The program
    [def f(): while True: (if True: return 1); x = 2] followed by [x = 3]
    in the body of [f], and the call [f()]. *)
Definition return_example_def : PiFunctionDefinition :=
  MkFunctionDef "f" [] None
    [PiWhile (PiBool true)
       [PiIfThenElse (PiBool true) [PiReturn (PiNumber 1)] [];
        PiAssignment "x" (PiNumber 2)];
     PiAssignment "x" (PiNumber 3)].

Definition return_example : PiProgram :=
  [PiFunctionDef return_example_def; PiFunctionCall (PiVariable "f") []].

(** The program [class C: def __init__(self): None] and the call [C(1, 2)],
    with two arguments more than [__init__] declares after the receiver. *)
Definition extra_arguments_program : PiProgram :=
  [PiClassDef "C" [MkFunctionDef "__init__" ["self"] None [PiNone]];
   PiFunctionCall (PiVariable "C") [PiNumber 1; PiNumber 2]].

(** The program [class C: def __init__(self, v): self.val = v], with the
    statements [suffix] after the assignment, and the call [C(7)]. *)
Definition init_val_def (suffix : PiProgram) : PiFunctionDefinition :=
  MkFunctionDef "__init__" ["self"; "v"] None
    (PiAttributeAssignment (PiVariable "self") "val" (PiVariable "v") :: suffix).

Definition class_C_program (suffix : PiProgram) : PiProgram :=
  [PiClassDef "C" [init_val_def suffix];
   PiFunctionCall (PiVariable "C") [PiNumber 7]].

(** The equality of two numbers by their value, an int against a float
    included. *)
Definition float_eqb_int (f : spec_float) (z : Z) : bool :=
  match f with
  | S754_zero _ => z =? 0
  | S754_finite s m e =>
      let signed := if s then Z.neg m else Z.pos m in
      if 0 <=? e then Z.shiftl signed e =? z else signed =? Z.shiftl z (- e)
  | _ => false
  end.

Definition number_eqb (x y : PyNumber) : bool :=
  match x, y with
  | PyInt a, PyInt b => a =? b
  | PyInt a, PyFloat f | PyFloat f, PyInt a => float_eqb_int f a
  | PyFloat f, PyFloat g => SFeqb f g
  end.

(** A host with integer addition as its one primitive, and the equality of
    scalars as the equality of values. *)
Definition arith_host : Host :=
  MkHost ["+"]
    (λ name _ args,
       match args with
       | [VNumber (PyInt a); VNumber (PyInt b)] => Normal (VNumber (a + b))
       | _ => Raise (TypeError "+")
       end)
    "function"
    (λ _ a b,
       match a, b with
       | VNumber x, VNumber y => number_eqb x y
       | VBool x, VBool y => eqb x y
       | VString x, VString y => String.eqb x y
       | VNone, VNone => true
       | _, _ => false
       end).

Definition st0 : Store := initial_env arith_host.

(** A store with an instance of a class [C] that has a method [m]; the
    instance has the attribute [val] and is bound to [o] in the frame. *)
Definition class_C_with_method : ClassDef :=
  MkClassDef "C" [("m", MkClosure (MkFunctionDef "m" ["self"] None []) 0%nat)].

Definition instance_store : Store :=
  MkStore [MkFrame {[ "o" := VObject 0%nat ]} None]
          [MkObject class_C_with_method {[ "val" := VNumber 7 ]}].

(** [touches_only env st st']: no frame is removed, and the frames of [st]
    other than [env] are as they were. *)
Definition touches_only (env : frame_ref) (st st' : Store) : Prop :=
  (length (frames st) ≤ length (frames st'))%nat
  ∧ ∀ e, (e < length (frames st))%nat → e ≠ env →
         frames st' !! e = frames st !! e.

(** [same_structure st st']: the frames of [st] keep their parent, and the
    instances of [st] keep their class and every attribute name they had. *)
Definition same_structure (st st' : Store) : Prop :=
  (∀ e fr, frames st !! e = Some fr →
           ∃ fr', frames st' !! e = Some fr' ∧ parent fr' = parent fr)
  ∧ (∀ o ob, objects st !! o = Some ob →
             ∃ ob', objects st' !! o = Some ob'
                    ∧ obj_class ob' = obj_class ob
                    ∧ ∀ attr, is_Some (attributes ob !! attr) →
                              is_Some (attributes ob' !! attr)).

(** The value of the attribute [attr] of the instance [o] itself. *)
Definition attribute_of (st : Store) (o : object_ref) (attr : string)
  : option EnvValue :=
  match objects st !! o with
  | Some ob => attributes ob !! attr
  | None => None
  end.

(** [keeps R env m]: the computation [m], run in the frame [env], relates
    the store it starts from to the store it leaves by [R env], whatever its
    outcome. *)
Definition keeps {A} (R : frame_ref → Store → Store → Prop) (env : frame_ref)
    (m : M A) : Prop :=
  ∀ st st' r, m st = Some (st', r) → R env st st'.

(** The errors of a call with too few arguments. *)
Definition missing_function_argument (funcdef : PiFunctionDefinition)
    (arg_name : string) : Exn :=
  TypeError ("Argument manquant pour la fonction "
             +:+ fd_name funcdef +:+ ": " +:+ arg_name).

Definition missing_method_argument (funcdef : PiFunctionDefinition)
    (arg_name : string) : Exn :=
  TypeError ("Argument manquant pour la méthode "
             +:+ fd_name funcdef +:+ ": " +:+ arg_name).

(** The store in which the body of a function runs: the store of the call
    with the frame of the call, filled. *)
Definition function_frame (closure : FunctionClosure) (args : list EnvValue)
    (st : Store) : Store :=
  let names := fd_arg_names (funcdef closure) in
  let call_env := length (frames st) in
  let st1 :=
    store_bind_args call_env names args
      (store_new_frame (Some (closure_env closure)) st) in
  match vararg_name (funcdef closure) with
  | Some vararg =>
      store_insert call_env vararg (VList (drop (length names) args)) st1
  | None => st1
  end.

(** The same for a bound method whose first parameter is the receiver. *)
Definition method_frame (function : FunctionClosure) (instance : object_ref)
    (args : list EnvValue) (st : Store) : Store :=
  let names := fd_arg_names (funcdef function) in
  let call_env := length (frames st) in
  let st1 :=
    store_bind_args call_env (tail names) args
      (store_bind_self call_env names instance
         (store_new_frame (Some (closure_env function)) st)) in
  match vararg_name (funcdef function) with
  | Some vararg =>
      store_insert call_env vararg (VList (drop (length (tail names)) args)) st1
  | None => st1
  end.

(** The values that are neither a primitive, a class, a bound method nor a
    function. *)
Definition not_callable (v : EnvValue) : bool :=
  match v with
  | VPrimitive _ | VClassDef _ | VMethodClosure _ _ | VFunctionClosure _ =>
      false
  | _ => true
  end.

(** [unchanged m]: the computation [m] leaves the store as it found it,
    whatever its outcome. *)
Definition unchanged {A} (m : M A) : Prop :=
  ∀ st st' r, m st = Some (st', r) → st' = st.

(** The nodes without assignment, definition, call, binary operation and
    for-loop. *)
Fixpoint pure_expression (node : PiStatement) : bool :=
  match node with
  | PiNumber _ | PiBool _ | PiNone | PiString _ | PiVariable _
  | PiBreak | PiContinue => true
  | PiList elements | PiTuple elements => forallb pure_expression elements
  | PiAttribute object _ => pure_expression object
  | PiIfThenElse condition then_branch else_branch =>
      pure_expression condition && forallb pure_expression then_branch
      && forallb pure_expression else_branch
  | PiNot operand => pure_expression operand
  | PiAnd lhs rhs | PiOr lhs rhs => pure_expression lhs && pure_expression rhs
  | PiWhile condition body =>
      pure_expression condition && forallb pure_expression body
  | PiReturn value => pure_expression value
  | PiIn element container =>
      pure_expression element && pure_expression container
  | PiSubscript collection index =>
      pure_expression collection && pure_expression index
  | PiBinaryOperation _ _ _ | PiAssignment _ _ | PiAttributeAssignment _ _ _
  | PiFunctionDef _ | PiClassDef _ _ | PiFunctionCall _ _ | PiFor _ _ _ =>
      false
  end.

(** Closures and a store for running the further properties. *)
Definition add_closure : FunctionClosure :=
  MkClosure
    (MkFunctionDef "add" ["a"; "b"] None
       [PiReturn (PiBinaryOperation (PiVariable "a") "+" (PiVariable "b"))])
    0%nat.

Definition local_closure : FunctionClosure :=
  MkClosure (MkFunctionDef "f" [] None [PiAssignment "x" (PiNumber 1)]) 0%nat.

Definition break_closure : FunctionClosure :=
  MkClosure (MkFunctionDef "f" [] None [PiBreak]) 0%nat.

Definition get_closure : FunctionClosure :=
  MkClosure
    (MkFunctionDef "get" ["self"; "k"] None
       [PiReturn (PiAttribute (PiVariable "self") "val")])
    0%nat.

Definition bare_closure : FunctionClosure :=
  MkClosure (MkFunctionDef "m" [] None [PiNone]) 0%nat.

Definition two_frame_store : Store := store_new_frame (Some 0%nat) st0.

(** ** Evaluations inside evaluations

    The relations below follow the evaluation of a node down to the
    evaluation of one of its parts, and say what was evaluated before. *)

(** Where a node evaluates one of its parts: under no handler, in the
    [try] block of a loop, or in the [try] block of a call. *)
Inductive Place : Type :=
| Direct
| InLoop
| InCall.

(** The exceptions that the [except] clauses of a place name. *)
Definition catches (place : Place) (e : Exn) : bool :=
  match place, e with
  | InLoop, (BreakException | ContinueException) => true
  | InCall, ReturnException _ => true
  | _, _ => false
  end.


Definition outside_calls (place : Place) : bool :=
  match place with
  | InCall => false
  | _ => true
  end.

(** [block_reaches ev block env st child st1]: the statements of [block]
    before its statement [child] have been evaluated in [env] from [st],
    none has raised, and they left the store [st1]. *)
Inductive block_reaches (ev : PiStatement → frame_ref → M EnvValue)
  : PiProgram → frame_ref → Store → PiStatement → Store → Prop :=
| block_reaches_intro pre child post env st st1 v :
    evaluate_list ev pre env st = Some (st1, Normal v) →
    block_reaches ev (pre ++ child :: post) env st child st1.

(** The same for the nodes of a list of expressions, such as the arguments
    of a call. *)
Inductive each_reaches (ev : PiStatement → frame_ref → M EnvValue)
  : list PiStatement → frame_ref → Store → PiStatement → Store → Prop :=
| each_reaches_intro pre child post env st st1 vs :
    evaluate_each ev pre env st = Some (st1, Normal vs) →
    each_reaches ev (pre ++ child :: post) env st child st1.

(** [while_rounds ev condition body env n st n' st']: from the store [st],
    with [n] rounds left, the loop has gone through some rounds, in each of
    which the condition was True and the body ended without a [break], and
    it is about to check its condition in [st'], with [n'] rounds left. *)
Inductive while_rounds (ev : PiStatement → frame_ref → M EnvValue)
    (condition : PiStatement) (body : PiProgram) (env : frame_ref)
  : nat → Store → nat → Store → Prop :=
| while_rounds_none n st : while_rounds ev condition body env n st n st
| while_rounds_more n st st1 st2 step n' st' :
    ev condition env st = Some (st1, Normal (VBool true)) →
    loop_body ev body env st1 = Some (st2, Normal step) →
    step ≠ BodyBreak →
    while_rounds ev condition body env n st2 n' st' →
    while_rounds ev condition body env (S n) st n' st'.

(** [for_rounds ev var body env items st items' st']: from the store [st],
    the loop over [items] has gone through some rounds, in each of which the
    body ended without a [break], and it is about to take the first of
    [items'] in [st']. *)
Inductive for_rounds (ev : PiStatement → frame_ref → M EnvValue)
    (var : string) (body : PiProgram) (env : frame_ref)
  : list EnvValue → Store → list EnvValue → Store → Prop :=
| for_rounds_none items st : for_rounds ev var body env items st items st
| for_rounds_more item rest st st2 step items' st' :
    loop_body ev body env (store_insert env var item st)
      = Some (st2, Normal step) →
    step ≠ BodyBreak →
    for_rounds ev var body env rest st2 items' st' →
    for_rounds ev var body env (item :: rest) st items' st'.

Section Enters.

Context (host : Host) (fuel : nat).

Let ev := evaluate_stmt host fuel.

(** [enters host fuel node env st place child env' st']: the evaluation of
    [node] in the frame [env] from the store [st], by
    [evaluate_stmt host (S fuel)], comes to evaluate its part [child] in the
    frame [env'] from the store [st'], at the place [place]; what [node]
    evaluates before [child] has not raised. *)
Inductive enters
  : PiStatement → frame_ref → Store → Place →
    PiStatement → frame_ref → Store → Prop :=
| enters_list_element elements env st child st1 :
    each_reaches ev elements env st child st1 →
    enters (PiList elements) env st Direct child env st1
| enters_tuple_element elements env st child st1 :
    each_reaches ev elements env st child st1 →
    enters (PiTuple elements) env st Direct child env st1
| enters_binary_operation lhs operator rhs env st :
    enters (PiBinaryOperation lhs operator rhs) env st Direct
      (PiFunctionCall (PiVariable operator) [lhs; rhs]) env st
| enters_assignment_value name value env st :
    enters (PiAssignment name value) env st Direct value env st
| enters_attribute_assignment_object object attr value env st :
    enters (PiAttributeAssignment object attr value) env st Direct
      object env st
| enters_attribute_assignment_value object attr value env st st1 o :
    ev object env st = Some (st1, Normal (VObject o)) →
    enters (PiAttributeAssignment object attr value) env st Direct
      value env st1
| enters_attribute_object object attr env st :
    enters (PiAttribute object attr) env st Direct object env st
| enters_if_condition condition then_branch else_branch env st :
    enters (PiIfThenElse condition then_branch else_branch) env st Direct
      condition env st
| enters_if_branch condition then_branch else_branch env st st1 b child st2 :
    ev condition env st = Some (st1, Normal (VBool b)) →
    block_reaches ev (if b then then_branch else else_branch) env st1
      child st2 →
    enters (PiIfThenElse condition then_branch else_branch) env st Direct
      child env st2
| enters_not_operand operand env st :
    enters (PiNot operand) env st Direct operand env st
| enters_and_left lhs rhs env st :
    enters (PiAnd lhs rhs) env st Direct lhs env st
| enters_and_right lhs rhs env st st1 v :
    ev lhs env st = Some (st1, Normal v) →
    valid_piandor_kind v = true → truth_value v = true →
    enters (PiAnd lhs rhs) env st Direct rhs env st1
| enters_or_left lhs rhs env st :
    enters (PiOr lhs rhs) env st Direct lhs env st
| enters_or_right lhs rhs env st st1 v :
    ev lhs env st = Some (st1, Normal v) →
    valid_piandor_kind v = true → truth_value v = false →
    enters (PiOr lhs rhs) env st Direct rhs env st1
| enters_while_condition condition body env st n st1 :
    while_rounds ev condition body env fuel st (S n) st1 →
    enters (PiWhile condition body) env st Direct condition env st1
| enters_while_body condition body env st n st1 st2 child st3 :
    while_rounds ev condition body env fuel st (S n) st1 →
    ev condition env st1 = Some (st2, Normal (VBool true)) →
    block_reaches ev body env st2 child st3 →
    enters (PiWhile condition body) env st InLoop child env st3
| enters_return_value value env st :
    enters (PiReturn value) env st Direct value env st
| enters_call_function function args env st :
    enters (PiFunctionCall function args) env st Direct function env st
| enters_call_argument function args env st st1 func_val child st2 :
    ev function env st = Some (st1, Normal func_val) →
    each_reaches ev args env st1 child st2 →
    enters (PiFunctionCall function args) env st Direct child env st2
| enters_function_body function args env st st1 closure st2 vs st3 call_env
    child st4 :
    ev function env st = Some (st1, Normal (VFunctionClosure closure)) →
    evaluate_each ev args env st1 = Some (st2, Normal vs) →
    function_call_env closure vs st2 = Some (st3, Normal call_env) →
    block_reaches ev (fd_body (funcdef closure)) call_env st3 child st4 →
    enters (PiFunctionCall function args) env st InCall child call_env st4
| enters_method_body function args env st st1 method instance st2 vs st3
    call_env child st4 :
    ev function env st = Some (st1, Normal (VMethodClosure method instance)) →
    evaluate_each ev args env st1 = Some (st2, Normal vs) →
    method_call_env method instance vs st2 = Some (st3, Normal call_env) →
    block_reaches ev (fd_body (funcdef method)) call_env st3 child st4 →
    enters (PiFunctionCall function args) env st InCall child call_env st4
| enters_constructor_body function args env st st1 class_def st2 vs
    init_method st3 call_env child st4 :
    ev function env st = Some (st1, Normal (VClassDef class_def)) →
    evaluate_each ev args env st1 = Some (st2, Normal vs) →
    dict_get (class_methods class_def) "__init__" = Some init_method →
    init_call_env init_method (length (objects st2)) vs
      (store_new_object class_def st2) = Some (st3, Normal call_env) →
    block_reaches ev (fd_body (funcdef init_method)) call_env st3 child st4 →
    enters (PiFunctionCall function args) env st InCall child call_env st4
| enters_for_iterable var iterable body env st :
    enters (PiFor var iterable body) env st Direct iterable env st
| enters_for_body var iterable body env st st1 iv items item rest st2
    child st3 :
    ev iterable env st = Some (st1, Normal iv) →
    iv = VList items ∨ iv = VTuple items →
    for_rounds ev var body env items st1 (item :: rest) st2 →
    block_reaches ev body env (store_insert env var item st2) child st3 →
    enters (PiFor var iterable body) env st InLoop child env st3
| enters_in_container element container env st :
    enters (PiIn element container) env st Direct container env st
| enters_in_element element container env st st1 v :
    ev container env st = Some (st1, Normal v) →
    enters (PiIn element container) env st Direct element env st1
| enters_subscript_collection collection index env st :
    enters (PiSubscript collection index) env st Direct collection env st
| enters_subscript_index collection index env st st1 v :
    ev collection env st = Some (st1, Normal v) →
    enters (PiSubscript collection index) env st Direct index env st1.

End Enters.

(** [inside host allowed fuel node env st fuel' node' env' st']: the
    evaluation of [node] comes, through parts of parts at places that
    [allowed] admits, to evaluate [node'] in the frame [env'] from the store
    [st'], by [evaluate_stmt host fuel']. *)
Inductive inside (host : Host) (allowed : Place → bool)
  : nat → PiStatement → frame_ref → Store →
    nat → PiStatement → frame_ref → Store → Prop :=
| inside_here fuel node env st :
    inside host allowed fuel node env st fuel node env st
| inside_part fuel node env st place child env1 st1 fuel' node' env' st' :
    enters host fuel node env st place child env1 st1 →
    allowed place = true →
    inside host allowed fuel child env1 st1 fuel' node' env' st' →
    inside host allowed (S fuel) node env st fuel' node' env' st'.

(** [runs_through m st Q]: when [m] ends from [st], it has gone through a
    store of [Q], and the store it leaves has every binding of that one. *)
Definition runs_through {A} (m : M A) (st : Store) (Q : Store → Prop) : Prop :=
  ∀ st' o, m st = Some (st', o) → ∃ st2, Q st2 ∧ store_le st2 st'.

(** [adds_no_frame m]: the computation [m] leaves as many frames as it
    found, whatever its outcome. *)
Definition adds_no_frame {A} (m : M A) : Prop :=
  ∀ st st' r, m st = Some (st', r) → length (frames st') = length (frames st).

(** The nodes without call, binary operation and class definition, the
    three constructs that make a frame. *)
Fixpoint makes_no_frame (node : PiStatement) : bool :=
  match node with
  | PiNumber _ | PiBool _ | PiNone | PiString _ | PiVariable _
  | PiBreak | PiContinue | PiFunctionDef _ => true
  | PiList elements | PiTuple elements => forallb makes_no_frame elements
  | PiAssignment _ value => makes_no_frame value
  | PiAttributeAssignment object _ value =>
      makes_no_frame object && makes_no_frame value
  | PiAttribute object _ => makes_no_frame object
  | PiIfThenElse condition then_branch else_branch =>
      makes_no_frame condition && forallb makes_no_frame then_branch
      && forallb makes_no_frame else_branch
  | PiNot operand => makes_no_frame operand
  | PiAnd lhs rhs | PiOr lhs rhs => makes_no_frame lhs && makes_no_frame rhs
  | PiWhile condition body =>
      makes_no_frame condition && forallb makes_no_frame body
  | PiReturn value => makes_no_frame value
  | PiFor _ iterable body =>
      makes_no_frame iterable && forallb makes_no_frame body
  | PiIn element container =>
      makes_no_frame element && makes_no_frame container
  | PiSubscript collection index =>
      makes_no_frame collection && makes_no_frame index
  | PiBinaryOperation _ _ _ | PiClassDef _ _ | PiFunctionCall _ _ => false
  end.

(** The program [for x in []: y = x]. *)
Definition empty_loop_program : PiStatement :=
  PiFor "x" (PiList []) [PiAssignment "y" (PiVariable "x")].

(** The function [def f(): for x in [1, 2]: return x] with [99] after the
    loop, a store that binds [f] to its closure, and the store in which its
    body runs when it is called there. *)
Definition return_in_for_def : PiFunctionDefinition :=
  MkFunctionDef "f" [] None
    [PiFor "x" (PiList [PiNumber 1; PiNumber 2]) [PiReturn (PiVariable "x")];
     PiNumber 99].

Definition return_in_for_store : Store :=
  store_insert 0%nat "f"
    (VFunctionClosure (MkClosure return_in_for_def 0%nat)) st0.

Definition return_in_for_frame : Store :=
  store_new_frame (Some 0%nat) return_in_for_store.






(** * Properties *)

(** ** The monad *)

Lemma bind_normal {A B} (m : M A) (k : A → M B) st st' a :
  m st = Some (st', Normal a) → bind m k st = k a st'.
Proof. unfold bind. by intros ->. Qed.

Lemma bind_raise {A B} (m : M A) (k : A → M B) st st' e :
  m st = Some (st', Raise e) → bind m k st = Some (st', Raise e).
Proof. unfold bind. by intros ->. Qed.

Lemma try_except_normal {A} (m : M A) h st st' a :
  m st = Some (st', Normal a) → try_except m h st = Some (st', Normal a).
Proof. unfold try_except. by intros ->. Qed.

Lemma try_except_caught {A} (m : M A) h st st' e k :
  m st = Some (st', Raise e) → h e = Some k → try_except m h st = k st'.
Proof. unfold try_except. by intros -> ->. Qed.

Lemma try_except_passed {A} (m : M A) h st st' e :
  m st = Some (st', Raise e) → h e = None →
  try_except m h st = Some (st', Raise e).
Proof. unfold try_except. by intros -> ->. Qed.

Lemma bind_ret {A B} (a : A) (k : A → M B) st : bind (ret a) k st = k a st.
Proof. reflexivity. Qed.

Section Properties.

Context (host : Host).

Lemma check_valid_piandor_ok v st :
  valid_piandor_kind v = true →
  _check_valid_piandor_type host v st = Some (st, Normal tt).
Proof. by destruct v. Qed.

Lemma check_valid_piandor_error v st :
  valid_piandor_kind v = false →
  _check_valid_piandor_type host v st =
    Some (st, Raise (TypeError ("Type non supporté pour l'opérateur 'and': "
                                +:+ type_name host v))).
Proof. by destruct v. Qed.

(** ** Sequences of statements *)

Section Sequences.

Variable ev : PiStatement → frame_ref → M EnvValue.

Lemma evaluate_seq_app pre post env v0 st st1 v1 :
  evaluate_seq ev pre env v0 st = Some (st1, Normal v1) →
  evaluate_seq ev (pre ++ post) env v0 st = evaluate_seq ev post env v1 st1.
Proof.
  revert v0 st. induction pre as [|s pre IH]; intros v0 st H; simpl in *.
  - unfold ret in H. by simplify_eq.
  - unfold bind in *. destruct (ev s env st) as [[st' [v|e]]|]; try done.
    by apply IH.
Qed.

(** An exception raised by a statement ends the sequence there: the
    statements after it are not evaluated. *)
Lemma evaluate_seq_raise pre stmt post env v0 st st1 v1 st2 e :
  evaluate_seq ev pre env v0 st = Some (st1, Normal v1) →
  ev stmt env st1 = Some (st2, Raise e) →
  evaluate_seq ev (pre ++ stmt :: post) env v0 st = Some (st2, Raise e).
Proof.
  intros Hpre Hs. rewrite (evaluate_seq_app _ _ _ _ _ _ _ Hpre). simpl.
  by rewrite (bind_raise _ _ _ _ _ Hs).
Qed.

Lemma evaluate_seq_last pre stmt env v0 st st1 v1 st2 v :
  evaluate_seq ev pre env v0 st = Some (st1, Normal v1) →
  ev stmt env st1 = Some (st2, Normal v) →
  evaluate_seq ev (pre ++ [stmt]) env v0 st = Some (st2, Normal v).
Proof.
  intros Hpre Hs. rewrite (evaluate_seq_app _ _ _ _ _ _ _ Hpre). simpl.
  by rewrite (bind_normal _ _ _ _ _ Hs).
Qed.

End Sequences.

(** C4: an AND whose left operand is falsy and of an allowed kind returns
    that operand, and an OR whose left operand is truthy and of an allowed
    kind returns that operand, whatever the right operand is: the right
    operand is not evaluated, the store is the one the left operand left.
    An operand of another kind, on the left or, when it is evaluated, on the
    right, is a type error. *)
Theorem C4_and_or_short_circuit :
  ∀ fuel lhs env st st1 v,
    evaluate_stmt host fuel lhs env st = Some (st1, Normal v) →
    (valid_piandor_kind v = true → truth_value v = false →
     ∀ rhs, evaluate_stmt host (S fuel) (PiAnd lhs rhs) env st
            = Some (st1, Normal v))
    ∧ (valid_piandor_kind v = true → truth_value v = true →
       ∀ rhs, evaluate_stmt host (S fuel) (PiOr lhs rhs) env st
              = Some (st1, Normal v))
    ∧ (valid_piandor_kind v = false →
       ∀ rhs, ∃ msg,
         evaluate_stmt host (S fuel) (PiAnd lhs rhs) env st
           = Some (st1, Raise (TypeError msg))
         ∧ evaluate_stmt host (S fuel) (PiOr lhs rhs) env st
           = Some (st1, Raise (TypeError msg)))
    ∧ (valid_piandor_kind v = true →
       ∀ rhs st2 w,
         evaluate_stmt host fuel rhs env st1 = Some (st2, Normal w) →
         valid_piandor_kind w = false →
         ∃ msg,
           (truth_value v = true →
            evaluate_stmt host (S fuel) (PiAnd lhs rhs) env st
              = Some (st2, Raise (TypeError msg)))
           ∧ (truth_value v = false →
              evaluate_stmt host (S fuel) (PiOr lhs rhs) env st
                = Some (st2, Raise (TypeError msg)))).
Proof.
  intros fuel lhs env st st1 v Hl. repeat split.
  - intros Hk Ht rhs. simpl. rewrite (bind_normal _ _ _ _ _ Hl).
    rewrite (bind_normal _ _ _ _ _ (check_valid_piandor_ok _ _ Hk)).
    by rewrite Ht.
  - intros Hk Ht rhs. simpl. rewrite (bind_normal _ _ _ _ _ Hl).
    rewrite (bind_normal _ _ _ _ _ (check_valid_piandor_ok _ _ Hk)).
    by rewrite Ht.
  - intros Hk rhs. eexists. simpl. rewrite !(bind_normal _ _ _ _ _ Hl).
    rewrite !(bind_raise _ _ _ _ _ (check_valid_piandor_error _ _ Hk)).
    done.
  - intros Hk rhs st2 w Hr Hw. eexists. split; intros Ht; simpl;
      rewrite (bind_normal _ _ _ _ _ Hl);
      rewrite (bind_normal _ _ _ _ _ (check_valid_piandor_ok _ _ Hk));
      rewrite Ht; simpl;
      rewrite (bind_normal _ _ _ _ _ Hr);
      by rewrite (bind_raise _ _ _ _ _ (check_valid_piandor_error _ _ Hw)).
Qed.

(** ** Indexing *)

Lemma py_index_nonneg {A} (l : list A) i :
  0 ≤ i → py_index l i = l !! Z.to_nat i.
Proof. intros Hi. unfold py_index. by rewrite (proj2 (Z.leb_le 0 i) Hi). Qed.

Lemma py_index_negative {A} (l : list A) i :
  - Z.of_nat (length l) ≤ i < 0 →
  py_index l i = l !! Z.to_nat (Z.of_nat (length l) + i).
Proof.
  intros [Hlo Hhi]. unfold py_index.
  rewrite (proj2 (Z.leb_gt 0 i) Hhi). by rewrite (proj2 (Z.leb_le _ i) Hlo).
Qed.

Lemma py_index_None {A} (l : list A) i :
  py_index l i = None ↔ Z.of_nat (length l) ≤ i ∨ i < - Z.of_nat (length l).
Proof.
  unfold py_index. destruct (Z.leb_spec 0 i) as [Hi|Hi].
  - rewrite lookup_ge_None. lia.
  - destruct (Z.leb_spec (- Z.of_nat (length l)) i) as [Hlo|Hlo].
    + rewrite lookup_ge_None. lia.
    + split; [lia | done].
Qed.

Lemma string_get_lookup s n :
  String.get n s = String.list_ascii_of_string s !! n.
Proof.
  revert n. induction s as [|c s IH]; intros [|n]; simpl; auto.
Qed.

Lemma string_length_list s :
  String.length s = length (String.list_ascii_of_string s).
Proof. induction s; simpl; congruence. Qed.

Lemma py_index_string_items s i :
  VString <$> py_index_string s i
  = py_index ((λ c, VString (String c EmptyString))
                <$> String.list_ascii_of_string s) i.
Proof.
  unfold py_index_string, py_index.
  rewrite length_fmap, <- string_length_list, !list_lookup_fmap,
    <- !string_get_lookup.
  destruct (0 <=? i).
  - by destruct (String.get _ s).
  - destruct (_ <=? i); [by destruct (String.get _ s) | done].
Qed.

(** [int] on a finite float rounds toward zero. *)
Lemma float_to_int_finite (s : bool) m e :
  let x := if s then Z.neg m else Z.pos m in
  float_to_int (S754_finite s m e)
  = inl (if 0 <=? e then x * 2 ^ e else x ÷ 2 ^ (- e)).
Proof.
  intros x. subst x. unfold float_to_int. f_equal.
  destruct (Z.leb_spec 0 e) as [He|He].
  - rewrite Z.shiftl_mul_pow2 by done. destruct s; [|done].
    by rewrite <- Z.mul_opp_l.
  - rewrite Z.shiftl_div_pow2 by lia.
    assert (Hpow : 0 < 2 ^ (- e)) by (apply Z.pow_pos_nonneg; lia).
    rewrite <- Z.quot_div_nonneg by lia. destruct s; [|done].
    rewrite <- Z.quot_opp_l by lia. done.
Qed.

Lemma number_to_int_error n e :
  number_to_int n = inr e →
  (n = PyFloat S754_nan
   ∧ e = ValueError "cannot convert float NaN to integer")
  ∨ (∃ s, n = PyFloat (S754_infinity s)
          ∧ e = OverflowError "cannot convert float infinity to integer").
Proof.
  destruct n as [z|[s|s| |s m x]]; simpl; intros H; simplify_eq; eauto.
Qed.

Section Subscript.

Variable ev : PiStatement → frame_ref → M EnvValue.
Variables (collection index : PiStatement) (env : frame_ref).
Variables (st st1 st2 : Store) (cv iv : EnvValue).
Hypothesis Hcollection : ev collection env st = Some (st1, Normal cv).
Hypothesis Hindex : ev index env st1 = Some (st2, Normal iv).

Lemma subscript_not_sequence :
  sequence_items cv = None →
  ∃ msg, _evaluate_subscript ev collection index env st
         = Some (st2, Raise (TypeError msg)).
Proof.
  intros Hcv. unfold _evaluate_subscript.
  rewrite (bind_normal _ _ _ _ _ Hcollection), (bind_normal _ _ _ _ _ Hindex).
  destruct cv; try done; by eexists.
Qed.

Lemma subscript_not_number items :
  sequence_items cv = Some items → (∀ n, iv ≠ VNumber n) →
  ∃ msg, _evaluate_subscript ev collection index env st
         = Some (st2, Raise (TypeError msg)).
Proof.
  intros Hcv Hiv. unfold _evaluate_subscript.
  rewrite (bind_normal _ _ _ _ _ Hcollection), (bind_normal _ _ _ _ _ Hindex).
  destruct cv; try done; (destruct iv; [by edestruct Hiv | by eexists ..]).
Qed.

(** The index is converted by [int] first; the position is looked up with
    the converted index. *)
Lemma subscript_number items n i :
  sequence_items cv = Some items → iv = VNumber n → number_to_int n = inl i →
  _evaluate_subscript ev collection index env st
  = Some (st2, match py_index items i with
               | Some x => Normal x
               | None => Raise (IndexError (index_error_message cv))
               end).
Proof.
  intros Hcv -> Hn. unfold _evaluate_subscript.
  rewrite (bind_normal _ _ _ _ _ Hcollection), (bind_normal _ _ _ _ _ Hindex).
  destruct cv; simplify_eq/=; rewrite bind_ret; unfold py_int; rewrite Hn;
    rewrite bind_ret.
  - rewrite <- py_index_string_items. by destruct (py_index_string _ _).
  - by destruct (py_index _ _).
  - by destruct (py_index _ _).
Qed.

(** What [int] raises on the index is the outcome of the subscript. *)
Lemma subscript_conversion_error items n e :
  sequence_items cv = Some items → iv = VNumber n → number_to_int n = inr e →
  _evaluate_subscript ev collection index env st = Some (st2, Raise e).
Proof.
  intros Hcv -> Hn. unfold _evaluate_subscript.
  rewrite (bind_normal _ _ _ _ _ Hcollection), (bind_normal _ _ _ _ _ Hindex).
  destruct cv; simplify_eq/=; rewrite bind_ret; unfold py_int;
    by rewrite Hn.
Qed.

End Subscript.

Lemma evaluate_subscript_unfold fuel collection index env :
  evaluate_stmt host (S fuel) (PiSubscript collection index) env
  = _evaluate_subscript (evaluate_stmt host fuel) collection index env.
Proof. reflexivity. Qed.

(** C7, as amended: the collection of a subscript must be a List, a Tuple
    or a String and the index a Number, a type error otherwise.  The index
    is converted by [int]: an integer Number is its own conversion, a float
    is rounded toward zero, and an infinite or NaN Number fails in the
    conversion with an overflow or value error, which is the outcome of the
    subscript.  A converted index [i] with [0 <= i < length] returns the item
    at position [i], the item of a String being a one-character String; a
    converted index at or beyond the length fails with an index error.
    [[10,20,30][2]] is [30], ["abc"[1]] is ["b"], [[10,20,30][3]] is an index
    error, and [[10,20,30][1.9]] is [20]. *)
Theorem C7_subscript :
  (∀ fuel collection index env st st1 st2 cv iv,
     evaluate_stmt host fuel collection env st = Some (st1, Normal cv) →
     evaluate_stmt host fuel index env st1 = Some (st2, Normal iv) →
     let result :=
       evaluate_stmt host (S fuel) (PiSubscript collection index) env st in
     (sequence_items cv = None →
      ∃ msg, result = Some (st2, Raise (TypeError msg)))
     ∧ ((∀ n, iv ≠ VNumber n) →
        ∃ msg, result = Some (st2, Raise (TypeError msg)))
     ∧ (∀ items n i,
          sequence_items cv = Some items → iv = VNumber n →
          number_to_int n = inl i →
          0 ≤ i < Z.of_nat (length items) →
          ∃ x, items !! Z.to_nat i = Some x ∧ result = Some (st2, Normal x))
     ∧ (∀ items n i,
          sequence_items cv = Some items → iv = VNumber n →
          number_to_int n = inl i →
          Z.of_nat (length items) ≤ i →
          ∃ msg, result = Some (st2, Raise (IndexError msg)))
     ∧ (∀ items n e,
          sequence_items cv = Some items → iv = VNumber n →
          number_to_int n = inr e →
          result = Some (st2, Raise e)
          ∧ ((n = PyFloat S754_nan ∧ ∃ msg, e = ValueError msg)
             ∨ ((∃ s, n = PyFloat (S754_infinity s))
                ∧ ∃ msg, e = OverflowError msg))))
  ∧ (∀ z : Z, number_to_int (PyInt z) = inl z)
  ∧ (∀ (s : bool) m e,
       number_to_int (PyFloat (S754_finite s m e))
       = inl (let x := if s then Z.neg m else Z.pos m in
              if 0 <=? e then x * 2 ^ e else x ÷ 2 ^ (- e)))
  ∧ (∀ s, number_to_int (PyFloat (S754_zero s)) = inl 0)
  ∧ (∀ env st,
       evaluate_stmt host 3
         (PiSubscript (PiList [PiNumber 10; PiNumber 20; PiNumber 30])
                      (PiNumber 2)) env st
       = Some (st, Normal (VNumber 30))
       ∧ evaluate_stmt host 3 (PiSubscript (PiString "abc") (PiNumber 1)) env st
         = Some (st, Normal (VString "b"))
       ∧ evaluate_stmt host 3
           (PiSubscript (PiList [PiNumber 10; PiNumber 20; PiNumber 30])
                        (PiNumber 3)) env st
         = Some (st, Raise (IndexError "Index de liste hors limites"))
       ∧ evaluate_stmt host 3
           (PiSubscript (PiList [PiNumber 10; PiNumber 20; PiNumber 30])
                        (PiNumber (PyFloat float_1_9))) env st
         = Some (st, Normal (VNumber 20))).
Proof.
  split; [|split; [done|split; [|split; [done|by intros env st]]]].
  - intros fuel collection index env st st1 st2 cv iv Hc Hi result.
    subst result. rewrite evaluate_subscript_unfold.
    split; [|split; [|split; [|split]]].
    + intros Hcv. eapply subscript_not_sequence; eauto.
    + intros Hiv. destruct (sequence_items cv) as [items|] eqn:Hcv.
      * eapply subscript_not_number; eauto.
      * eapply subscript_not_sequence; eauto.
    + intros items n i Hcv -> Hn Hi'.
      rewrite (subscript_number _ _ _ _ _ _ _ _ _ Hc Hi items n i Hcv eq_refl Hn).
      rewrite py_index_nonneg by lia.
      destruct (lookup_lt_is_Some_2 items (Z.to_nat i)) as [x Hx]; [lia|].
      exists x. by rewrite Hx.
    + intros items n i Hcv -> Hn Hi'.
      rewrite (subscript_number _ _ _ _ _ _ _ _ _ Hc Hi items n i Hcv eq_refl Hn).
      rewrite (proj2 (py_index_None items i)) by lia. by eexists.
    + intros items n e Hcv -> Hn. split.
      * eapply subscript_conversion_error; eauto.
      * destruct (number_to_int_error _ _ Hn) as [[-> ->]|(s & -> & ->)];
          [left|right]; eauto.
  - intros s m e. apply float_to_int_finite.
Qed.

(** C9, as amended: on a List, Tuple or String of length [len], a Number
    index whose conversion by [int] is [k] with [-len <= k < 0] returns the
    item at position [len + k]; the index error is raised exactly for
    [k >= len] and [k < -len].  An integer Number is its own conversion, so
    that for an integer index [z] this is the claim as it was written; a
    float is rounded toward zero first, and an index that [int] refuses
    raises no index error. *)
Theorem C9_negative_index :
  ∀ fuel collection index env st st1 st2 cv items n,
    evaluate_stmt host fuel collection env st = Some (st1, Normal cv) →
    evaluate_stmt host fuel index env st1 = Some (st2, Normal (VNumber n)) →
    sequence_items cv = Some items →
    let len := Z.of_nat (length items) in
    let result :=
      evaluate_stmt host (S fuel) (PiSubscript collection index) env st in
    (∀ z : Z,
       n = PyInt z →
       (- len ≤ z < 0 →
        ∃ x, items !! Z.to_nat (len + z) = Some x
             ∧ result = Some (st2, Normal x))
       ∧ ((∃ msg, result = Some (st2, Raise (IndexError msg)))
          ↔ (len ≤ z ∨ z < - len)))
    ∧ (∀ k,
         number_to_int n = inl k →
         (- len ≤ k < 0 →
          ∃ x, items !! Z.to_nat (len + k) = Some x
               ∧ result = Some (st2, Normal x))
         ∧ ((∃ msg, result = Some (st2, Raise (IndexError msg)))
            ↔ (len ≤ k ∨ k < - len)))
    ∧ (∀ e,
         number_to_int n = inr e →
         result = Some (st2, Raise e) ∧ ∀ msg, e ≠ IndexError msg).
Proof.
  intros fuel collection index env st st1 st2 cv items n Hc Hi Hcv len result.
  subst len result. rewrite evaluate_subscript_unfold.
  assert (Hconv : ∀ k,
    number_to_int n = inl k →
    (- Z.of_nat (length items) ≤ k < 0 →
     ∃ x, items !! Z.to_nat (Z.of_nat (length items) + k) = Some x
          ∧ _evaluate_subscript (evaluate_stmt host fuel) collection index env st
            = Some (st2, Normal x))
    ∧ ((∃ msg,
          _evaluate_subscript (evaluate_stmt host fuel) collection index env st
          = Some (st2, Raise (IndexError msg)))
       ↔ (Z.of_nat (length items) ≤ k ∨ k < - Z.of_nat (length items)))).
  { intros k Hk.
    rewrite (subscript_number _ _ _ _ _ _ _ _ _ Hc Hi items n k Hcv eq_refl Hk).
    split.
    - intros Hn. rewrite py_index_negative by lia.
      destruct (lookup_lt_is_Some_2 items
                  (Z.to_nat (Z.of_nat (length items) + k))) as [x Hx]; [lia|].
      exists x. by rewrite Hx.
    - rewrite <- py_index_None. destruct (py_index items k) as [x|].
      + split; [intros [msg ?]; simplify_eq | done].
      + split; [done | by eexists]. }
  split; [|split].
  - intros z ->. by apply Hconv.
  - exact Hconv.
  - intros e He. split.
    + eapply subscript_conversion_error; eauto.
    + intros msg ->.
      by destruct (number_to_int_error _ _ He) as [[_ ?]|(s & _ & ?)].
Qed.

(** ** Membership *)

Lemma append_cons c s t : String c s +:+ t = String c (s +:+ t).
Proof. reflexivity. Qed.

Lemma append_nil t : EmptyString +:+ t = t.
Proof. reflexivity. Qed.

Lemma prefix_spec sub s :
  String.prefix sub s = true ↔ ∃ post, s = sub +:+ post.
Proof.
  revert s. induction sub as [|a sub IH]; intros s.
  - split; [intros _; by exists s | intros _; by destruct s].
  - destruct s as [|b s]; simpl.
    + split; [done | intros [post ?]; done].
    + destruct (Ascii.ascii_dec a b) as [->|Hab].
      * rewrite IH. split; intros [post Hpost]; exists post;
          rewrite append_cons in *; congruence.
      * split; [done | intros [post ?]; rewrite append_cons in *; congruence].
Qed.

Lemma str_contains_spec sub s :
  str_contains sub s = true ↔ ∃ pre post, s = pre +:+ sub +:+ post.
Proof.
  induction s as [|c s IH]; cbn [str_contains]; rewrite orb_true_iff.
  - rewrite prefix_spec. split.
    + intros [[post ->]|?]; [by exists EmptyString, post | done].
    + intros (pre & post & H). left. destruct pre; [by exists post | done].
  - rewrite prefix_spec, IH. split.
    + intros [[post ->]|(pre & post & ->)].
      * by exists EmptyString, post.
      * by exists (String c pre), post.
    + intros (pre & post & H). destruct pre as [|c' pre].
      * left. by exists post.
      * right. exists pre, post. rewrite append_cons in H. congruence.
Qed.

Lemma py_in_spec {A} (eq : A → A → bool) x l :
  py_in eq x l = true ↔ ∃ y, y ∈ l ∧ eq x y = true.
Proof.
  unfold py_in. rewrite existsb_exists.
  split; intros (y & Hy & Heq); exists y; by rewrite ?list_elem_of_In in *.
Qed.

(** C8: a membership test whose container is a List or a Tuple is the Bool
    telling whether an item equals the element; on a String it is substring
    containment for a String element and False for an element of any other
    kind; it is a type error exactly when the container is none of List,
    Tuple and String. *)
Theorem C8_membership :
  ∀ fuel element container env st st1 st2 cv xv,
    evaluate_stmt host fuel container env st = Some (st1, Normal cv) →
    evaluate_stmt host fuel element env st1 = Some (st2, Normal xv) →
    let result :=
      evaluate_stmt host (S fuel) (PiIn element container) env st in
    (∀ l, cv = VList l ∨ cv = VTuple l →
          ∃ b, result = Some (st2, Normal (VBool b))
               ∧ (b = true ↔ ∃ y, y ∈ l ∧ value_eq host st2 xv y = true))
    ∧ (∀ s e, cv = VString s → xv = VString e →
              ∃ b, result = Some (st2, Normal (VBool b))
                   ∧ (b = true ↔ ∃ pre post, s = pre +:+ e +:+ post))
    ∧ (∀ s, cv = VString s → (∀ e, xv ≠ VString e) →
            result = Some (st2, Normal (VBool false)))
    ∧ ((∃ msg, result = Some (st2, Raise (TypeError msg)))
       ↔ sequence_items cv = None).
Proof.
  intros fuel element container env st st1 st2 cv xv Hc He result.
  assert (Hres : result = _evaluate_in host (evaluate_stmt host fuel)
                            element container env st) by reflexivity.
  unfold _evaluate_in in Hres.
  rewrite (bind_normal _ _ _ _ _ Hc), (bind_normal _ _ _ _ _ He) in Hres.
  rewrite Hres. clear Hres result. repeat split.
  - intros l [->| ->]; eexists; (split; [reflexivity | apply py_in_spec]).
  - intros s e -> ->. eexists. split; [reflexivity | apply str_contains_spec].
  - intros s -> Hxv. destruct xv; try done. by edestruct Hxv.
  - intros [msg H]. destruct cv; try done; destruct xv; done.
  - intros Hcv. destruct cv; try done; by eexists.
Qed.

(** ** Attribute access *)

(** C6: attribute access on a value that is not an Object is a type error.
    On an Object, the attribute of the instance is returned when the
    instance has one of that name; otherwise, when the method table of the
    class has the name, the result is a MethodClosure of that method bound to
    the instance; otherwise an attribute error names the class.  In every
    case the store is the one the object expression left: nothing is
    recorded by the access, so that each access builds its MethodClosure
    again. *)
Theorem C6_attribute_access :
  ∀ fuel object attr env st st1 v,
    evaluate_stmt host fuel object env st = Some (st1, Normal v) →
    let result := evaluate_stmt host (S fuel) (PiAttribute object attr) env st in
    ((∀ o, v ≠ VObject o) →
     ∃ msg, result = Some (st1, Raise (TypeError msg)))
    ∧ (∀ o ob, v = VObject o → objects st1 !! o = Some ob →
         (∀ a, attributes ob !! attr = Some a →
               result = Some (st1, Normal a))
         ∧ (∀ method,
              attributes ob !! attr = None →
              dict_get (class_methods (obj_class ob)) attr = Some method →
              result = Some (st1, Normal (VMethodClosure method o)))
         ∧ (attributes ob !! attr = None →
            dict_get (class_methods (obj_class ob)) attr = None →
            result = Some (st1, Raise (AttributeError
                       ("L'objet " +:+ class_name (obj_class ob)
                        +:+ " n'a pas d'attribut '" +:+ attr +:+ "'"))))).
Proof.
  intros fuel object attr env st st1 v Hobj result. subst result. simpl.
  rewrite (bind_normal _ _ _ _ _ Hobj). split.
  - intros Hv. destruct v; try by eexists. by edestruct Hv.
  - intros o ob -> Hob. unfold bind, read_object. rewrite Hob. simpl.
    repeat split.
    + by intros a ->.
    + by intros method -> ->.
    + by intros -> ->.
Qed.

(** ** Bindings in the store *)

Lemma lookup_chain_local depth fs env name fr v :
  fs !! env = Some fr → vars fr !! name = Some v →
  lookup_chain depth fs env name = Some v.
Proof. intros Hfr Hv. destruct depth; simpl; by rewrite Hfr, Hv. Qed.

Lemma lookup_local st env name v :
  local_binding st env name = Some v →
  lookup env name st = Some (st, Normal v).
Proof.
  unfold local_binding, lookup, EnvFrame_lookup. intros H.
  destruct (frames st !! env) as [fr|] eqn:Hfr; [|done].
  by rewrite (lookup_chain_local _ _ _ _ _ _ Hfr H).
Qed.

Lemma local_insert_eq st env name v :
  (env < length (frames st))%nat →
  local_binding (store_insert env name v st) env name = Some v.
Proof.
  intros Hlt. unfold local_binding, store_insert. simpl.
  rewrite list_lookup_alter_eq.
  destruct (lookup_lt_is_Some_2 _ _ Hlt) as [fr ->]. simpl.
  apply lookup_insert_eq.
Qed.

Lemma local_insert_ne st env name v env' name' :
  env ≠ env' ∨ name ≠ name' →
  local_binding (store_insert env name v st) env' name'
  = local_binding st env' name'.
Proof.
  intros Hne. unfold local_binding, store_insert. simpl.
  destruct (decide (env = env')) as [<-|Henv].
  - rewrite list_lookup_alter_eq. destruct (frames st !! env); simpl; [|done].
    apply lookup_insert_ne. by destruct Hne.
  - by rewrite list_lookup_alter_ne.
Qed.

Lemma local_new_frame_old st p env name :
  (env < length (frames st))%nat →
  local_binding (store_new_frame p st) env name = local_binding st env name.
Proof.
  intros Hlt. unfold local_binding, store_new_frame. simpl.
  by rewrite lookup_app_l.
Qed.

Lemma frames_insert_length st env name v :
  length (frames (store_insert env name v st)) = length (frames st).
Proof. unfold store_insert. simpl. apply length_alter. Qed.

Lemma frames_new_frame_length st p :
  length (frames (store_new_frame p st)) = S (length (frames st)).
Proof. unfold store_new_frame. simpl. rewrite length_app. simpl. lia. Qed.

Lemma local_binding_lt st env name v :
  local_binding st env name = Some v → (env < length (frames st))%nat.
Proof.
  unfold local_binding. destruct (frames st !! env) eqn:H; [|done].
  intros _. by eapply lookup_lt_Some.
Qed.

(** ** Bindings are never removed *)

Lemma store_le_refl st : store_le st st.
Proof. split; [lia | by intros env name]. Qed.

Lemma store_le_trans st1 st2 st3 :
  store_le st1 st2 → store_le st2 st3 → store_le st1 st3.
Proof.
  intros [Hl12 H12] [Hl23 H23]. split; [lia|].
  intros env name H. by apply H23, H12.
Qed.

Lemma store_le_insert st env name v : store_le st (store_insert env name v st).
Proof.
  split; [by rewrite frames_insert_length|].
  intros env' name' [w Hw].
  destruct (decide (env = env' ∧ name = name')) as [[<- <-]|Hne].
  - rewrite local_insert_eq; [done | by eapply local_binding_lt].
  - rewrite local_insert_ne; [done|].
    destruct (decide (env = env')); [right | left]; naive_solver.
Qed.

Lemma store_le_new_frame st p : store_le st (store_new_frame p st).
Proof.
  split; [rewrite frames_new_frame_length; lia|].
  intros env name [w Hw].
  rewrite local_new_frame_old; [done | by eapply local_binding_lt].
Qed.

Lemma store_le_same_frames st st' : frames st' = frames st → store_le st st'.
Proof.
  intros H. split; [by rewrite H|]. intros env name.
  unfold local_binding. by rewrite H.
Qed.

Lemma mono_ret {A} (a : A) : mono (ret a).
Proof. intros st st' r H. unfold ret in H. simplify_eq. apply store_le_refl. Qed.

Lemma mono_raise {A} e : mono (@raise A e).
Proof. intros st st' r H. unfold raise in H. simplify_eq. apply store_le_refl. Qed.

Lemma mono_bind {A B} (m : M A) (k : A → M B) :
  mono m → (∀ a, mono (k a)) → mono (bind m k).
Proof.
  intros Hm Hk st st' r H. unfold bind in H.
  destruct (m st) as [[st1 [a|e]]|] eqn:Hmst; simplify_eq.
  - eapply store_le_trans; [by eapply Hm | by eapply Hk].
  - by eapply Hm.
Qed.

Lemma mono_try_except {A} (m : M A) h :
  mono m → (∀ e k, h e = Some k → mono k) → mono (try_except m h).
Proof.
  intros Hm Hh st st' r H. unfold try_except in H.
  destruct (m st) as [[st1 [a|e]]|] eqn:Hmst; simplify_eq.
  - by eapply Hm.
  - destruct (h e) as [k|] eqn:Hhe; simplify_eq.
    + eapply store_le_trans; [by eapply Hm | by eapply Hh].
    + by eapply Hm.
Qed.

Lemma mono_insert env name v : mono (EnvFrame_insert env name v).
Proof.
  intros st st' r H. unfold EnvFrame_insert in H. simplify_eq.
  apply store_le_insert.
Qed.

Lemma mono_new_frame p : mono (EnvFrame_new p).
Proof.
  intros st st' r H. unfold EnvFrame_new in H. simplify_eq.
  apply store_le_new_frame.
Qed.

Lemma mono_lookup env name : mono (EnvFrame_lookup env name).
Proof.
  intros st st' r H. unfold EnvFrame_lookup in H.
  destruct (lookup_chain _ _ _ _); unfold ret, raise in H; simplify_eq;
    apply store_le_refl.
Qed.

Lemma mono_new_object cd : mono (new_object cd).
Proof.
  intros st st' r H. unfold new_object in H. simplify_eq.
  by apply store_le_same_frames.
Qed.

Lemma mono_set_attribute o attr v : mono (set_attribute o attr v).
Proof.
  intros st st' r H. unfold set_attribute in H. simplify_eq.
  by apply store_le_same_frames.
Qed.

Lemma mono_read_object o : mono (read_object o).
Proof.
  intros st st' r H. unfold read_object in H.
  destruct (objects st !! o); unfold ret, raise in H; simplify_eq;
    apply store_le_refl.
Qed.

Lemma mono_check_type_VBool v : mono (check_type_VBool v).
Proof. destruct v; first [apply mono_ret | apply mono_raise]. Qed.

Lemma mono_check_type_VNumber v : mono (check_type_VNumber v).
Proof. destruct v; first [apply mono_ret | apply mono_raise]. Qed.

Lemma mono_py_int x : mono (py_int x).
Proof.
  unfold py_int. destruct (number_to_int x);
    first [apply mono_ret | apply mono_raise].
Qed.

Lemma mono_check_valid_piandor v : mono (_check_valid_piandor_type host v).
Proof. destruct v; first [apply mono_ret | apply mono_raise]. Qed.

Lemma mono_pure {A} (f : Store → Outcome A) : mono (λ st, Some (st, f st)).
Proof. intros st st' r H. simplify_eq. apply store_le_refl. Qed.

Create HintDb mono discriminated.

#[local] Hint Resolve mono_ret mono_raise mono_insert mono_new_frame
  mono_lookup mono_new_object mono_set_attribute mono_read_object
  mono_check_type_VBool mono_check_type_VNumber mono_py_int
  mono_check_valid_piandor mono_pure : mono.

(** One step of a proof of [mono]: a bind, a handler, or a case of the
    code. *)
Ltac mono_step :=
  match goal with
  | |- mono (bind _ _) => apply mono_bind; [|intros ?]
  | |- mono (try_except _ _) =>
      apply mono_try_except;
      [|let e := fresh "e" in
        let k := fresh "k" in
        let H := fresh "H" in
        intros e k H; destruct e; simplify_eq]
  | |- mono (match ?x with _ => _ end) => destruct x
  | |- mono _ => solve [auto with mono]
  end.

Ltac mono_tac := cbv zeta; repeat mono_step.

Section Mono_nodes.

Variable ev : PiStatement → frame_ref → M EnvValue.
Hypothesis ev_mono : ∀ node env, mono (ev node env).

Lemma mono_evaluate_each nodes env : mono (evaluate_each ev nodes env).
Proof. induction nodes; simpl; mono_tac. Qed.

Lemma mono_evaluate_seq stmts env last_value :
  mono (evaluate_seq ev stmts env last_value).
Proof. revert last_value. induction stmts; intros; simpl; mono_tac. Qed.

Lemma mono_evaluate_list node env : mono (evaluate_list ev node env).
Proof. apply mono_evaluate_seq. Qed.

Hint Resolve mono_evaluate_each mono_evaluate_list : mono.

Lemma mono_loop_body body env : mono (loop_body ev body env).
Proof. unfold loop_body. mono_tac. Qed.

Hint Resolve mono_loop_body : mono.

Lemma mono_while_loop n condition body env last_value :
  mono (while_loop ev n condition body env last_value).
Proof.
  revert last_value. induction n; intros; simpl; [by intros ???|]. mono_tac.
Qed.

Lemma mono_for_loop var body env iterable last_value :
  mono (for_loop ev var body env iterable last_value).
Proof. revert last_value. induction iterable; intros; simpl; mono_tac. Qed.

Hint Resolve mono_while_loop mono_for_loop : mono.

Lemma mono_evaluate_for var iterable body env :
  mono (_evaluate_for ev var iterable body env).
Proof. unfold _evaluate_for. mono_tac. Qed.

Lemma mono_evaluate_subscript collection index env :
  mono (_evaluate_subscript ev collection index env).
Proof. unfold _evaluate_subscript. mono_tac. Qed.

Lemma mono_evaluate_in element container env :
  mono (_evaluate_in host ev element container env).
Proof. unfold _evaluate_in. mono_tac; apply (mono_pure (λ st, Normal _)). Qed.

Lemma mono_bind_args call_env names args missing :
  mono (bind_args call_env names args missing).
Proof. revert args. induction names; intros [|??]; simpl; mono_tac. Qed.

Lemma mono_bind_self call_env names instance :
  mono (bind_self call_env names instance).
Proof. unfold bind_self. mono_tac. Qed.

Hint Resolve mono_bind_args mono_bind_self : mono.

Lemma mono_call_body body call_env : mono (call_body ev body call_env).
Proof. unfold call_body. mono_tac. Qed.

Hint Resolve mono_call_body : mono.

Lemma mono_call_constructor func_val args :
  mono (call_constructor ev func_val args).
Proof. unfold call_constructor, init_call_env. mono_tac. Qed.

Lemma mono_call_method function instance args :
  mono (call_method ev function instance args).
Proof. unfold call_method, method_call_env. mono_tac. Qed.

Lemma mono_call_function func_val args : mono (call_function ev func_val args).
Proof. unfold call_function, function_call_env. mono_tac. Qed.

Hint Resolve mono_call_constructor mono_call_method mono_call_function : mono.

Lemma mono_evaluate_function_call function args env :
  mono (_evaluate_function_call host ev function args env).
Proof. unfold _evaluate_function_call. mono_tac. Qed.

End Mono_nodes.

(** Evaluation removes no binding: a name bound in a frame stays bound in
    that frame, whatever is evaluated and however it ends. *)
Lemma mono_evaluate_stmt fuel : ∀ node env, mono (evaluate_stmt host fuel node env).
Proof.
  induction fuel as [|fuel IH]; intros node env; [by intros ???|].
  pose proof (mono_evaluate_each _ IH).
  pose proof (mono_evaluate_list _ IH).
  destruct node; simpl; unfold lookup, insert; mono_tac.
  - apply mono_while_loop, IH.
  - by apply mono_evaluate_function_call.
  - by apply mono_evaluate_for.
  - by apply mono_evaluate_in.
  - by apply mono_evaluate_subscript.
Qed.

(** ** Evaluation rules

    The equations of the evaluator, one per node, in the form in which the
    evaluation of a given program is followed step by step. *)

Section Rules_nodes.

Variable ev : PiStatement → frame_ref → M EnvValue.

Lemma evaluate_each_nil env st :
  evaluate_each ev [] env st = Some (st, Normal []).
Proof. reflexivity. Qed.

Lemma evaluate_each_cons e es env st st1 v st2 vs :
  ev e env st = Some (st1, Normal v) →
  evaluate_each ev es env st1 = Some (st2, Normal vs) →
  evaluate_each ev (e :: es) env st = Some (st2, Normal (v :: vs)).
Proof.
  intros He Hes. simpl. rewrite (bind_normal _ _ _ _ _ He).
  by rewrite (bind_normal _ _ _ _ _ Hes).
Qed.

Lemma evaluate_seq_nil env last_value st :
  evaluate_seq ev [] env last_value st = Some (st, Normal last_value).
Proof. reflexivity. Qed.

Lemma evaluate_seq_cons stmt rest env last_value st st1 v :
  ev stmt env st = Some (st1, Normal v) →
  evaluate_seq ev (stmt :: rest) env last_value st
  = evaluate_seq ev rest env v st1.
Proof. intros Hs. simpl. by rewrite (bind_normal _ _ _ _ _ Hs). Qed.

Lemma evaluate_seq_cons_raise stmt rest env last_value st st1 e :
  ev stmt env st = Some (st1, Raise e) →
  evaluate_seq ev (stmt :: rest) env last_value st = Some (st1, Raise e).
Proof. intros Hs. simpl. by rewrite (bind_raise _ _ _ _ _ Hs). Qed.

Lemma loop_body_value body env st st1 v :
  evaluate_list ev body env st = Some (st1, Normal v) →
  loop_body ev body env st = Some (st1, Normal (BodyValue v)).
Proof.
  intros Hb. unfold loop_body.
  apply try_except_normal. by rewrite (bind_normal _ _ _ _ _ Hb).
Qed.

Lemma loop_body_raise body env st st1 e :
  evaluate_list ev body env st = Some (st1, Raise e) →
  e ≠ BreakException → e ≠ ContinueException →
  loop_body ev body env st = Some (st1, Raise e).
Proof.
  intros Hb Hbreak Hcontinue. unfold loop_body.
  eapply try_except_passed; [by rewrite (bind_raise _ _ _ _ _ Hb)|].
  by destruct e.
Qed.

Lemma for_loop_nil var body env last_value st :
  for_loop ev var body env [] last_value st = Some (st, Normal last_value).
Proof. reflexivity. Qed.

(** The loop variable is written into the frame [env] of the loop, and the
    body runs in that same frame. *)
Lemma for_loop_cons var body env item rest last_value st :
  for_loop ev var body env (item :: rest) last_value st
  = (do step <- loop_body ev body env;
     match step with
     | BodyValue v => for_loop ev var body env rest v
     | BodyBreak => ret last_value
     | BodyContinue => for_loop ev var body env rest last_value
     end) (store_insert env var item st).
Proof. reflexivity. Qed.

Lemma for_loop_cons_value var body env item rest last_value st st1 v :
  evaluate_list ev body env (store_insert env var item st)
    = Some (st1, Normal v) →
  for_loop ev var body env (item :: rest) last_value st
  = for_loop ev var body env rest v st1.
Proof.
  intros Hb. rewrite for_loop_cons.
  by rewrite (bind_normal _ _ _ _ _ (loop_body_value _ _ _ _ _ Hb)).
Qed.

Hypothesis ev_mono : ∀ node env, mono (ev node env).

(** However a loop over at least one item ends, its variable is bound in the
    frame of the loop, and no binding of any frame is lost. *)
Lemma for_loop_binds var body env item rest last_value st st' r :
  (env < length (frames st))%nat →
  for_loop ev var body env (item :: rest) last_value st = Some (st', r) →
  is_Some (local_binding st' env var) ∧ store_le st st'.
Proof.
  intros Henv. rewrite for_loop_cons. intros Hloop.
  assert (Hle : store_le (store_insert env var item st) st').
  { revert Hloop. generalize (store_insert env var item st). intros st0 Hloop.
    eapply (mono_bind (loop_body ev body env)); [| |exact Hloop].
    - by apply mono_loop_body.
    - intros [v| |]; first [by apply mono_for_loop | apply mono_ret]. }
  split.
  - apply Hle. rewrite local_insert_eq by done. by eexists.
  - eapply store_le_trans; [apply store_le_insert | exact Hle].
Qed.

End Rules_nodes.

Lemma eval_PiNumber fuel n env st :
  evaluate_stmt host (S fuel) (PiNumber n) env st = Some (st, Normal (VNumber n)).
Proof. reflexivity. Qed.

Lemma eval_PiBool fuel b env st :
  evaluate_stmt host (S fuel) (PiBool b) env st = Some (st, Normal (VBool b)).
Proof. reflexivity. Qed.

Lemma eval_PiNone fuel env st :
  evaluate_stmt host (S fuel) PiNone env st = Some (st, Normal VNone).
Proof. reflexivity. Qed.

Lemma eval_PiVariable_local fuel name env st v :
  local_binding st env name = Some v →
  evaluate_stmt host (S fuel) (PiVariable name) env st = Some (st, Normal v).
Proof. intros H. simpl. by apply lookup_local. Qed.

Lemma eval_PiAssignment fuel name value env st st1 v :
  evaluate_stmt host fuel value env st = Some (st1, Normal v) →
  evaluate_stmt host (S fuel) (PiAssignment name value) env st
  = Some (store_insert env name v st1, Normal v).
Proof. intros H. simpl. by rewrite (bind_normal _ _ _ _ _ H). Qed.

Lemma eval_PiList fuel elements env st st1 vs :
  evaluate_each (evaluate_stmt host fuel) elements env st
    = Some (st1, Normal vs) →
  evaluate_stmt host (S fuel) (PiList elements) env st
  = Some (st1, Normal (VList vs)).
Proof. intros H. simpl. by rewrite (bind_normal _ _ _ _ _ H). Qed.

Lemma eval_PiFor fuel var iterable body env st st1 iv items :
  evaluate_stmt host fuel iterable env st = Some (st1, Normal iv) →
  iv = VList items ∨ iv = VTuple items →
  evaluate_stmt host (S fuel) (PiFor var iterable body) env st
  = for_loop (evaluate_stmt host fuel) var body env items VNone st1.
Proof.
  intros H Hiv. simpl. unfold _evaluate_for.
  rewrite (bind_normal _ _ _ _ _ H). by destruct Hiv as [-> | ->].
Qed.

Lemma for_leak_body fuel F st item :
  (F < length (frames st))%nat →
  evaluate_list (evaluate_stmt host (S (S fuel)))
    [PiAssignment "y" (PiVariable "x")] F (store_insert F "x" item st)
  = Some (store_insert F "y" item (store_insert F "x" item st), Normal item).
Proof.
  intros HF. unfold evaluate_list.
  erewrite evaluate_seq_cons; [apply evaluate_seq_nil|].
  apply eval_PiAssignment, eval_PiVariable_local.
  by apply local_insert_eq.
Qed.

Lemma for_leak_program_run F st :
  (F < length (frames st))%nat →
  evaluate_stmt host 3 for_leak_program F st
  = Some (store_insert F "y" (VNumber 3) (store_insert F "x" (VNumber 3)
           (store_insert F "y" (VNumber 2) (store_insert F "x" (VNumber 2)
           (store_insert F "y" (VNumber 1) (store_insert F "x" (VNumber 1)
            st))))),
          Normal (VNumber 3)).
Proof.
  intros HF. unfold for_leak_program.
  erewrite eval_PiFor; [|by apply eval_PiList|by left].
  do 3 (erewrite for_loop_cons_value;
        [|apply for_leak_body; by rewrite ?frames_insert_length]).
  apply for_loop_nil.
Qed.

(** ** Calls and loops *)

Section Rules_calls.

Variable ev : PiStatement → frame_ref → M EnvValue.


Lemma while_loop_true_value n condition body env last_value st st1 st2 v :
  ev condition env st = Some (st1, Normal (VBool true)) →
  evaluate_list ev body env st1 = Some (st2, Normal v) →
  while_loop ev (S n) condition body env last_value st
  = while_loop ev n condition body env v st2.
Proof.
  intros Hc Hb. cbn [while_loop]. rewrite (bind_normal _ _ _ _ _ Hc).
  unfold check_type_VBool. rewrite bind_ret. cbn [negb].
  by rewrite (bind_normal _ _ _ _ _ (loop_body_value _ _ _ _ _ _ Hb)).
Qed.

Lemma while_loop_true_raise n condition body env last_value st st1 st2 e :
  ev condition env st = Some (st1, Normal (VBool true)) →
  evaluate_list ev body env st1 = Some (st2, Raise e) →
  e ≠ BreakException → e ≠ ContinueException →
  while_loop ev (S n) condition body env last_value st = Some (st2, Raise e).
Proof.
  intros Hc Hb Hbreak Hcontinue. cbn [while_loop].
  rewrite (bind_normal _ _ _ _ _ Hc).
  unfold check_type_VBool. rewrite bind_ret. cbn [negb].
  by rewrite (bind_raise _ _ _ _ _
                (loop_body_raise _ _ _ _ _ _ Hb Hbreak Hcontinue)).
Qed.

Lemma call_body_return body call_env st st1 v :
  evaluate_list ev body call_env st = Some (st1, Raise (ReturnException v)) →
  call_body ev body call_env st = Some (st1, Normal v).
Proof.
  intros Hb. unfold call_body.
  by rewrite (try_except_caught _ _ _ _ _ (ret v) Hb eq_refl).
Qed.

Lemma call_body_value body call_env st st1 v :
  evaluate_list ev body call_env st = Some (st1, Normal v) →
  call_body ev body call_env st = Some (st1, Normal v).
Proof. intros Hb. unfold call_body. by apply try_except_normal. Qed.

Lemma call_function_body func_val args st st1 call_env :
  function_call_env func_val args st = Some (st1, Normal call_env) →
  call_function ev func_val args st
  = call_body ev (fd_body (funcdef func_val)) call_env st1.
Proof. intros Henv. unfold call_function. by rewrite (bind_normal _ _ _ _ _ Henv). Qed.

Lemma call_method_body function instance args st st1 call_env :
  method_call_env function instance args st = Some (st1, Normal call_env) →
  call_method ev function instance args st
  = call_body ev (fd_body (funcdef function)) call_env st1.
Proof. intros Henv. unfold call_method. by rewrite (bind_normal _ _ _ _ _ Henv). Qed.

(** The result of a construction is the new instance, whether the body of
    [__init__] ends normally or by a [return]. *)
Lemma call_constructor_init func_val args init_method st st1 call_env st2 r :
  dict_get (class_methods func_val) "__init__" = Some init_method →
  init_call_env init_method (length (objects st)) args
    (store_new_object func_val st) = Some (st1, Normal call_env) →
  evaluate_list ev (fd_body (funcdef init_method)) call_env st1
    = Some (st2, r) →
  (∃ v, r = Normal v) ∨ (∃ v, r = Raise (ReturnException v)) →
  call_constructor ev func_val args st
  = Some (st2, Normal (VObject (length (objects st)))).
Proof.
  intros Hinit Henv Hbody Hr. unfold call_constructor.
  unfold bind at 1. unfold new_object. rewrite Hinit.
  rewrite (bind_normal _ (λ _, ret (VObject (length (objects st))))
             _ st2 tt); [done|].
  rewrite (bind_normal _ _ _ _ _ Henv).
  destruct Hr as [[v ->]|[v ->]].
  - apply try_except_normal. by rewrite (bind_normal _ _ _ _ _ Hbody).
  - by rewrite (try_except_caught _ _ _ _ _ (ret tt)
                  (bind_raise _ _ _ _ _ Hbody) eq_refl).
Qed.

Lemma call_constructor_no_init func_val args st :
  dict_get (class_methods func_val) "__init__" = None →
  call_constructor ev func_val args st
  = Some (store_new_object func_val st,
          Normal (VObject (length (objects st)))).
Proof.
  intros Hinit. unfold call_constructor, bind, new_object. by rewrite Hinit.
Qed.

End Rules_calls.

Lemma eval_PiReturn fuel value env st st1 v :
  evaluate_stmt host fuel value env st = Some (st1, Normal v) →
  evaluate_stmt host (S fuel) (PiReturn value) env st
  = Some (st1, Raise (ReturnException v)).
Proof. intros H. simpl. by rewrite (bind_normal _ _ _ _ _ H). Qed.

Lemma eval_PiIfThenElse fuel condition then_branch else_branch env st st1 b :
  evaluate_stmt host fuel condition env st = Some (st1, Normal (VBool b)) →
  evaluate_stmt host (S fuel)
    (PiIfThenElse condition then_branch else_branch) env st
  = evaluate_list (evaluate_stmt host fuel)
      (if b then then_branch else else_branch) env st1.
Proof. intros H. simpl. by rewrite (bind_normal _ _ _ _ _ H). Qed.

Lemma eval_PiWhile fuel condition body env st :
  evaluate_stmt host (S fuel) (PiWhile condition body) env st
  = while_loop (evaluate_stmt host fuel) fuel condition body env VNone st.
Proof. reflexivity. Qed.

Lemma eval_PiFunctionDef fuel def env st :
  evaluate_stmt host (S fuel) (PiFunctionDef def) env st
  = Some (store_insert env (fd_name def)
            (VFunctionClosure (MkClosure def env)) st,
          Normal VNone).
Proof. reflexivity. Qed.

Lemma eval_PiClassDef fuel name methods env st :
  evaluate_stmt host (S fuel) (PiClassDef name methods) env st
  = Some (store_insert env name
            (VClassDef (MkClassDef name
               (class_method_table (length (frames st)) methods)))
            (store_new_frame (Some env) st),
          Normal VNone).
Proof. reflexivity. Qed.

Lemma eval_PiFunctionCall fuel function args env st st1 func_val st2 vs :
  evaluate_stmt host fuel function env st = Some (st1, Normal func_val) →
  evaluate_each (evaluate_stmt host fuel) args env st1
    = Some (st2, Normal vs) →
  evaluate_stmt host (S fuel) (PiFunctionCall function args) env st
  = match func_val with
    | VPrimitive name => Some (st2, prim_call host name st2 vs)
    | VClassDef class_def =>
        call_constructor (evaluate_stmt host fuel) class_def vs st2
    | VMethodClosure function instance =>
        call_method (evaluate_stmt host fuel) function instance vs st2
    | VFunctionClosure closure =>
        call_function (evaluate_stmt host fuel) closure vs st2
    | _ =>
        Some (st2, Raise (TypeError
          ("Tentative d'appel d'un objet non-fonction de type "
           +:+ type_name host func_val)))
    end.
Proof.
  intros Hf Hargs. simpl. unfold _evaluate_function_call.
  rewrite (bind_normal _ _ _ _ _ Hf), (bind_normal _ _ _ _ _ Hargs).
  by destruct func_val.
Qed.

Lemma eval_PiAttributeAssignment fuel object attr value env st st1 o st2 v :
  evaluate_stmt host fuel object env st = Some (st1, Normal (VObject o)) →
  evaluate_stmt host fuel value env st1 = Some (st2, Normal v) →
  evaluate_stmt host (S fuel) (PiAttributeAssignment object attr value) env st
  = Some (store_set_attribute o attr v st2, Normal v).
Proof.
  intros Ho Hv. simpl.
  by rewrite (bind_normal _ _ _ _ _ Ho), (bind_normal _ _ _ _ _ Hv).
Qed.

Lemma local_new_frame_new st p name :
  local_binding (store_new_frame p st) (length (frames st)) name = None.
Proof.
  unfold local_binding, store_new_frame. simpl.
  by rewrite list_lookup_middle.
Qed.

(** ** Return *)

Lemma return_example_run F st :
  (F < length (frames st))%nat →
  evaluate host 5 return_example F st
  = Some (store_new_frame (Some F)
            (store_insert F "f"
               (VFunctionClosure (MkClosure return_example_def F)) st),
          Normal (VNumber 1)).
Proof.
  intros HF. unfold evaluate, evaluate_list, return_example.
  erewrite evaluate_seq_cons by apply eval_PiFunctionDef.
  erewrite evaluate_seq_cons; [apply evaluate_seq_nil|].
  erewrite eval_PiFunctionCall;
    [|by apply eval_PiVariable_local, local_insert_eq|apply evaluate_each_nil].
  cbv beta iota. erewrite call_function_body by reflexivity.
  apply call_body_return. unfold evaluate_list.
  cbn [fd_body funcdef return_example_def].
  apply evaluate_seq_cons_raise. rewrite eval_PiWhile.
  eapply while_loop_true_raise; [apply eval_PiBool| |done..].
  apply evaluate_seq_cons_raise.
  erewrite eval_PiIfThenElse by apply eval_PiBool.
  apply evaluate_seq_cons_raise, eval_PiReturn, eval_PiNumber.
Qed.

(** ** Binding the arguments of a call *)

(** With at least as many arguments as names, every name is bound and
    nothing is raised, however many arguments are left over. *)
Lemma bind_args_enough call_env names args missing st :
  (length names ≤ length args)%nat →
  bind_args call_env names args missing st
  = Some (store_bind_args call_env names args st, Normal tt).
Proof.
  revert args st. induction names as [|arg_name names IH];
    intros [|arg args] st Hlen; simpl in *; try done; [lia|].
  unfold bind, EnvFrame_insert. apply IH. lia.
Qed.

(** With fewer arguments than names, the first name left without argument
    is reported. *)
Lemma bind_args_missing call_env names args missing st :
  (length args < length names)%nat →
  ∃ arg_name,
    names !! length args = Some arg_name
    ∧ bind_args call_env names args missing st
      = Some (store_bind_args call_env names args st, Raise (missing arg_name)).
Proof.
  revert args st. induction names as [|arg_name names IH];
    intros [|arg args] st Hlen; simpl in *; try lia.
  - by exists arg_name.
  - destruct (IH args (store_insert call_env arg_name arg st)) as (n & Hn & Hb);
      [lia|].
    exists n. split; [done|]. unfold bind, EnvFrame_insert. by rewrite Hb.
Qed.

Lemma bind_self_store call_env names instance st :
  bind_self call_env names instance st
  = Some (store_bind_self call_env names instance st, Normal tt).
Proof. by destruct names. Qed.

Lemma init_call_env_enough init_method instance args st :
  let names := fd_arg_names (funcdef init_method) in
  let call_env := length (frames st) in
  (length (tail names) ≤ length args)%nat →
  init_call_env init_method instance args st
  = Some (store_bind_args call_env (tail names) args
            (store_bind_self call_env names instance
               (store_new_frame (Some (closure_env init_method)) st)),
          Normal call_env).
Proof.
  intros names call_env Hlen. unfold init_call_env.
  unfold bind at 1. unfold EnvFrame_new.
  rewrite (bind_normal _ _ _ _ _ (bind_self_store _ _ _ _)).
  by rewrite (bind_normal _ _ _ _ _ (bind_args_enough _ _ _ _ _ Hlen)).
Qed.

(** A construction with fewer arguments than [__init__] has parameters after
    the receiver fails with the type error of the missing argument. *)
Lemma call_constructor_too_few ev func_val args init_method st :
  dict_get (class_methods func_val) "__init__" = Some init_method →
  (length args < length (tail (fd_arg_names (funcdef init_method))))%nat →
  ∃ st' arg_name,
    call_constructor ev func_val args st
    = Some (st', Raise (TypeError ("Argument manquant pour __init__: "
                                   +:+ arg_name))).
Proof.
  intros Hinit Hlen. unfold call_constructor.
  unfold bind at 1. unfold new_object. rewrite Hinit.
  unfold init_call_env. unfold bind at 3. unfold EnvFrame_new.
  edestruct bind_args_missing as (arg_name & _ & Hb); [exact Hlen|].
  eexists _, arg_name.
  unfold bind at 1. unfold bind at 1.
  rewrite (bind_normal _ _ _ _ _ (bind_self_store _ _ _ _)).
  by rewrite (bind_raise _ _ _ _ _ Hb).
Qed.

(** ** Construction *)

(** C1, at the input [extra_arguments_program]: the construction raises no
    error; it returns the new instance, the arguments left over being
    ignored.  (A construction with too few arguments does fail:
    [call_constructor_too_few].) *)
Theorem C1_constructor_extra_arguments :
  ∀ F st,
    (F < length (frames st))%nat →
    ∃ st',
      evaluate host 3 extra_arguments_program F st
      = Some (st', Normal (VObject (length (objects st)))).
Proof.
  intros F st HF. eexists.
  unfold evaluate, evaluate_list, extra_arguments_program.
  erewrite evaluate_seq_cons by apply eval_PiClassDef.
  erewrite evaluate_seq_cons; [apply evaluate_seq_nil|].
  erewrite eval_PiFunctionCall;
    [|apply eval_PiVariable_local, local_insert_eq;
      rewrite frames_new_frame_length; lia
     |eapply evaluate_each_cons; [apply eval_PiNumber|];
      eapply evaluate_each_cons; [apply eval_PiNumber|];
      apply evaluate_each_nil].
  cbv beta iota.
  erewrite call_constructor_init;
    [reflexivity
    |reflexivity
    |apply init_call_env_enough; simpl; lia
    |unfold evaluate_list; cbn [fd_body funcdef];
     erewrite evaluate_seq_cons by apply eval_PiNone;
     apply evaluate_seq_nil
    |left; by eexists].
Qed.

(** The body of [__init__] in a frame that binds the receiver and [v]. *)
Lemma init_val_body suffix call_env st o a :
  local_binding st call_env "self" = Some (VObject o) →
  local_binding st call_env "v" = Some a →
  suffix = [] ∨ (∃ n, suffix = [PiReturn (PiNumber n)]) →
  ∃ r,
    evaluate_list (evaluate_stmt host 2) (fd_body (init_val_def suffix))
      call_env st
    = Some (store_set_attribute o "val" a st, r)
    ∧ ((∃ v, r = Normal v) ∨ (∃ v, r = Raise (ReturnException v))).
Proof.
  intros Hself Hv Hsuffix.
  assert (Hassign :
    evaluate_stmt host 2
      (PiAttributeAssignment (PiVariable "self") "val" (PiVariable "v"))
      call_env st
    = Some (store_set_attribute o "val" a st, Normal a)).
  { eapply eval_PiAttributeAssignment; by apply eval_PiVariable_local. }
  unfold evaluate_list. cbn [fd_body init_val_def].
  rewrite (evaluate_seq_cons _ _ _ _ _ _ _ _ Hassign).
  destruct Hsuffix as [-> | [n ->]].
  - eexists. split; [apply evaluate_seq_nil | left; by eexists].
  - eexists. split; [|right; by eexists].
    by apply evaluate_seq_cons_raise, eval_PiReturn.
Qed.

(** The call frame of [__init__(self, v)], made in the store [st]. *)
Lemma init_val_call_frame st p o a :
  let call_env := length (frames st) in
  let st' :=
    store_insert call_env "v" a
      (store_insert call_env "self" (VObject o) (store_new_frame p st)) in
  local_binding st' call_env "self" = Some (VObject o)
  ∧ local_binding st' call_env "v" = Some a.
Proof.
  intros call_env st'. subst call_env st'. split.
  - rewrite local_insert_ne by by right.
    apply local_insert_eq. rewrite frames_new_frame_length. lia.
  - apply local_insert_eq.
    rewrite frames_insert_length, frames_new_frame_length. lia.
Qed.

Lemma class_C_program_run suffix F st :
  (F < length (frames st))%nat →
  suffix = [] ∨ (∃ n, suffix = [PiReturn (PiNumber n)]) →
  ∃ st' ob,
    evaluate host 3 (class_C_program suffix) F st
    = Some (st', Normal (VObject (length (objects st))))
    ∧ objects st' !! length (objects st) = Some ob
    ∧ class_name (obj_class ob) = "C"
    ∧ attributes ob = {[ "val" := VNumber 7 ]}.
Proof.
  intros HF Hsuffix.
  set (cd := MkClassDef "C"
               (class_method_table (length (frames st)) [init_val_def suffix])).
  set (st2 := store_new_object cd
                (store_insert F "C" (VClassDef cd) (store_new_frame (Some F) st))).
  destruct (init_val_call_frame st2 (Some (length (frames st)))
              (length (objects st)) (VNumber 7)) as [Hself Hv].
  destruct (init_val_body suffix _ _ _ _ Hself Hv Hsuffix) as (r & Hbody & Hr).
  eexists. exists (MkObject cd {[ "val" := VNumber 7 ]}). split; [|split; [|done]].
  - unfold evaluate, evaluate_list, class_C_program.
    erewrite evaluate_seq_cons by apply eval_PiClassDef.
    erewrite evaluate_seq_cons; [apply evaluate_seq_nil|].
    erewrite eval_PiFunctionCall;
      [|apply eval_PiVariable_local, local_insert_eq;
        rewrite frames_new_frame_length; lia
       |eapply evaluate_each_cons; [apply eval_PiNumber|];
        apply evaluate_each_nil].
    cbv beta iota.
    erewrite call_constructor_init;
      [reflexivity
      |reflexivity
      |apply init_call_env_enough; simpl; lia
      |exact Hbody
      |exact Hr].
  - cbn [objects store_set_attribute store_insert store_new_frame
           store_new_object st2].
    rewrite list_lookup_alter_eq, list_lookup_middle by done.
    done.
Qed.

(** C5: a construction whose [__init__] ends normally or by a [return]
    yields the new instance, a reference that the store did not hold before
    the call, whatever [__init__] returns.  For the class [C] whose
    [__init__(self, v)] assigns [self.val = v], with or without a [return]
    after the assignment, [C(7)] is an instance of [C] whose attributes are
    [val = 7]. *)
Theorem C5_construction :
  (∀ fuel func_val args init_method st st1 call_env st2 r,
     dict_get (class_methods func_val) "__init__" = Some init_method →
     init_call_env init_method (length (objects st)) args
       (store_new_object func_val st) = Some (st1, Normal call_env) →
     evaluate_list (evaluate_stmt host fuel) (fd_body (funcdef init_method))
       call_env st1 = Some (st2, r) →
     (∃ v, r = Normal v) ∨ (∃ v, r = Raise (ReturnException v)) →
     call_constructor (evaluate_stmt host fuel) func_val args st
       = Some (st2, Normal (VObject (length (objects st))))
     ∧ objects st !! length (objects st) = None
     ∧ objects (store_new_object func_val st) !! length (objects st)
       = Some (MkObject func_val ∅))
  ∧ (∀ suffix F st,
       (F < length (frames st))%nat →
       suffix = [] ∨ (∃ n, suffix = [PiReturn (PiNumber n)]) →
       ∃ st' ob,
         evaluate host 3 (class_C_program suffix) F st
         = Some (st', Normal (VObject (length (objects st))))
         ∧ objects st' !! length (objects st) = Some ob
         ∧ class_name (obj_class ob) = "C"
         ∧ attributes ob = {[ "val" := VNumber 7 ]}).
Proof.
  split.
  - intros fuel func_val args init_method st st1 call_env st2 r
      Hinit Henv Hbody Hr.
    split; [by eapply call_constructor_init|]. split.
    + by apply lookup_ge_None.
    + unfold store_new_object. simpl. by apply list_lookup_middle.
  - intros suffix F st HF Hsuffix. by apply class_C_program_run.
Qed.

End Properties.

(** * Evaluations inside evaluations *)

(** ** Lists of expressions and bodies of calls *)

Lemma evaluate_each_app ev pre post env st st1 vs1 :
  evaluate_each ev pre env st = Some (st1, Normal vs1) →
  evaluate_each ev (pre ++ post) env st
  = (do vs2 <- evaluate_each ev post env; ret (vs1 ++ vs2)%list) st1.
Proof.
  revert st vs1. induction pre as [|e pre IH]; intros st vs1 H; simpl in *.
  - unfold ret in H. simplify_eq. unfold bind.
    by destruct (evaluate_each ev post env st1) as [[st2 [vs|e]]|].
  - unfold bind at 1 in H. unfold bind at 1.
    destruct (ev e env st) as [[st2 [v|e']]|]; [|done..].
    unfold bind at 1 in H. unfold bind at 1.
    destruct (evaluate_each ev pre env st2) as [[st3 [vs|e']]|] eqn:Hpre;
      [|done..].
    unfold ret in H. simplify_eq. rewrite (IH _ _ Hpre).
    unfold bind. by destruct (evaluate_each ev post env st1) as [[st4 [vs2|e']]|].
Qed.

Lemma evaluate_each_raise ev pre e post env st st1 vs1 st2 exn :
  evaluate_each ev pre env st = Some (st1, Normal vs1) →
  ev e env st1 = Some (st2, Raise exn) →
  evaluate_each ev (pre ++ e :: post) env st = Some (st2, Raise exn).
Proof.
  intros Hpre He. rewrite (evaluate_each_app _ _ _ _ _ _ _ Hpre).
  erewrite bind_raise; [done|]. simpl. by rewrite (bind_raise _ _ _ _ _ He).
Qed.

Lemma call_body_raise ev body call_env st st1 e :
  evaluate_list ev body call_env st = Some (st1, Raise e) →
  (∀ v, e ≠ ReturnException v) →
  call_body ev body call_env st = Some (st1, Raise e).
Proof.
  intros Hb He. unfold call_body. eapply try_except_passed; [done|].
  destruct e; try done. by edestruct He.
Qed.

(** ** What is evaluated before a part *)

Section Reaching.

Variable ev : PiStatement → frame_ref → M EnvValue.

Lemma block_reaches_raise block env st child st1 st2 e :
  block_reaches ev block env st child st1 →
  ev child env st1 = Some (st2, Raise e) →
  evaluate_list ev block env st = Some (st2, Raise e).
Proof.
  intros Hreach Hchild. destruct Hreach as [pre child post env st st1 v Hpre].
  by eapply evaluate_seq_raise.
Qed.

Lemma each_reaches_raise nodes env st child st1 st2 e :
  each_reaches ev nodes env st child st1 →
  ev child env st1 = Some (st2, Raise e) →
  evaluate_each ev nodes env st = Some (st2, Raise e).
Proof.
  intros Hreach Hchild. destruct Hreach as [pre child post env st st1 v Hpre].
  by eapply evaluate_each_raise.
Qed.

(** The rounds that a loop has gone through leave the rest of the loop to
    run. *)
Lemma while_rounds_loop condition body env n st n' st' :
  while_rounds ev condition body env n st n' st' →
  ∀ last_value, ∃ last_value',
    while_loop ev n condition body env last_value st
    = while_loop ev n' condition body env last_value' st'.
Proof.
  induction 1 as [n st|n st st1 st2 step n' st' Hc Hb Hstep _ IH];
    intros last_value; [by eexists|].
  cbn [while_loop]. rewrite (bind_normal _ _ _ _ _ Hc).
  unfold check_type_VBool. rewrite bind_ret. cbn [negb].
  rewrite (bind_normal _ _ _ _ _ Hb). destruct step; [apply IH|done|apply IH].
Qed.

Lemma for_rounds_loop var body env items st items' st' :
  for_rounds ev var body env items st items' st' →
  ∀ last_value, ∃ last_value',
    for_loop ev var body env items last_value st
    = for_loop ev var body env items' last_value' st'.
Proof.
  induction 1 as [items st|item rest st st2 step items' st' Hb Hstep _ IH];
    intros last_value; [by eexists|].
  rewrite for_loop_cons. rewrite (bind_normal _ _ _ _ _ Hb).
  destruct step; [apply IH|done|apply IH].
Qed.

Lemma for_loop_cons_raise var body env item rest last_value st st1 e :
  evaluate_list ev body env (store_insert env var item st)
    = Some (st1, Raise e) →
  e ≠ BreakException → e ≠ ContinueException →
  for_loop ev var body env (item :: rest) last_value st = Some (st1, Raise e).
Proof.
  intros Hb Hbreak Hcontinue. rewrite for_loop_cons.
  by rewrite (bind_raise _ _ _ _ _
                (loop_body_raise _ _ _ _ _ _ Hb Hbreak Hcontinue)).
Qed.

End Reaching.

Lemma catches_loop e :
  catches InLoop e = false → e ≠ BreakException ∧ e ≠ ContinueException.
Proof. by destruct e. Qed.

Lemma catches_call e : catches InCall e = false → ∀ v, e ≠ ReturnException v.
Proof. by destruct e. Qed.



Lemma outside_calls_return v place :
  outside_calls place = true → catches place (ReturnException v) = false.
Proof. by destruct place. Qed.

(** ** What is evaluated after a part *)

Lemma runs_through_here {A} (m : M A) st :
  runs_through m st (λ st2, ∃ o2, m st = Some (st2, o2)).
Proof. intros st' o H. exists st'. split; [by eexists | apply store_le_refl]. Qed.

Lemma runs_through_bind {A B} (m : M A) (k : A → M B) st Q :
  runs_through m st Q → (∀ a, mono (k a)) → runs_through (bind m k) st Q.
Proof.
  intros Hm Hk st' o H. unfold bind in H.
  destruct (m st) as [[st1 [a|e]]|] eqn:Hmst; [| |done].
  - destruct (Hm _ _ Hmst) as (st2 & HQ & Hle). exists st2.
    split; [done|]. eapply store_le_trans; [done | by eapply Hk].
  - simplify_eq. by eapply Hm.
Qed.

Lemma runs_through_later {A B} (m : M A) (k : A → M B) st st1 a Q :
  m st = Some (st1, Normal a) → runs_through (k a) st1 Q →
  runs_through (bind m k) st Q.
Proof.
  intros Hm Hk st' o H. rewrite (bind_normal _ _ _ _ _ Hm) in H.
  by eapply Hk.
Qed.

Lemma runs_through_try_except {A} (m : M A) h st Q :
  runs_through m st Q → (∀ e k, h e = Some k → mono k) →
  runs_through (try_except m h) st Q.
Proof.
  intros Hm Hh st' o H. unfold try_except in H.
  destruct (m st) as [[st1 [a|e]]|] eqn:Hmst; [| |done].
  - simplify_eq. by eapply Hm.
  - destruct (Hm _ _ Hmst) as (st2 & HQ & Hle).
    destruct (h e) as [k|] eqn:Hhe; simplify_eq; [|by eauto].
    exists st2. split; [done|]. eapply store_le_trans; [done | by eapply Hh].
Qed.

Lemma runs_through_eq {A} (m m' : M A) st st' Q :
  m st = m' st' → runs_through m' st' Q → runs_through m st Q.
Proof. intros Heq Hm st2 o H. rewrite Heq in H. by eapply Hm. Qed.

Create HintDb monotone discriminated.

#[local] Hint Resolve mono_ret mono_raise mono_insert mono_new_frame
  mono_lookup mono_new_object mono_set_attribute mono_read_object
  mono_check_type_VBool mono_check_type_VNumber mono_py_int
  mono_check_valid_piandor mono_pure mono_evaluate_stmt
  mono_evaluate_each mono_evaluate_list mono_loop_body mono_while_loop
  mono_for_loop mono_bind_args mono_bind_self mono_call_body
  mono_call_constructor mono_call_method mono_call_function : monotone.

(** One step of a proof that a continuation removes no binding. *)
Ltac monotone_step :=
  match goal with
  | |- mono (bind _ _) => apply mono_bind; [|intros ?]
  | |- mono (try_except _ _) =>
      apply mono_try_except;
      [|let e := fresh "e" in
        let k := fresh "k" in
        let H := fresh "H" in
        intros e k H; destruct e; simplify_eq]
  | |- mono (match ?x with _ => _ end) => destruct x
  | |- mono _ => solve [auto with monotone]
  end.

Ltac monotone_tac := cbv zeta; repeat monotone_step.

Section Through.

Variable ev : PiStatement → frame_ref → M EnvValue.
Hypothesis ev_mono : ∀ node env, mono (ev node env).

Lemma block_reaches_through block env st child st1 :
  block_reaches ev block env st child st1 →
  runs_through (evaluate_list ev block env) st
    (λ st2, ∃ o2, ev child env st1 = Some (st2, o2)).
Proof.
  intros Hreach. destruct Hreach as [pre child post env st st1 v Hpre].
  eapply runs_through_eq; [by apply evaluate_seq_app|]. cbn [evaluate_seq].
  apply runs_through_bind; [apply runs_through_here|].
  intros a. by apply mono_evaluate_seq.
Qed.

Lemma each_reaches_through nodes env st child st1 :
  each_reaches ev nodes env st child st1 →
  runs_through (evaluate_each ev nodes env) st
    (λ st2, ∃ o2, ev child env st1 = Some (st2, o2)).
Proof.
  intros Hreach. destruct Hreach as [pre child post env st st1 v Hpre].
  eapply runs_through_eq; [by apply evaluate_each_app|]. cbn [evaluate_each].
  apply runs_through_bind; [|intros; apply mono_ret].
  apply runs_through_bind; [apply runs_through_here|].
  intros a. apply mono_bind; [by apply mono_evaluate_each|].
  intros; apply mono_ret.
Qed.

Lemma loop_body_through body env st child st1 :
  block_reaches ev body env st child st1 →
  runs_through (loop_body ev body env) st
    (λ st2, ∃ o2, ev child env st1 = Some (st2, o2)).
Proof.
  intros Hreach. unfold loop_body. apply runs_through_try_except.
  - apply runs_through_bind; [by apply block_reaches_through|].
    intros; apply mono_ret.
  - intros e k H; destruct e; simplify_eq; apply mono_ret.
Qed.

Lemma call_body_through body call_env st child st1 :
  block_reaches ev body call_env st child st1 →
  runs_through (call_body ev body call_env) st
    (λ st2, ∃ o2, ev child call_env st1 = Some (st2, o2)).
Proof.
  intros Hreach. unfold call_body. apply runs_through_try_except.
  - by apply block_reaches_through.
  - intros e k H; destruct e; simplify_eq; apply mono_ret.
Qed.

(** The stores that the rounds of a loop go through lose no binding. *)
Lemma while_rounds_store_le condition body env n st n' st' :
  while_rounds ev condition body env n st n' st' → store_le st st'.
Proof.
  induction 1 as [n st|n st st1 st2 step n' st' Hc Hb Hstep _ IH];
    [apply store_le_refl|].
  eapply store_le_trans; [by eapply ev_mono|].
  eapply store_le_trans; [|exact IH]. by eapply mono_loop_body.
Qed.

Lemma for_rounds_store_le var body env items st items' st' :
  for_rounds ev var body env items st items' st' → store_le st st'.
Proof.
  induction 1 as [items st|item rest st st2 step items' st' Hb Hstep _ IH];
    [apply store_le_refl|].
  eapply store_le_trans; [apply store_le_insert|].
  eapply store_le_trans; [|exact IH]. by eapply mono_loop_body.
Qed.

Lemma block_reaches_store_le block env st child st1 :
  block_reaches ev block env st child st1 → store_le st st1.
Proof.
  intros Hreach. destruct Hreach as [pre child post env st st1 v Hpre].
  by eapply mono_evaluate_list.
Qed.

Lemma each_reaches_store_le nodes env st child st1 :
  each_reaches ev nodes env st child st1 → store_le st st1.
Proof.
  intros Hreach. destruct Hreach as [pre child post env st st1 v Hpre].
  by eapply mono_evaluate_each.
Qed.

End Through.

Section Through_loops.

Variable ev : PiStatement → frame_ref → M EnvValue.
Hypothesis ev_mono : ∀ node env, mono (ev node env).

Lemma while_loop_through_condition condition body env n st n' st1 last_value :
  while_rounds ev condition body env n st (S n') st1 →
  runs_through (while_loop ev n condition body env last_value) st
    (λ st2, ∃ o2, ev condition env st1 = Some (st2, o2)).
Proof.
  intros Hrounds.
  destruct (while_rounds_loop _ _ _ _ _ _ _ _ Hrounds last_value) as [last Heq].
  eapply runs_through_eq; [exact Heq|]. cbn [while_loop].
  apply runs_through_bind; [apply runs_through_here|]. intros cond. monotone_tac.
Qed.

Lemma while_loop_through_body condition body env n st n' st1 st2 child st3
    last_value :
  while_rounds ev condition body env n st (S n') st1 →
  ev condition env st1 = Some (st2, Normal (VBool true)) →
  block_reaches ev body env st2 child st3 →
  runs_through (while_loop ev n condition body env last_value) st
    (λ st4, ∃ o2, ev child env st3 = Some (st4, o2)).
Proof.
  intros Hrounds Hc Hreach.
  destruct (while_rounds_loop _ _ _ _ _ _ _ _ Hrounds last_value) as [last Heq].
  eapply runs_through_eq; [exact Heq|]. cbn [while_loop].
  eapply runs_through_later; [exact Hc|].
  eapply runs_through_later; [reflexivity|]. cbn [negb].
  apply runs_through_bind; [by apply loop_body_through|]. intros step. monotone_tac.
Qed.

Lemma for_loop_through_body var body env items st item rest st1 child st2
    last_value :
  for_rounds ev var body env items st (item :: rest) st1 →
  block_reaches ev body env (store_insert env var item st1) child st2 →
  runs_through (for_loop ev var body env items last_value) st
    (λ st3, ∃ o2, ev child env st2 = Some (st3, o2)).
Proof.
  intros Hrounds Hreach.
  destruct (for_rounds_loop _ _ _ _ _ _ _ _ Hrounds last_value) as [last Heq].
  eapply runs_through_eq; [exact Heq|].
  eapply runs_through_eq; [apply for_loop_cons|].
  apply runs_through_bind; [by apply loop_body_through|]. intros step. monotone_tac.
Qed.

Lemma call_constructor_through func_val args init_method st st1 call_env
    child st2 :
  dict_get (class_methods func_val) "__init__" = Some init_method →
  init_call_env init_method (length (objects st)) args
    (store_new_object func_val st) = Some (st1, Normal call_env) →
  block_reaches ev (fd_body (funcdef init_method)) call_env st1 child st2 →
  runs_through (call_constructor ev func_val args) st
    (λ st3, ∃ o2, ev child call_env st2 = Some (st3, o2)).
Proof.
  intros Hinit Henv Hreach. unfold call_constructor.
  eapply runs_through_later; [reflexivity|]. rewrite Hinit.
  apply runs_through_bind; [|intros; apply mono_ret].
  eapply runs_through_later; [exact Henv|].
  apply runs_through_try_except.
  - apply runs_through_bind; [by apply block_reaches_through|].
    intros; apply mono_ret.
  - intros e k H; destruct e; simplify_eq; apply mono_ret.
Qed.

End Through_loops.

Lemma mono_function_call_env func_val args :
  mono (function_call_env func_val args).
Proof. unfold function_call_env. monotone_tac. Qed.

Lemma mono_method_call_env function instance args :
  mono (method_call_env function instance args).
Proof. unfold method_call_env. monotone_tac. Qed.

Lemma mono_init_call_env init_method instance args :
  mono (init_call_env init_method instance args).
Proof. unfold init_call_env. monotone_tac. Qed.

(** ** From a node to its parts *)

Section Nested.

Context (host : Host).

(** An exception that a part raises, at a place that does not catch it, is
    the exception that the node raises, in the store the part left. *)
Lemma enters_raise fuel node env st place child env1 st1 st' e :
  enters host fuel node env st place child env1 st1 →
  evaluate_stmt host fuel child env1 st1 = Some (st', Raise e) →
  catches place e = false →
  evaluate_stmt host (S fuel) node env st = Some (st', Raise e).
Proof.
  intros Henters Hchild Hcatch.
  destruct Henters
    as [elements env st child st1 Hreach
       |elements env st child st1 Hreach
       |lhs operator rhs env st
       |name value env st
       |object attr value env st
       |object attr value env st st1 o Hobject
       |object attr env st
       |condition then_branch else_branch env st
       |condition then_branch else_branch env st st1 b child st2 Hcond Hreach
       |operand env st
       |lhs rhs env st
       |lhs rhs env st st1 v Hlhs Hkind Htruth
       |lhs rhs env st
       |lhs rhs env st st1 v Hlhs Hkind Htruth
       |condition body env st n st1 Hrounds
       |condition body env st n st1 st2 child st3 Hrounds Hcond Hreach
       |value env st
       |function args env st
       |function args env st st1 func_val child st2 Hfunction Hreach
       |function args env st st1 closure st2 vs st3 call_env child st4
          Hfunction Hargs Hcall Hreach
       |function args env st st1 method instance st2 vs st3 call_env child st4
          Hfunction Hargs Hcall Hreach
       |function args env st st1 class_def st2 vs init_method st3 call_env
          child st4 Hfunction Hargs Hinit Hcall Hreach
       |var iterable body env st
       |var iterable body env st st1 iv items item rest st2 child st3
          Hiterable Hiv Hrounds Hreach
       |element container env st
       |element container env st st1 v Hcontainer
       |collection index env st
       |collection index env st st1 v Hcollection];
    cbn [evaluate_stmt].
  - by rewrite (bind_raise _ _ _ _ _
                  (each_reaches_raise _ _ _ _ _ _ _ _ Hreach Hchild)).
  - by rewrite (bind_raise _ _ _ _ _
                  (each_reaches_raise _ _ _ _ _ _ _ _ Hreach Hchild)).
  - done.
  - by rewrite (bind_raise _ _ _ _ _ Hchild).
  - by rewrite (bind_raise _ _ _ _ _ Hchild).
  - rewrite (bind_normal _ _ _ _ _ Hobject).
    by rewrite (bind_raise _ _ _ _ _ Hchild).
  - by rewrite (bind_raise _ _ _ _ _ Hchild).
  - by rewrite (bind_raise _ _ _ _ _ Hchild).
  - rewrite (bind_normal _ _ _ _ _ Hcond). unfold check_type_VBool.
    rewrite bind_ret. by eapply block_reaches_raise.
  - by rewrite (bind_raise _ _ _ _ _ Hchild).
  - by rewrite (bind_raise _ _ _ _ _ Hchild).
  - rewrite (bind_normal _ _ _ _ _ Hlhs).
    rewrite (bind_normal _ _ _ _ _ (check_valid_piandor_ok host _ _ Hkind)).
    rewrite Htruth. cbn [negb]. by rewrite (bind_raise _ _ _ _ _ Hchild).
  - by rewrite (bind_raise _ _ _ _ _ Hchild).
  - rewrite (bind_normal _ _ _ _ _ Hlhs).
    rewrite (bind_normal _ _ _ _ _ (check_valid_piandor_ok host _ _ Hkind)).
    rewrite Htruth. by rewrite (bind_raise _ _ _ _ _ Hchild).
  - unfold _evaluate_while.
    destruct (while_rounds_loop _ _ _ _ _ _ _ _ Hrounds VNone) as [last ->].
    cbn [while_loop]. by rewrite (bind_raise _ _ _ _ _ Hchild).
  - unfold _evaluate_while.
    destruct (while_rounds_loop _ _ _ _ _ _ _ _ Hrounds VNone) as [last ->].
    destruct (catches_loop _ Hcatch).
    eapply while_loop_true_raise; [done| |done..].
    by eapply block_reaches_raise.
  - by rewrite (bind_raise _ _ _ _ _ Hchild).
  - unfold _evaluate_function_call. by rewrite (bind_raise _ _ _ _ _ Hchild).
  - unfold _evaluate_function_call. rewrite (bind_normal _ _ _ _ _ Hfunction).
    by rewrite (bind_raise _ _ _ _ _
                  (each_reaches_raise _ _ _ _ _ _ _ _ Hreach Hchild)).
  - unfold _evaluate_function_call.
    rewrite (bind_normal _ _ _ _ _ Hfunction), (bind_normal _ _ _ _ _ Hargs).
    erewrite call_function_body by done.
    apply call_body_raise; [by eapply block_reaches_raise|].
    by apply catches_call.
  - unfold _evaluate_function_call.
    rewrite (bind_normal _ _ _ _ _ Hfunction), (bind_normal _ _ _ _ _ Hargs).
    erewrite call_method_body by done.
    apply call_body_raise; [by eapply block_reaches_raise|].
    by apply catches_call.
  - unfold _evaluate_function_call.
    rewrite (bind_normal _ _ _ _ _ Hfunction), (bind_normal _ _ _ _ _ Hargs).
    unfold call_constructor. unfold bind at 1. unfold new_object.
    rewrite Hinit. erewrite bind_raise; [done|].
    rewrite (bind_normal _ _ _ _ _ Hcall).
    eapply try_except_passed.
    + erewrite bind_raise; [done|]. by eapply block_reaches_raise.
    + by destruct e.
  - unfold _evaluate_for. by rewrite (bind_raise _ _ _ _ _ Hchild).
  - unfold _evaluate_for. rewrite (bind_normal _ _ _ _ _ Hiterable).
    assert (Hloop : for_loop (evaluate_stmt host fuel) var body env items
                      VNone st1
                    = Some (st', Raise e)).
    { destruct (for_rounds_loop _ _ _ _ _ _ _ _ Hrounds VNone) as [last ->].
      destruct (catches_loop _ Hcatch).
      apply for_loop_cons_raise; [|done..]. by eapply block_reaches_raise. }
    by destruct Hiv as [-> | ->].
  - unfold _evaluate_in. by rewrite (bind_raise _ _ _ _ _ Hchild).
  - unfold _evaluate_in. rewrite (bind_normal _ _ _ _ _ Hcontainer).
    by rewrite (bind_raise _ _ _ _ _ Hchild).
  - unfold _evaluate_subscript. by rewrite (bind_raise _ _ _ _ _ Hchild).
  - unfold _evaluate_subscript. rewrite (bind_normal _ _ _ _ _ Hcollection).
    by rewrite (bind_raise _ _ _ _ _ Hchild).
Qed.

Lemma inside_raise allowed fuel node env st fuel' node' env' st1 st2 e :
  inside host allowed fuel node env st fuel' node' env' st1 →
  (∀ place, allowed place = true → catches place e = false) →
  evaluate_stmt host fuel' node' env' st1 = Some (st2, Raise e) →
  evaluate_stmt host fuel node env st = Some (st2, Raise e).
Proof.
  intros Hinside Hallowed.
  induction Hinside as [|fuel node env st place child env1 st1 fuel' node' env'
                         st' Henters Hplace _ IH]; [done|].
  intros Hraise. eapply enters_raise; [done|by apply IH|by apply Hallowed].
Qed.

(** A part outside the body of a call is evaluated in the frame of its
    node. *)
Lemma enters_frame fuel node env st place child env1 st1 :
  enters host fuel node env st place child env1 st1 →
  outside_calls place = true → env1 = env.
Proof. by destruct 1. Qed.

Lemma inside_frame fuel node env st fuel' node' env' st' :
  inside host outside_calls fuel node env st fuel' node' env' st' → env' = env.
Proof.
  induction 1 as [|fuel node env st place child env1 st1 fuel' node' env' st'
                   Henters Hplace _ IH]; [done|].
  by rewrite IH, (enters_frame _ _ _ _ _ _ _ _ Henters Hplace).
Qed.

(** What a node evaluates before one of its parts removes no binding. *)
Lemma enters_store_le fuel node env st place child env1 st1 :
  enters host fuel node env st place child env1 st1 → store_le st st1.
Proof.
  pose proof (mono_evaluate_stmt host fuel) as Hev.
  destruct 1;
    repeat match goal with
    | |- store_le ?s ?s => apply store_le_refl
    | H : evaluate_stmt _ _ _ _ ?s = Some (_, _) |- store_le ?s _ =>
        eapply store_le_trans; [by eapply Hev|]; clear H
    | H : evaluate_each _ _ _ ?s = Some (_, _) |- store_le ?s _ =>
        eapply store_le_trans; [by eapply (mono_evaluate_each _ Hev)|]; clear H
    | H : each_reaches _ _ _ ?s _ _ |- store_le ?s _ =>
        eapply store_le_trans; [by eapply each_reaches_store_le|]; clear H
    | H : block_reaches _ _ _ ?s _ _ |- store_le ?s _ =>
        eapply store_le_trans; [by eapply block_reaches_store_le|]; clear H
    | H : function_call_env _ _ ?s = Some (_, _) |- store_le ?s _ =>
        eapply store_le_trans; [by eapply mono_function_call_env|]; clear H
    | H : method_call_env _ _ _ ?s = Some (_, _) |- store_le ?s _ =>
        eapply store_le_trans; [by eapply mono_method_call_env|]; clear H
    | H : init_call_env _ _ _ (store_new_object ?c ?s) = Some (_, _)
      |- store_le ?s _ =>
        eapply store_le_trans;
        [by eapply (mono_new_object c s _ (Normal (length (objects s))))|];
        eapply store_le_trans; [by eapply mono_init_call_env|]; clear H
    | H : block_reaches _ _ _ (store_insert _ _ _ ?s) _ _ |- store_le ?s _ =>
        eapply store_le_trans; [apply store_le_insert|];
        eapply store_le_trans; [by eapply block_reaches_store_le|]; clear H
    | H : while_rounds _ _ _ _ _ ?s _ _ |- store_le ?s _ =>
        eapply store_le_trans; [by eapply while_rounds_store_le|]; clear H
    | H : for_rounds _ _ _ _ _ ?s _ _ |- store_le ?s _ =>
        eapply store_le_trans; [by eapply for_rounds_store_le|]; clear H
    end.
Qed.

(** A node that ends has evaluated its part to the end, and keeps every
    binding that the part left. *)
Lemma enters_through fuel node env st place child env1 st1 :
  enters host fuel node env st place child env1 st1 →
  runs_through (evaluate_stmt host (S fuel) node env) st
    (λ st2, ∃ o2, evaluate_stmt host fuel child env1 st1 = Some (st2, o2)).
Proof.
  pose proof (mono_evaluate_stmt host fuel) as Hev.
  intros Henters.
  destruct Henters
    as [elements env st child st1 Hreach
       |elements env st child st1 Hreach
       |lhs operator rhs env st
       |name value env st
       |object attr value env st
       |object attr value env st st1 o Hobject
       |object attr env st
       |condition then_branch else_branch env st
       |condition then_branch else_branch env st st1 b child st2 Hcond Hreach
       |operand env st
       |lhs rhs env st
       |lhs rhs env st st1 v Hlhs Hkind Htruth
       |lhs rhs env st
       |lhs rhs env st st1 v Hlhs Hkind Htruth
       |condition body env st n st1 Hrounds
       |condition body env st n st1 st2 child st3 Hrounds Hcond Hreach
       |value env st
       |function args env st
       |function args env st st1 func_val child st2 Hfunction Hreach
       |function args env st st1 closure st2 vs st3 call_env child st4
          Hfunction Hargs Hcall Hreach
       |function args env st st1 method instance st2 vs st3 call_env child st4
          Hfunction Hargs Hcall Hreach
       |function args env st st1 class_def st2 vs init_method st3 call_env
          child st4 Hfunction Hargs Hinit Hcall Hreach
       |var iterable body env st
       |var iterable body env st st1 iv items item rest st2 child st3
          Hiterable Hiv Hrounds Hreach
       |element container env st
       |element container env st st1 v Hcontainer
       |collection index env st
       |collection index env st st1 v Hcollection];
    cbn [evaluate_stmt].
  - apply runs_through_bind; [by apply each_reaches_through|intros; monotone_tac].
  - apply runs_through_bind; [by apply each_reaches_through|intros; monotone_tac].
  - apply runs_through_here.
  - apply runs_through_bind; [apply runs_through_here|intros; monotone_tac].
  - apply runs_through_bind; [apply runs_through_here|intros; monotone_tac].
  - eapply runs_through_later; [exact Hobject|]. cbv iota.
    apply runs_through_bind; [apply runs_through_here|intros; monotone_tac].
  - apply runs_through_bind; [apply runs_through_here|intros; monotone_tac].
  - apply runs_through_bind; [apply runs_through_here|intros; monotone_tac].
  - eapply runs_through_later; [exact Hcond|].
    eapply runs_through_later; [reflexivity|]. cbv zeta.
    by apply block_reaches_through.
  - apply runs_through_bind; [apply runs_through_here|intros; monotone_tac].
  - apply runs_through_bind; [apply runs_through_here|intros; monotone_tac].
  - eapply runs_through_later; [exact Hlhs|].
    eapply runs_through_later; [by apply check_valid_piandor_ok|].
    rewrite Htruth. cbn [negb].
    apply runs_through_bind; [apply runs_through_here|intros; monotone_tac].
  - apply runs_through_bind; [apply runs_through_here|intros; monotone_tac].
  - eapply runs_through_later; [exact Hlhs|].
    eapply runs_through_later; [by apply check_valid_piandor_ok|].
    rewrite Htruth.
    apply runs_through_bind; [apply runs_through_here|intros; monotone_tac].
  - unfold _evaluate_while. by eapply while_loop_through_condition.
  - unfold _evaluate_while. by eapply while_loop_through_body.
  - apply runs_through_bind; [apply runs_through_here|intros; monotone_tac].
  - unfold _evaluate_function_call.
    apply runs_through_bind; [apply runs_through_here|intros; monotone_tac].
  - unfold _evaluate_function_call.
    eapply runs_through_later; [exact Hfunction|].
    apply runs_through_bind; [by apply each_reaches_through|intros; monotone_tac].
  - unfold _evaluate_function_call.
    eapply runs_through_later; [exact Hfunction|].
    eapply runs_through_later; [exact Hargs|]. cbv iota.
    unfold call_function. eapply runs_through_later; [exact Hcall|].
    by apply call_body_through.
  - unfold _evaluate_function_call.
    eapply runs_through_later; [exact Hfunction|].
    eapply runs_through_later; [exact Hargs|]. cbv iota.
    unfold call_method. eapply runs_through_later; [exact Hcall|].
    by apply call_body_through.
  - unfold _evaluate_function_call.
    eapply runs_through_later; [exact Hfunction|].
    eapply runs_through_later; [exact Hargs|]. cbv iota.
    by eapply call_constructor_through.
  - unfold _evaluate_for.
    apply runs_through_bind; [apply runs_through_here|intros; monotone_tac].
  - unfold _evaluate_for. eapply runs_through_later; [exact Hiterable|].
    destruct Hiv as [-> | ->]; by eapply for_loop_through_body.
  - unfold _evaluate_in.
    apply runs_through_bind; [apply runs_through_here|].
    intros; monotone_tac; apply (mono_pure (λ st, Normal _)).
  - unfold _evaluate_in. eapply runs_through_later; [exact Hcontainer|].
    apply runs_through_bind; [apply runs_through_here|].
    intros; monotone_tac; apply (mono_pure (λ st, Normal _)).
  - unfold _evaluate_subscript.
    apply runs_through_bind; [apply runs_through_here|intros; monotone_tac].
  - unfold _evaluate_subscript. eapply runs_through_later; [exact Hcollection|].
    apply runs_through_bind; [apply runs_through_here|intros; monotone_tac].
Qed.

(** The same through parts of parts. *)
Lemma inside_through allowed fuel node env st fuel' node' env' st1 :
  inside host allowed fuel node env st fuel' node' env' st1 →
  runs_through (evaluate_stmt host fuel node env) st
    (λ st2, ∃ o2, evaluate_stmt host fuel' node' env' st1 = Some (st2, o2)).
Proof.
  induction 1 as [|fuel node env st place child env1 st1 fuel' node' env' st'
                   Henters Hplace _ IH]; [apply runs_through_here|].
  intros st2 o Hnode.
  destruct (enters_through _ _ _ _ _ _ _ _ Henters _ _ Hnode)
    as (st3 & [o3 Hchild] & Hle).
  destruct (IH _ _ Hchild) as (st4 & Hpart & Hle').
  exists st4. split; [done|]. by eapply store_le_trans.
Qed.

Lemma inside_store_le allowed fuel node env st fuel' node' env' st1 :
  inside host allowed fuel node env st fuel' node' env' st1 → store_le st st1.
Proof.
  induction 1 as [|fuel node env st place child env1 st1 fuel' node' env' st'
                   Henters Hplace _ IH]; [apply store_le_refl|].
  eapply store_le_trans; [by eapply enters_store_le | exact IH].
Qed.

(** A [return] that is evaluated inside a node, outside any call that the
    node makes, ends the node with the signal, in the store of the
    [return]. *)
Lemma inside_return fuel node env st fuel' value env' st1 st2 v :
  inside host outside_calls fuel node env st (S fuel') (PiReturn value) env' st1 →
  evaluate_stmt host fuel' value env' st1 = Some (st2, Normal v) →
  evaluate_stmt host fuel node env st = Some (st2, Raise (ReturnException v)).
Proof.
  intros Hinside Hvalue. eapply inside_raise; [done| |by apply eval_PiReturn].
  apply outside_calls_return.
Qed.

(** ** Signals outside their construct *)


(** ** Return from any depth *)

(** C3: in the call of a function or of a method, a [return] that is
    evaluated anywhere in the body, through any nesting of conditionals,
    [while] and [for] loops and other parts outside a further call, ends the
    call with the value of its expression, in the store that the expression
    left: nothing of the body is evaluated after it; the [return] is
    evaluated in the frame of the call.  A body that ends without a [return]
    gives the value of its last statement, and an empty body gives None.  In
    the example the call [f()] is [1] and neither [x = 2] nor [x = 3] is
    evaluated. *)
Theorem C3_return_unwinding :
  (∀ fuel function args env st st1 func_val st2 vs body call_env st3,
     evaluate_stmt host fuel function env st = Some (st1, Normal func_val) →
     evaluate_each (evaluate_stmt host fuel) args env st1
       = Some (st2, Normal vs) →
     (∃ closure,
        func_val = VFunctionClosure closure
        ∧ body = fd_body (funcdef closure)
        ∧ function_call_env closure vs st2 = Some (st3, Normal call_env))
     ∨ (∃ method instance,
          func_val = VMethodClosure method instance
          ∧ body = fd_body (funcdef method)
          ∧ method_call_env method instance vs st2
            = Some (st3, Normal call_env)) →
     let call :=
       evaluate_stmt host (S fuel) (PiFunctionCall function args) env st in
     (∀ stmt st4 fuel' value env' st5 st6 v,
        block_reaches (evaluate_stmt host fuel) body call_env st3 stmt st4 →
        inside host outside_calls fuel stmt call_env st4
          (S fuel') (PiReturn value) env' st5 →
        evaluate_stmt host fuel' value env' st5 = Some (st6, Normal v) →
        env' = call_env ∧ call = Some (st6, Normal v))
     ∧ (∀ pre last st4 v0 st5 v,
          body = (pre ++ [last])%list →
          evaluate_list (evaluate_stmt host fuel) pre call_env st3
            = Some (st4, Normal v0) →
          evaluate_stmt host fuel last call_env st4 = Some (st5, Normal v) →
          call = Some (st5, Normal v))
     ∧ (body = [] → call = Some (st3, Normal VNone)))
  ∧ (∀ F st,
       (F < length (frames st))%nat →
       ∃ st',
         evaluate host 5 return_example F st = Some (st', Normal (VNumber 1))
         ∧ local_binding st' (length (frames st)) "x" = None
         ∧ length (frames st') = S (length (frames st))).
Proof.
  split.
  - intros fuel function args env st st1 func_val st2 vs body call_env st3
      Hfunction Hargs Hcallee call.
    assert (Hcall : call
                    = call_body (evaluate_stmt host fuel) body call_env st3).
    { subst call. rewrite (eval_PiFunctionCall _ _ _ _ _ _ _ _ _ _ Hfunction Hargs).
      destruct Hcallee as [(closure & -> & -> & Henv)
                          |(method & instance & -> & -> & Henv)].
      - by apply call_function_body.
      - by apply call_method_body. }
    rewrite Hcall. clear Hcall call Hcallee. split; [|split].
    + intros stmt st4 fuel' value env' st5 st6 v Hreach Hinside Hvalue.
      split; [by eapply inside_frame|].
      apply call_body_return. eapply block_reaches_raise; [done|].
      by eapply inside_return.
    + intros pre last st4 v0 st5 v -> Hpre Hlast.
      apply call_body_value. by eapply evaluate_seq_last.
    + by intros ->.
  - intros F st HF. eexists. split; [by apply return_example_run|]. split.
    + rewrite <- (frames_insert_length st F "f"
                   (VFunctionClosure (MkClosure return_example_def F))).
      apply local_new_frame_new.
    + by rewrite frames_new_frame_length, frames_insert_length.
Qed.

End Nested.

(** ** The frames of a loop *)

Section Frames.

Context (host : Host).

Lemma adds_no_frame_ret {A} (a : A) : adds_no_frame (ret a).
Proof. intros st st' r H. unfold ret in H. by simplify_eq. Qed.

Lemma adds_no_frame_raise {A} e : adds_no_frame (@raise A e).
Proof. intros st st' r H. unfold raise in H. by simplify_eq. Qed.

Lemma adds_no_frame_pure {A} (f : Store → Outcome A) :
  adds_no_frame (λ st, Some (st, f st)).
Proof. intros st st' r H. by simplify_eq. Qed.

Lemma adds_no_frame_bind {A B} (m : M A) (k : A → M B) :
  adds_no_frame m → (∀ a, adds_no_frame (k a)) → adds_no_frame (bind m k).
Proof.
  intros Hm Hk st st' r H. unfold bind in H.
  destruct (m st) as [[st1 [a|e]]|] eqn:Hmst; simplify_eq.
  - rewrite <- (Hm _ _ _ Hmst). by eapply Hk.
  - by eapply Hm.
Qed.

Lemma adds_no_frame_try_except {A} (m : M A) h :
  adds_no_frame m → (∀ e k, h e = Some k → adds_no_frame k) →
  adds_no_frame (try_except m h).
Proof.
  intros Hm Hh st st' r H. unfold try_except in H.
  destruct (m st) as [[st1 [a|e]]|] eqn:Hmst; simplify_eq.
  - by eapply Hm.
  - rewrite <- (Hm _ _ _ Hmst).
    destruct (h e) as [k|] eqn:Hhe; simplify_eq; [by eapply Hh | done].
Qed.

Lemma adds_no_frame_insert env name v :
  adds_no_frame (EnvFrame_insert env name v).
Proof.
  intros st st' r H. unfold EnvFrame_insert in H. simplify_eq.
  apply frames_insert_length.
Qed.

Lemma adds_no_frame_set_attribute o attr v :
  adds_no_frame (set_attribute o attr v).
Proof. intros st st' r H. unfold set_attribute in H. by simplify_eq. Qed.

Lemma adds_no_frame_lookup env name : adds_no_frame (EnvFrame_lookup env name).
Proof.
  intros st st' r H. unfold EnvFrame_lookup in H.
  destruct (lookup_chain _ _ _ _); unfold ret, raise in H; by simplify_eq.
Qed.

Lemma adds_no_frame_read_object o : adds_no_frame (read_object o).
Proof.
  intros st st' r H. unfold read_object in H.
  destruct (objects st !! o); unfold ret, raise in H; by simplify_eq.
Qed.

Lemma adds_no_frame_check_type_VBool v : adds_no_frame (check_type_VBool v).
Proof. destruct v; first [apply adds_no_frame_ret | apply adds_no_frame_raise]. Qed.

Lemma adds_no_frame_check_type_VNumber v :
  adds_no_frame (check_type_VNumber v).
Proof. destruct v; first [apply adds_no_frame_ret | apply adds_no_frame_raise]. Qed.

Lemma adds_no_frame_py_int x : adds_no_frame (py_int x).
Proof.
  unfold py_int. destruct (number_to_int x);
    first [apply adds_no_frame_ret | apply adds_no_frame_raise].
Qed.

Lemma adds_no_frame_check_valid_piandor v :
  adds_no_frame (_check_valid_piandor_type host v).
Proof. destruct v; first [apply adds_no_frame_ret | apply adds_no_frame_raise]. Qed.

Create HintDb frames discriminated.

#[local] Hint Resolve adds_no_frame_ret adds_no_frame_raise adds_no_frame_pure
  adds_no_frame_insert adds_no_frame_set_attribute adds_no_frame_lookup
  adds_no_frame_read_object adds_no_frame_check_type_VBool
  adds_no_frame_check_type_VNumber adds_no_frame_py_int
  adds_no_frame_check_valid_piandor : frames.

Ltac frames_step :=
  match goal with
  | |- adds_no_frame (bind _ _) => apply adds_no_frame_bind; [|intros ?]
  | |- adds_no_frame (try_except _ _) =>
      apply adds_no_frame_try_except;
      [|let e := fresh "e" in
        let k := fresh "k" in
        let H := fresh "H" in
        intros e k H; destruct e; simplify_eq]
  | |- adds_no_frame (match ?x with _ => _ end) => destruct x
  | |- adds_no_frame (evaluate_list _ (if ?b then _ else _) _) => destruct b
  | |- adds_no_frame _ => solve [eauto with frames]
  end.

Ltac frames_tac := repeat (cbv beta zeta; frames_step).

Section Frames_nodes.

Variable ev : PiStatement → frame_ref → M EnvValue.

Lemma adds_no_frame_evaluate_each nodes env :
  (∀ node, In node nodes → adds_no_frame (ev node env)) →
  adds_no_frame (evaluate_each ev nodes env).
Proof.
  induction nodes as [|e nodes IH]; intros Hnodes; simpl; [frames_tac|].
  apply adds_no_frame_bind; [apply Hnodes; by left|]. intros v.
  apply adds_no_frame_bind; [|intros; apply adds_no_frame_ret].
  apply IH. intros node Hin. apply Hnodes. by right.
Qed.

Lemma adds_no_frame_evaluate_seq stmts env last_value :
  (∀ node, In node stmts → adds_no_frame (ev node env)) →
  adds_no_frame (evaluate_seq ev stmts env last_value).
Proof.
  revert last_value. induction stmts as [|s stmts IH];
    intros last_value Hnodes; simpl; [frames_tac|].
  apply adds_no_frame_bind; [apply Hnodes; by left|]. intros v.
  apply IH. intros node Hin. apply Hnodes. by right.
Qed.

Lemma adds_no_frame_evaluate_list node env :
  (∀ stmt, In stmt node → adds_no_frame (ev stmt env)) →
  adds_no_frame (evaluate_list ev node env).
Proof. apply adds_no_frame_evaluate_seq. Qed.

Lemma adds_no_frame_loop_body body env :
  (∀ node, In node body → adds_no_frame (ev node env)) →
  adds_no_frame (loop_body ev body env).
Proof.
  intros Hbody. unfold loop_body.
  pose proof (adds_no_frame_evaluate_list body env Hbody). frames_tac.
Qed.

Lemma adds_no_frame_while_loop n condition body env last_value :
  adds_no_frame (ev condition env) →
  (∀ node, In node body → adds_no_frame (ev node env)) →
  adds_no_frame (while_loop ev n condition body env last_value).
Proof.
  intros Hc Hbody. pose proof (adds_no_frame_loop_body body env Hbody).
  revert last_value. induction n; intros; simpl; [by intros ???|].
  frames_tac.
Qed.

(** The loop writes its variable into the frame it runs in and evaluates
    its body there: it adds no frame to those that its parts add. *)
Lemma adds_no_frame_for_loop var body env items last_value :
  (∀ node, In node body → adds_no_frame (ev node env)) →
  adds_no_frame (for_loop ev var body env items last_value).
Proof.
  intros Hbody. pose proof (adds_no_frame_loop_body body env Hbody).
  revert last_value. induction items; intros; simpl; frames_tac.
Qed.

Lemma adds_no_frame_evaluate_for var iterable body env :
  adds_no_frame (ev iterable env) →
  (∀ node, In node body → adds_no_frame (ev node env)) →
  adds_no_frame (_evaluate_for ev var iterable body env).
Proof.
  intros Hi Hbody. unfold _evaluate_for.
  pose proof (adds_no_frame_for_loop var body env) as Hloop.
  apply adds_no_frame_bind; [done|]. intros iv.
  destruct iv; first [by apply Hloop | apply adds_no_frame_raise].
Qed.

Lemma adds_no_frame_evaluate_subscript collection index env :
  adds_no_frame (ev collection env) → adds_no_frame (ev index env) →
  adds_no_frame (_evaluate_subscript ev collection index env).
Proof. intros Hc Hi. unfold _evaluate_subscript. frames_tac. Qed.

Lemma adds_no_frame_evaluate_in element container env :
  adds_no_frame (ev element env) → adds_no_frame (ev container env) →
  adds_no_frame (_evaluate_in host ev element container env).
Proof.
  intros He Hc. unfold _evaluate_in.
  frames_tac; apply (adds_no_frame_pure (λ st, Normal _)).
Qed.

End Frames_nodes.

#[local] Hint Resolve adds_no_frame_evaluate_each adds_no_frame_evaluate_list
  adds_no_frame_while_loop adds_no_frame_evaluate_for
  adds_no_frame_evaluate_subscript adds_no_frame_evaluate_in : frames.

Lemma adds_no_frame_evaluate_stmt fuel :
  ∀ node env,
    makes_no_frame node = true →
    adds_no_frame (evaluate_stmt host fuel node env).
Proof.
  induction fuel as [|fuel IH]; intros node env Hnode; [by intros ???|].
  assert (Hall : ∀ nodes env',
            forallb makes_no_frame nodes = true →
            ∀ node, In node nodes →
                    adds_no_frame (evaluate_stmt host fuel node env')).
  { intros nodes env' Hnodes node' Hin. apply IH.
    by apply (proj1 (forallb_forall _ _) Hnodes). }
  destruct node; simpl in Hnode; try discriminate;
    repeat match goal with
           | H : _ && _ = true |- _ => apply andb_true_iff in H as [? ?]
           end;
    repeat match goal with
           | H : makes_no_frame _ = true |- _ => apply (IH _ env) in H
           | H : forallb makes_no_frame _ = true |- _ =>
               apply (Hall _ env) in H
           end;
    cbn [evaluate_stmt]; unfold lookup, insert, _evaluate_while;
    frames_tac.
Qed.

(** C2, as amended: a for-loop over a List or a Tuple, evaluated in the
    frame [F], writes its variable into [F] and evaluates its body in [F]
    itself.  When a loop over at least one item ends, its variable is bound
    in [F].  An assignment that is evaluated inside the loop, through any
    nesting of parts outside a call, is evaluated in [F]; when it ends
    normally it binds its name in [F], and the name is still bound in [F]
    when the loop ends.  The loop makes no frame: it adds none to those that
    the evaluation of its parts adds, and a loop whose parts contain no
    call, operator or class definition leaves as many frames as it found.
    After [for x in [1,2,3]: y = x] in [F], [lookup(F, "x")] and
    [lookup(F, "y")] are [3], and the store has the frames it had before. *)
Theorem C2_for_loop_scope :
  (∀ fuel var iterable body F st st1 iv items st' r,
     (F < length (frames st))%nat →
     evaluate_stmt host fuel iterable F st = Some (st1, Normal iv) →
     iv = VList items ∨ iv = VTuple items →
     evaluate_stmt host (S fuel) (PiFor var iterable body) F st = Some (st', r) →
     (items ≠ [] → is_Some (local_binding st' F var))
     ∧ (∀ fuel' name value F' st2,
          inside host outside_calls (S fuel) (PiFor var iterable body) F st
            (S fuel') (PiAssignment name value) F' st2 →
          F' = F
          ∧ ∃ st3 o,
              evaluate_stmt host (S fuel') (PiAssignment name value) F st2
              = Some (st3, o)
              ∧ store_le st3 st'
              ∧ ∀ v, o = Normal v →
                     local_binding st3 F name = Some v
                     ∧ is_Some (local_binding st' F name))
     ∧ store_le st st')
  ∧ (∀ ev var iterable body F,
       adds_no_frame (ev iterable F) →
       (∀ stmt, In stmt body → adds_no_frame (ev stmt F)) →
       adds_no_frame (_evaluate_for ev var iterable body F))
  ∧ (∀ fuel var iterable body F,
       makes_no_frame (PiFor var iterable body) = true →
       adds_no_frame (evaluate_stmt host fuel (PiFor var iterable body) F))
  ∧ (∀ F st,
       (F < length (frames st))%nat →
       ∃ st',
         evaluate_stmt host 3 for_leak_program F st
           = Some (st', Normal (VNumber 3))
         ∧ lookup F "x" st' = Some (st', Normal (VNumber 3))
         ∧ lookup F "y" st' = Some (st', Normal (VNumber 3))
         ∧ length (frames st') = length (frames st)).
Proof.
  split; [|split; [|split]].
  - intros fuel var iterable body F st st1 iv items st' r HF Hit Hiv Hfor.
    split; [|split].
    + erewrite eval_PiFor in Hfor by done.
      intros Hitems. destruct items as [|item rest]; [done|].
      assert (Hlt : (F < length (frames st1))%nat).
      { eapply Nat.lt_le_trans; [done|]. by eapply mono_evaluate_stmt. }
      by destruct (for_loop_binds _ (mono_evaluate_stmt host fuel)
                     _ _ _ _ _ _ _ _ _ Hlt Hfor).
    + intros fuel' name value F' st2 Hinside.
      pose proof (inside_frame _ _ _ _ _ _ _ _ _ Hinside) as ->.
      split; [done|].
      destruct (inside_through _ _ _ _ _ _ _ _ _ _ Hinside _ _ Hfor)
        as (st3 & [o Hassign] & Hle).
      exists st3, o. split; [done|]. split; [done|]. intros v ->.
      assert (Hbound : local_binding st3 F name = Some v).
      { cbn [evaluate_stmt] in Hassign. unfold bind in Hassign.
        destruct (evaluate_stmt host fuel' value F st2)
          as [[st4 [v1|e]]|] eqn:Hv; [|done..].
        unfold insert, EnvFrame_insert, ret in Hassign. simplify_eq.
        apply local_insert_eq.
        eapply Nat.lt_le_trans; [exact HF|].
        eapply Nat.le_trans; [by eapply inside_store_le|].
        by eapply mono_evaluate_stmt. }
      split; [done|]. apply Hle. by eexists.
    + by eapply mono_evaluate_stmt.
  - intros ev var iterable body F. apply adds_no_frame_evaluate_for.
  - intros fuel var iterable body F. apply adds_no_frame_evaluate_stmt.
  - intros F st HF. eexists. split; [by apply for_leak_program_run|].
    split; [|split].
    + apply lookup_local. rewrite local_insert_ne by by right.
      apply local_insert_eq. by rewrite !frames_insert_length.
    + apply lookup_local.
      apply local_insert_eq. by rewrite !frames_insert_length.
    + by rewrite !frames_insert_length.
Qed.

End Frames.

(** * The theorems at concrete inputs *)

Lemma C1_witness :
  (0 < length (frames st0))%nat
  ∧ ∃ st',
      evaluate arith_host 3 extra_arguments_program 0%nat st0
      = Some (st', Normal (VObject 0%nat)).
Proof.
  assert (H : (0 < length (frames st0))%nat) by (simpl; lia).
  split; [exact H|].
  exact (C1_constructor_extra_arguments arith_host 0%nat st0 H).
Defined.

Lemma C2_witness :
  (0 < length (frames st0))%nat
  ∧ evaluate_stmt arith_host 2
      (PiList [PiNumber 1; PiNumber 2; PiNumber 3]) 0%nat st0
    = Some (st0, Normal (VList [VNumber 1; VNumber 2; VNumber 3]))
  ∧ inside arith_host outside_calls 3 for_leak_program 0%nat st0
      2 (PiAssignment "y" (PiVariable "x")) 0%nat
      (store_insert 0%nat "x" (VNumber 1) st0)
  ∧ ∃ st',
      evaluate_stmt arith_host 3 for_leak_program 0%nat st0
      = Some (st', Normal (VNumber 3))
      ∧ is_Some (local_binding st' 0%nat "x")
      ∧ is_Some (local_binding st' 0%nat "y")
      ∧ store_le st0 st'.
Proof.
  assert (H : (0 < length (frames st0))%nat) by (simpl; lia).
  assert (Hlist : evaluate_stmt arith_host 2
                    (PiList [PiNumber 1; PiNumber 2; PiNumber 3]) 0%nat st0
                  = Some (st0, Normal (VList [VNumber 1; VNumber 2; VNumber 3])))
    by reflexivity.
  assert (Hinside : inside arith_host outside_calls 3 for_leak_program 0%nat st0
                      2 (PiAssignment "y" (PiVariable "x")) 0%nat
                      (store_insert 0%nat "x" (VNumber 1) st0)).
  { eapply inside_part;
      [eapply enters_for_body;
         [exact Hlist|by left|apply for_rounds_none|
          exact (block_reaches_intro _ [] _ [] _ _ _ VNone eq_refl)]
      |reflexivity|apply inside_here]. }
  split; [exact H|]. split; [exact Hlist|]. split; [exact Hinside|].
  destruct (C2_for_loop_scope arith_host) as (Hloop & _ & _ & Hexample).
  destruct (Hexample 0%nat st0 H) as (st' & Hrun & _).
  exists st'. split; [exact Hrun|].
  destruct (Hloop 2%nat "x" _ _ 0%nat st0 st0 _ _ st' _ H Hlist
              (or_introl eq_refl) Hrun) as (Hvar & Hbody & Hle).
  split; [apply Hvar; discriminate|]. split; [|exact Hle].
  destruct (Hbody 1%nat "y" (PiVariable "x") 0%nat _ Hinside)
    as (_ & st3 & o & Hassign & _ & Hbound).
  vm_compute in Hassign. injection Hassign as _ <-.
  exact (proj2 (Hbound _ eq_refl)).
Defined.

(** The claim C2 as it was written fails on a loop over no item: after
    [for x in []: y = x] in a frame that binds neither [x] nor [y], the loop
    variable is not bound, and a lookup of it is a name error. *)
Lemma C2_counterexample :
  evaluate_stmt arith_host 3 empty_loop_program 0%nat st0
  = Some (st0, Normal VNone)
  ∧ local_binding st0 0%nat "x" = None
  ∧ lookup 0%nat "x" st0 = Some (st0, Raise (NameError "x")).
Proof. repeat split; vm_compute; reflexivity. Qed.

Lemma C3_witness :
  evaluate_stmt arith_host 3 (PiVariable "f") 0%nat return_in_for_store
  = Some (return_in_for_store,
          Normal (VFunctionClosure (MkClosure return_in_for_def 0%nat)))
  ∧ function_call_env (MkClosure return_in_for_def 0%nat) []
      return_in_for_store
    = Some (return_in_for_frame, Normal 1%nat)
  ∧ inside arith_host outside_calls 3
      (PiFor "x" (PiList [PiNumber 1; PiNumber 2]) [PiReturn (PiVariable "x")])
      1%nat return_in_for_frame
      2 (PiReturn (PiVariable "x")) 1%nat
      (store_insert 1%nat "x" (VNumber 1) return_in_for_frame)
  ∧ evaluate_stmt arith_host 4 (PiFunctionCall (PiVariable "f") []) 0%nat
      return_in_for_store
    = Some (store_insert 1%nat "x" (VNumber 1) return_in_for_frame,
            Normal (VNumber 1)).
Proof.
  assert (Hf : evaluate_stmt arith_host 3 (PiVariable "f") 0%nat
                 return_in_for_store
               = Some (return_in_for_store,
                       Normal (VFunctionClosure
                                 (MkClosure return_in_for_def 0%nat))))
    by (vm_compute; reflexivity).
  assert (Hargs : evaluate_each (evaluate_stmt arith_host 3) [] 0%nat
                    return_in_for_store
                  = Some (return_in_for_store, Normal [])) by reflexivity.
  assert (Henv : function_call_env (MkClosure return_in_for_def 0%nat) []
                   return_in_for_store
                 = Some (return_in_for_frame, Normal 1%nat)) by reflexivity.
  assert (Hinside : inside arith_host outside_calls 3
            (PiFor "x" (PiList [PiNumber 1; PiNumber 2])
                       [PiReturn (PiVariable "x")])
            1%nat return_in_for_frame
            2 (PiReturn (PiVariable "x")) 1%nat
            (store_insert 1%nat "x" (VNumber 1) return_in_for_frame)).
  { eapply inside_part;
      [eapply enters_for_body;
         [reflexivity|by left|apply for_rounds_none
         |exact (block_reaches_intro _ [] _ [] _ _ _ VNone eq_refl)]
      |reflexivity|apply inside_here]. }
  split; [exact Hf|]. split; [exact Henv|]. split; [exact Hinside|].
  refine (proj2 (proj1 (proj1 (C3_return_unwinding arith_host) 3%nat _ _ _ _ _ _
                   _ _ _ _ _ Hf Hargs
                   (or_introl (ex_intro _ _ (conj eq_refl (conj eq_refl Henv)))))
            _ _ 1%nat _ _ _ _ _
            (block_reaches_intro _ [] _ [PiNumber 99] _ _ _ VNone eq_refl)
            Hinside _)).
  vm_compute. reflexivity.
Defined.

Lemma C4_witness :
  evaluate_stmt arith_host 1 (PiBool false) 0%nat st0
  = Some (st0, Normal (VBool false))
  ∧ evaluate_stmt arith_host 2 (PiAnd (PiBool false) (PiVariable "undefined"))
      0%nat st0
    = Some (st0, Normal (VBool false)).
Proof.
  assert (H : evaluate_stmt arith_host 1 (PiBool false) 0%nat st0
              = Some (st0, Normal (VBool false))) by reflexivity.
  split; [exact H|].
  exact (proj1 (C4_and_or_short_circuit arith_host 1 (PiBool false) 0%nat
                  st0 st0 (VBool false) H)
           eq_refl eq_refl (PiVariable "undefined")).
Defined.

Lemma C5_witness :
  (0 < length (frames st0))%nat
  ∧ ∃ st' ob,
      evaluate arith_host 3 (class_C_program [PiReturn (PiNumber 99)]) 0%nat st0
      = Some (st', Normal (VObject (length (objects st0))))
      ∧ objects st' !! length (objects st0) = Some ob
      ∧ class_name (obj_class ob) = "C"
      ∧ attributes ob = {[ "val" := VNumber 7 ]}.
Proof.
  assert (H : (0 < length (frames st0))%nat) by (simpl; lia).
  split; [exact H|].
  exact (proj2 (C5_construction arith_host) [PiReturn (PiNumber 99)] 0%nat st0 H
           (or_intror (ex_intro _ (PyInt 99) eq_refl))).
Defined.

Lemma C6_witness :
  evaluate_stmt arith_host 1 (PiVariable "o") 0%nat instance_store
  = Some (instance_store, Normal (VObject 0%nat))
  ∧ evaluate_stmt arith_host 2 (PiAttribute (PiVariable "o") "val") 0%nat
      instance_store
    = Some (instance_store, Normal (VNumber 7))
  ∧ evaluate_stmt arith_host 2 (PiAttribute (PiVariable "o") "m") 0%nat
      instance_store
    = Some (instance_store,
            Normal (VMethodClosure
                      (MkClosure (MkFunctionDef "m" ["self"] None []) 0%nat)
                      0%nat)).
Proof.
  assert (H : evaluate_stmt arith_host 1 (PiVariable "o") 0%nat instance_store
              = Some (instance_store, Normal (VObject 0%nat)))
    by (vm_compute; reflexivity).
  split; [exact H|]. split.
  - destruct (proj2 (C6_attribute_access arith_host 1 (PiVariable "o") "val"
                       0%nat instance_store instance_store _ H)
                0%nat _ eq_refl eq_refl) as (Hattr & _ & _).
    apply Hattr. vm_compute. reflexivity.
  - destruct (proj2 (C6_attribute_access arith_host 1 (PiVariable "o") "m"
                       0%nat instance_store instance_store _ H)
                0%nat _ eq_refl eq_refl) as (_ & Hmethod & _).
    apply Hmethod; vm_compute; reflexivity.
Defined.

Lemma C7_witness :
  evaluate_stmt arith_host 2
    (PiList [PiNumber 10; PiNumber 20; PiNumber 30]) 0%nat st0
  = Some (st0, Normal (VList [VNumber 10; VNumber 20; VNumber 30]))
  ∧ evaluate_stmt arith_host 2 (PiNumber (PyFloat float_1_9)) 0%nat st0
    = Some (st0, Normal (VNumber (PyFloat float_1_9)))
  ∧ number_to_int (PyFloat float_1_9) = inl 1
  ∧ 0 ≤ 1 < Z.of_nat (length [VNumber 10; VNumber 20; VNumber 30])
  ∧ ∃ x,
      [VNumber 10; VNumber 20; VNumber 30] !! Z.to_nat 1 = Some x
      ∧ evaluate_stmt arith_host 3
          (PiSubscript (PiList [PiNumber 10; PiNumber 20; PiNumber 30])
                       (PiNumber (PyFloat float_1_9))) 0%nat st0
        = Some (st0, Normal x).
Proof.
  assert (Hc : evaluate_stmt arith_host 2
                 (PiList [PiNumber 10; PiNumber 20; PiNumber 30]) 0%nat st0
               = Some (st0, Normal (VList [VNumber 10; VNumber 20; VNumber 30])))
    by reflexivity.
  assert (Hi : evaluate_stmt arith_host 2 (PiNumber (PyFloat float_1_9))
                 0%nat st0
               = Some (st0, Normal (VNumber (PyFloat float_1_9))))
    by reflexivity.
  assert (Hconv : number_to_int (PyFloat float_1_9) = inl 1) by reflexivity.
  assert (Hn : 0 ≤ 1 < Z.of_nat (length [VNumber 10; VNumber 20; VNumber 30]))
    by (simpl; lia).
  split; [exact Hc|]. split; [exact Hi|]. split; [exact Hconv|].
  split; [exact Hn|].
  destruct (proj1 (C7_subscript arith_host) 2%nat _ _ 0%nat st0 st0 st0 _ _ Hc Hi)
    as (_ & _ & Hin & _).
  exact (Hin _ _ 1 eq_refl eq_refl Hconv Hn).
Defined.

(** The claim C7 as it was written fails on a Number that is no integer:
    the index [inf] is a Number beyond every length, and [[10,20,30][inf]]
    fails with the overflow error of [int], not with an index error; the
    index [-3.5] is out of the range of a list of three items, and
    [[10,20,30][-3.5]] is the first item. *)
Lemma C7_counterexample :
  evaluate_stmt arith_host 3
    (PiSubscript (PiList [PiNumber 10; PiNumber 20; PiNumber 30])
                 (PiNumber (PyFloat (S754_infinity false)))) 0%nat st0
  = Some (st0, Raise (OverflowError "cannot convert float infinity to integer"))
  ∧ evaluate_stmt arith_host 3
      (PiSubscript (PiList [PiNumber 10; PiNumber 20; PiNumber 30])
                   (PiNumber (PyFloat float_minus_3_5))) 0%nat st0
    = Some (st0, Normal (VNumber 10)).
Proof. split; reflexivity. Qed.

Lemma C8_witness :
  evaluate_stmt arith_host 2 (PiList [PiNumber 1; PiNumber 2]) 0%nat st0
  = Some (st0, Normal (VList [VNumber 1; VNumber 2]))
  ∧ evaluate_stmt arith_host 2 (PiNumber 2) 0%nat st0
    = Some (st0, Normal (VNumber 2))
  ∧ ∃ b,
      evaluate_stmt arith_host 3
        (PiIn (PiNumber 2) (PiList [PiNumber 1; PiNumber 2])) 0%nat st0
      = Some (st0, Normal (VBool b))
      ∧ (b = true
         ↔ ∃ y, y ∈ [VNumber 1; VNumber 2]
                ∧ value_eq arith_host st0 (VNumber 2) y = true).
Proof.
  assert (Hc : evaluate_stmt arith_host 2 (PiList [PiNumber 1; PiNumber 2])
                 0%nat st0
               = Some (st0, Normal (VList [VNumber 1; VNumber 2])))
    by reflexivity.
  assert (He : evaluate_stmt arith_host 2 (PiNumber 2) 0%nat st0
               = Some (st0, Normal (VNumber 2))) by reflexivity.
  split; [exact Hc|]. split; [exact He|].
  exact (proj1 (C8_membership arith_host 2%nat _ _ 0%nat st0 st0 st0 _ _ Hc He)
           _ (or_introl eq_refl)).
Defined.

Lemma C9_witness :
  evaluate_stmt arith_host 1 (PiString "abc") 0%nat st0
  = Some (st0, Normal (VString "abc"))
  ∧ evaluate_stmt arith_host 1 (PiNumber (-1)) 0%nat st0
    = Some (st0, Normal (VNumber (-1)))
  ∧ sequence_items (VString "abc")
    = Some [VString "a"; VString "b"; VString "c"]
  ∧ -3 ≤ -1 < 0
  ∧ ∃ x,
      [VString "a"; VString "b"; VString "c"] !! Z.to_nat (3 + -1) = Some x
      ∧ evaluate_stmt arith_host 2
          (PiSubscript (PiString "abc") (PiNumber (-1))) 0%nat st0
        = Some (st0, Normal x).
Proof.
  assert (Hc : evaluate_stmt arith_host 1 (PiString "abc") 0%nat st0
               = Some (st0, Normal (VString "abc"))) by reflexivity.
  assert (Hi : evaluate_stmt arith_host 1 (PiNumber (-1)) 0%nat st0
               = Some (st0, Normal (VNumber (-1)))) by reflexivity.
  assert (Hitems : sequence_items (VString "abc")
                   = Some [VString "a"; VString "b"; VString "c"])
    by reflexivity.
  assert (Hn : -3 ≤ -1 < 0) by lia.
  split; [exact Hc|]. split; [exact Hi|]. split; [exact Hitems|].
  split; [exact Hn|].
  exact (proj1 (proj1 (C9_negative_index arith_host 1%nat _ _ 0%nat st0 st0 st0
                         _ _ _ Hc Hi Hitems) (-1) eq_refl) Hn).
Defined.

(** The claim C9 as it was written fails on a Number that is no integer.
    On the list [[10,20,30]], of length 3, the index [-0.5] lies between
    [-3] and [0], and the subscript is the first item, not an item counted
    from the end; the index [-3.5] lies below [-3], and the subscript is the
    first item again, not an index error. *)
Lemma C9_counterexample :
  evaluate_stmt arith_host 3
    (PiSubscript (PiList [PiNumber 10; PiNumber 20; PiNumber 30])
                 (PiNumber (PyFloat float_minus_0_5))) 0%nat st0
  = Some (st0, Normal (VNumber 10))
  ∧ evaluate_stmt arith_host 3
      (PiSubscript (PiList [PiNumber 10; PiNumber 20; PiNumber 30])
                   (PiNumber (PyFloat float_minus_3_5))) 0%nat st0
    = Some (st0, Normal (VNumber 10))
  ∧ number_to_int (PyFloat float_minus_0_5) = inl 0
  ∧ number_to_int (PyFloat float_minus_3_5) = inl (-3).
Proof. repeat split; reflexivity. Qed.


(** A binary operation is the call of the primitive bound to its operator. *)
Example binary_operation_is_a_call :
  evaluate arith_host 3 [PiBinaryOperation (PiNumber 1) "+" (PiNumber 2)]
    0%nat st0
  = Some (st0, Normal (VNumber 3)).
Proof. vm_compute. reflexivity. Qed.

(** A method found through an instance is called with the instance as its
    receiver: [class C: def get(self): return self.val] after
    [__init__(self, v): self.val = v], then [C(7).get()]. *)
Example method_call_binds_receiver :
  ∃ st',
    evaluate arith_host 5
      [PiClassDef "C"
         [init_val_def [];
          MkFunctionDef "get" ["self"] None
            [PiReturn (PiAttribute (PiVariable "self") "val")]];
       PiFunctionCall
         (PiAttribute (PiFunctionCall (PiVariable "C") [PiNumber 7]) "get") []]
      0%nat st0
    = Some (st', Normal (VNumber 7)).
Proof. eexists. vm_compute. reflexivity. Qed.

(** * Further properties of the evaluator *)

Section More_properties.

Context (host : Host).

(** ** Relations that every evaluation keeps

    [R env st st'] relates the store before and after an evaluation in the
    frame [env].  A relation that holds of the four writes of the evaluator
    and passes from the body of a call to the call holds of every
    evaluation. *)

Lemma bind_assoc {A B C} (m : M A) (f : A → M B) (g : B → M C) st :
  bind (bind m f) g st = bind m (λ x, bind (f x) g) st.
Proof. unfold bind. by destruct (m st) as [[st1 [a|e]]|]. Qed.

Section Preservation.

Variable R : frame_ref → Store → Store → Prop.
Hypothesis R_refl : ∀ env st, R env st st.
Hypothesis R_trans :
  ∀ env st1 st2 st3, R env st1 st2 → R env st2 st3 → R env st1 st3.
Hypothesis R_insert : ∀ env name v st, R env st (store_insert env name v st).
Hypothesis R_new_object : ∀ env cd st, R env st (store_new_object cd st).
Hypothesis R_set_attribute :
  ∀ env o attr v st, R env st (store_set_attribute o attr v st).
Hypothesis R_call :
  ∀ env p st st',
    R (length (frames st)) (store_new_frame p st) st' → R env st st'.

Lemma keeps_ret {A} env (a : A) : keeps R env (ret a).
Proof. intros st st' r H. unfold ret in H. simplify_eq. apply R_refl. Qed.

Lemma keeps_raise {A} env e : keeps R env (@raise A e).
Proof. intros st st' r H. unfold raise in H. simplify_eq. apply R_refl. Qed.

Lemma keeps_pure {A} env (f : Store → Outcome A) :
  keeps R env (λ st, Some (st, f st)).
Proof. intros st st' r H. simplify_eq. apply R_refl. Qed.

Lemma keeps_bind {A B} env (m : M A) (k : A → M B) :
  keeps R env m → (∀ a, keeps R env (k a)) → keeps R env (bind m k).
Proof.
  intros Hm Hk st st' r H. unfold bind in H.
  destruct (m st) as [[st1 [a|e]]|] eqn:Hmst; simplify_eq.
  - eapply R_trans; [by eapply Hm | by eapply Hk].
  - by eapply Hm.
Qed.

Lemma keeps_try_except {A} env (m : M A) h :
  keeps R env m → (∀ e k, h e = Some k → keeps R env k) →
  keeps R env (try_except m h).
Proof.
  intros Hm Hh st st' r H. unfold try_except in H.
  destruct (m st) as [[st1 [a|e]]|] eqn:Hmst; simplify_eq.
  - by eapply Hm.
  - destruct (h e) as [k|] eqn:Hhe; simplify_eq.
    + eapply R_trans; [by eapply Hm | by eapply Hh].
    + by eapply Hm.
Qed.

Lemma keeps_ext {A} env (m m' : M A) :
  (∀ st, m st = m' st) → keeps R env m' → keeps R env m.
Proof. intros Heq Hm st st' r H. rewrite Heq in H. by eapply Hm. Qed.

Lemma keeps_insert env name v : keeps R env (EnvFrame_insert env name v).
Proof.
  intros st st' r H. unfold EnvFrame_insert in H. simplify_eq. apply R_insert.
Qed.

Lemma keeps_new_frame env p : keeps R env (EnvFrame_new p).
Proof.
  intros st st' r H. unfold EnvFrame_new in H. simplify_eq.
  eapply R_call. apply R_refl.
Qed.

Lemma keeps_lookup env env' name : keeps R env (EnvFrame_lookup env' name).
Proof.
  intros st st' r H. unfold EnvFrame_lookup in H.
  destruct (lookup_chain _ _ _ _); unfold ret, raise in H; simplify_eq;
    apply R_refl.
Qed.

Lemma keeps_new_object env cd : keeps R env (new_object cd).
Proof.
  intros st st' r H. unfold new_object in H. simplify_eq. apply R_new_object.
Qed.

Lemma keeps_set_attribute env o attr v : keeps R env (set_attribute o attr v).
Proof.
  intros st st' r H. unfold set_attribute in H. simplify_eq.
  apply R_set_attribute.
Qed.

Lemma keeps_read_object env o : keeps R env (read_object o).
Proof.
  intros st st' r H. unfold read_object in H.
  destruct (objects st !! o); unfold ret, raise in H; simplify_eq;
    apply R_refl.
Qed.

Lemma keeps_check_type_VBool env v : keeps R env (check_type_VBool v).
Proof. destruct v; first [apply keeps_ret | apply keeps_raise]. Qed.

Lemma keeps_py_int env x : keeps R env (py_int x).
Proof.
  unfold py_int. destruct (number_to_int x);
    first [apply keeps_ret | apply keeps_raise].
Qed.

Lemma keeps_check_type_VNumber env v : keeps R env (check_type_VNumber v).
Proof. destruct v; first [apply keeps_ret | apply keeps_raise]. Qed.

Lemma keeps_check_valid_piandor env v :
  keeps R env (_check_valid_piandor_type host v).
Proof. destruct v; first [apply keeps_ret | apply keeps_raise]. Qed.

Create HintDb keeps discriminated.

Hint Resolve keeps_ret keeps_raise keeps_pure keeps_insert keeps_new_frame
  keeps_lookup keeps_new_object keeps_set_attribute keeps_read_object
  keeps_check_type_VBool keeps_check_type_VNumber keeps_py_int
  keeps_check_valid_piandor
  : keeps.

Ltac keeps_step :=
  match goal with
  | |- keeps R ?e (λ st, bind ?m ?k st) => change (keeps R e (bind m k))
  | |- keeps R _ (bind _ _) => apply keeps_bind; [|intros ?]
  | |- keeps R _ (try_except _ _) =>
      apply keeps_try_except;
      [|let e := fresh "e" in
        let k := fresh "k" in
        let H := fresh "H" in
        intros e k H; destruct e; simplify_eq]
  | |- keeps R _ (match ?x with _ => _ end) => destruct x
  | |- keeps R _ _ => solve [auto with keeps]
  end.

Ltac keeps_tac := repeat (cbv beta zeta; keeps_step).

Section Keeps_nodes.

Variable ev : PiStatement → frame_ref → M EnvValue.
Hypothesis ev_keeps : ∀ node env, keeps R env (ev node env).

Lemma keeps_evaluate_each nodes env : keeps R env (evaluate_each ev nodes env).
Proof. induction nodes; simpl; keeps_tac. Qed.

Lemma keeps_evaluate_seq stmts env last_value :
  keeps R env (evaluate_seq ev stmts env last_value).
Proof. revert last_value. induction stmts; intros; simpl; keeps_tac. Qed.

Lemma keeps_evaluate_list node env : keeps R env (evaluate_list ev node env).
Proof. apply keeps_evaluate_seq. Qed.

Hint Resolve keeps_evaluate_each keeps_evaluate_list : keeps.

Lemma keeps_loop_body body env : keeps R env (loop_body ev body env).
Proof. unfold loop_body. keeps_tac. Qed.

Hint Resolve keeps_loop_body : keeps.

Lemma keeps_while_loop n condition body env last_value :
  keeps R env (while_loop ev n condition body env last_value).
Proof.
  revert last_value. induction n; intros; simpl; [by intros ???|]. keeps_tac.
Qed.

Lemma keeps_for_loop var body env iterable last_value :
  keeps R env (for_loop ev var body env iterable last_value).
Proof. revert last_value. induction iterable; intros; simpl; keeps_tac. Qed.

Hint Resolve keeps_while_loop keeps_for_loop : keeps.

Lemma keeps_evaluate_for var iterable body env :
  keeps R env (_evaluate_for ev var iterable body env).
Proof. unfold _evaluate_for. keeps_tac. Qed.

Lemma keeps_evaluate_subscript collection index env :
  keeps R env (_evaluate_subscript ev collection index env).
Proof. unfold _evaluate_subscript. keeps_tac. Qed.

Lemma keeps_evaluate_in element container env :
  keeps R env (_evaluate_in host ev element container env).
Proof.
  unfold _evaluate_in. keeps_tac; apply (keeps_pure _ (λ st, Normal _)).
Qed.

Lemma keeps_bind_args call_env names args missing :
  keeps R call_env (bind_args call_env names args missing).
Proof. revert args. induction names; intros [|??]; simpl; keeps_tac. Qed.

Lemma keeps_bind_self call_env names instance :
  keeps R call_env (bind_self call_env names instance).
Proof. unfold bind_self. keeps_tac. Qed.

Hint Resolve keeps_bind_args keeps_bind_self : keeps.

Lemma keeps_call_body body call_env :
  keeps R call_env (call_body ev body call_env).
Proof. unfold call_body. keeps_tac. Qed.

Hint Resolve keeps_call_body : keeps.

(** The computations that fill a call frame return that frame. *)
Lemma keeps_then_ret (m : M unit) call_env st st' o :
  keeps R call_env m →
  bind m (λ _, ret call_env) st = Some (st', o) →
  R call_env st st' ∧ ∀ a, o = Normal a → a = call_env.
Proof.
  intros Hm H. unfold bind in H.
  destruct (m st) as [[st1 [[]|e]]|] eqn:Hmst; unfold ret in H; simplify_eq.
  - split; [by eapply Hm | by intros a [= ->]].
  - split; [by eapply Hm | done].
Qed.

Lemma keeps_then_ret2 (m1 m2 : M unit) call_env st st' o :
  keeps R call_env m1 → keeps R call_env m2 →
  bind m1 (λ _, bind m2 (λ _, ret call_env)) st = Some (st', o) →
  R call_env st st' ∧ ∀ a, o = Normal a → a = call_env.
Proof.
  intros H1 H2 H.
  apply (keeps_then_ret (bind m1 (λ _, m2))); [by apply keeps_bind|].
  by rewrite bind_assoc.
Qed.

Lemma keeps_then_ret3 (m1 m2 m3 : M unit) call_env st st' o :
  keeps R call_env m1 → keeps R call_env m2 → keeps R call_env m3 →
  bind m1 (λ _, bind m2 (λ _, bind m3 (λ _, ret call_env))) st
    = Some (st', o) →
  R call_env st st' ∧ ∀ a, o = Normal a → a = call_env.
Proof.
  intros H1 H2 H3 H.
  apply (keeps_then_ret2 (bind m1 (λ _, m2)) m3);
    [by apply keeps_bind|done|].
  by rewrite bind_assoc.
Qed.

Lemma keeps_vararg_function call_env funcdef (args : list EnvValue) n :
  keeps R call_env
    match vararg_name funcdef with
    | Some vararg =>
        EnvFrame_insert call_env vararg (VList (py_slice_from args n))
    | None =>
        if Z.of_nat (length args) >? n
        then raise (TypeError "Trop d'arguments pour la fonction.")
        else ret tt
    end.
Proof. keeps_tac. Qed.

Lemma keeps_vararg_method call_env funcdef (args : list EnvValue) n :
  keeps R call_env
    match vararg_name funcdef with
    | Some vararg =>
        EnvFrame_insert call_env vararg (VList (py_slice_from args n))
    | None =>
        if Z.of_nat (length args) >? n
        then raise (TypeError "Trop d'arguments pour la méthode.")
        else ret tt
    end.
Proof. keeps_tac. Qed.

Lemma function_call_env_keeps func_val args st st' o :
  function_call_env func_val args st = Some (st', o) →
  R (length (frames st))
    (store_new_frame (Some (closure_env func_val)) st) st'
  ∧ ∀ a, o = Normal a → a = length (frames st).
Proof.
  unfold function_call_env. cbv zeta. unfold bind at 1. unfold EnvFrame_new.
  apply keeps_then_ret2; [apply keeps_bind_args | apply keeps_vararg_function].
Qed.

Lemma method_call_env_keeps function instance args st st' o :
  method_call_env function instance args st = Some (st', o) →
  R (length (frames st))
    (store_new_frame (Some (closure_env function)) st) st'
  ∧ ∀ a, o = Normal a → a = length (frames st).
Proof.
  unfold method_call_env. cbv zeta. unfold bind at 1. unfold EnvFrame_new.
  apply keeps_then_ret3;
    [apply keeps_bind_self | apply keeps_bind_args | apply keeps_vararg_method].
Qed.

Lemma init_call_env_keeps init_method instance args st st' o :
  init_call_env init_method instance args st = Some (st', o) →
  R (length (frames st))
    (store_new_frame (Some (closure_env init_method)) st) st'
  ∧ ∀ a, o = Normal a → a = length (frames st).
Proof.
  unfold init_call_env. cbv zeta. unfold bind at 1. unfold EnvFrame_new.
  apply keeps_then_ret2; [apply keeps_bind_self | apply keeps_bind_args].
Qed.

(** A call frame, filled by [m], and then the body [k] in it. *)
Lemma keeps_call {A} env p (m : M frame_ref) (k : frame_ref → M A) :
  (∀ st st' o,
     m st = Some (st', o) →
     R (length (frames st)) (store_new_frame p st) st'
     ∧ ∀ a, o = Normal a → a = length (frames st)) →
  (∀ call_env, keeps R call_env (k call_env)) →
  keeps R env (bind m k).
Proof.
  intros Hm Hk st st' r H. unfold bind in H.
  destruct (m st) as [[st1 [call_env|e]]|] eqn:Hmst; simplify_eq.
  - destruct (Hm _ _ _ Hmst) as [HR Ha]. rewrite (Ha _ eq_refl) in H.
    eapply R_call, R_trans; [exact HR | by eapply Hk].
  - destruct (Hm _ _ _ Hmst) as [HR _]. by eapply R_call.
Qed.

Lemma keeps_call_function env func_val args :
  keeps R env (call_function ev func_val args).
Proof.
  unfold call_function. eapply keeps_call.
  - apply function_call_env_keeps.
  - intros call_env. keeps_tac.
Qed.

Lemma keeps_call_method env function instance args :
  keeps R env (call_method ev function instance args).
Proof.
  unfold call_method. eapply keeps_call.
  - apply method_call_env_keeps.
  - intros call_env. keeps_tac.
Qed.

Lemma keeps_call_constructor env func_val args :
  keeps R env (call_constructor ev func_val args).
Proof.
  unfold call_constructor.
  apply keeps_bind; [apply keeps_new_object|]. intros instance.
  apply keeps_bind; [|intros; apply keeps_ret].
  destruct (dict_get _ _) as [init_method|]; [|apply keeps_ret].
  eapply keeps_call.
  - apply init_call_env_keeps.
  - intros call_env. keeps_tac.
Qed.

Hint Resolve keeps_call_constructor keeps_call_method keeps_call_function
  : keeps.

Lemma keeps_evaluate_function_call function args env :
  keeps R env (_evaluate_function_call host ev function args env).
Proof. unfold _evaluate_function_call. keeps_tac. Qed.

End Keeps_nodes.

Lemma keeps_evaluate_stmt fuel :
  ∀ node env, keeps R env (evaluate_stmt host fuel node env).
Proof.
  induction fuel as [|fuel IH]; intros node env; [by intros ???|].
  pose proof (keeps_evaluate_each _ IH).
  pose proof (keeps_evaluate_list _ IH).
  destruct node; simpl; unfold lookup, insert; keeps_tac.
  - apply keeps_while_loop, IH.
  - by apply keeps_evaluate_function_call.
  - by apply keeps_evaluate_for.
  - by apply keeps_evaluate_in.
  - by apply keeps_evaluate_subscript.
Qed.

End Preservation.

(** ** Frames that an evaluation leaves alone *)

Lemma touches_only_refl env st : touches_only env st st.
Proof. split; [lia | done]. Qed.

Lemma touches_only_trans env st1 st2 st3 :
  touches_only env st1 st2 → touches_only env st2 st3 →
  touches_only env st1 st3.
Proof.
  intros [Hl12 H12] [Hl23 H23]. split; [lia|].
  intros e He Hne. rewrite H23 by (done || lia). by apply H12.
Qed.

Lemma touches_only_insert env name v st :
  touches_only env st (store_insert env name v st).
Proof.
  split; [by rewrite frames_insert_length|].
  intros e He Hne. unfold store_insert. simpl.
  by apply list_lookup_alter_ne.
Qed.

Lemma touches_only_same_frames env st st' :
  frames st' = frames st → touches_only env st st'.
Proof. intros H. split; [by rewrite H | intros; by rewrite H]. Qed.

Lemma touches_only_call env p st st' :
  touches_only (length (frames st)) (store_new_frame p st) st' →
  touches_only env st st'.
Proof.
  intros [Hl H]. rewrite frames_new_frame_length in Hl, H. split; [lia|].
  intros e He _. rewrite H by lia.
  unfold store_new_frame. simpl. by apply lookup_app_l.
Qed.

Lemma touches_only_evaluate_stmt fuel node env :
  keeps touches_only env (evaluate_stmt host fuel node env).
Proof.
  apply keeps_evaluate_stmt.
  - apply touches_only_refl.
  - apply touches_only_trans.
  - apply touches_only_insert.
  - intros; by apply touches_only_same_frames.
  - intros; by apply touches_only_same_frames.
  - apply touches_only_call.
Qed.

(** X1: an evaluation in the frame [env] removes no frame and leaves every
    other frame that existed before it as it was: whatever is evaluated,
    the bindings of the other frames are neither changed nor extended. *)
Theorem X1_evaluation_touches_only_its_frame :
  ∀ fuel node env st st' r,
    evaluate_stmt host fuel node env st = Some (st', r) →
    touches_only env st st'.
Proof. intros fuel node env st st' r H. by eapply touches_only_evaluate_stmt. Qed.

(** X2: the call of a function, of a bound method or of a class leaves every
    frame that existed before the call as it was, however the call ends: the
    names that a body assigns are bound in the frame of the call, never in
    the frame of the caller or in the frame the closure captured. *)
Theorem X2_call_leaves_frames_untouched :
  ∀ fuel st st' r e,
    (e < length (frames st))%nat →
    (∀ closure args,
       call_function (evaluate_stmt host fuel) closure args st = Some (st', r) →
       frames st' !! e = frames st !! e)
    ∧ (∀ method instance args,
         call_method (evaluate_stmt host fuel) method instance args st
           = Some (st', r) →
         frames st' !! e = frames st !! e)
    ∧ (∀ class_def args,
         call_constructor (evaluate_stmt host fuel) class_def args st
           = Some (st', r) →
         frames st' !! e = frames st !! e).
Proof.
  intros fuel st st' r e He.
  assert (Hev : ∀ node env,
            keeps touches_only env (evaluate_stmt host fuel node env)).
  { intros node env. apply touches_only_evaluate_stmt. }
  assert (Hcall : touches_only (length (frames st)) st st' →
                  frames st' !! e = frames st !! e).
  { intros [_ H]. apply H; lia. }
  split; [|split].
  - intros closure args H. apply Hcall.
    eapply (keeps_call_function touches_only); try exact H;
      eauto using touches_only_refl, touches_only_trans, touches_only_insert,
        touches_only_call.
  - intros method instance args H. apply Hcall.
    eapply (keeps_call_method touches_only); try exact H;
      eauto using touches_only_refl, touches_only_trans, touches_only_insert,
        touches_only_call.
  - intros class_def args H. apply Hcall.
    eapply (keeps_call_constructor touches_only); try exact H;
      eauto using touches_only_refl, touches_only_trans, touches_only_insert,
        touches_only_call.
    intros; by apply touches_only_same_frames.
Qed.

(** ** What an evaluation never changes *)

Lemma same_structure_refl st : same_structure st st.
Proof. split; [intros e fr H | intros o ob H]; eauto. Qed.

Lemma same_structure_trans st1 st2 st3 :
  same_structure st1 st2 → same_structure st2 st3 → same_structure st1 st3.
Proof.
  intros [Hf12 Ho12] [Hf23 Ho23]. split.
  - intros e fr H. destruct (Hf12 _ _ H) as (fr2 & H2 & Hp2).
    destruct (Hf23 _ _ H2) as (fr3 & H3 & Hp3).
    exists fr3. split; [done | congruence].
  - intros o ob H. destruct (Ho12 _ _ H) as (ob2 & H2 & Hc2 & Ha2).
    destruct (Ho23 _ _ H2) as (ob3 & H3 & Hc3 & Ha3).
    exists ob3. split; [done|]. split; [congruence | eauto].
Qed.

Lemma same_structure_insert env name v st :
  same_structure st (store_insert env name v st).
Proof.
  split; [|intros o ob H; eauto].
  intros e fr H. unfold store_insert. simpl.
  destruct (decide (env = e)) as [->|Hne].
  - rewrite list_lookup_alter_eq, H. simpl. by eexists.
  - rewrite list_lookup_alter_ne by done. eauto.
Qed.

Lemma same_structure_new_frame p st :
  same_structure st (store_new_frame p st).
Proof.
  split; [|intros o ob H; eauto].
  intros e fr H. exists fr. split; [|done].
  unfold store_new_frame. simpl. by apply lookup_app_l_Some.
Qed.

Lemma same_structure_new_object cd st :
  same_structure st (store_new_object cd st).
Proof.
  split; [intros e fr H; eauto|].
  intros o ob H. exists ob. split; [|done].
  unfold store_new_object. simpl. by apply lookup_app_l_Some.
Qed.

Lemma same_structure_set_attribute o attr v st :
  same_structure st (store_set_attribute o attr v st).
Proof.
  split; [intros e fr H; eauto|].
  intros o' ob H. unfold store_set_attribute. simpl.
  destruct (decide (o = o')) as [->|Hne].
  - rewrite list_lookup_alter_eq, H. simpl. eexists. split; [done|].
    split; [done|]. intros attr' [w Hw]. simpl.
    destruct (decide (attr = attr')) as [->|Hattr].
    + rewrite lookup_insert_eq. by eexists.
    + rewrite lookup_insert_ne by done. by eexists.
  - rewrite list_lookup_alter_ne by done. eauto.
Qed.

(** X3: no evaluation changes the parent of a frame, removes an instance,
    changes the class of an instance or removes an attribute of an
    instance. *)
Theorem X3_evaluation_keeps_structure :
  ∀ fuel node env st st' r,
    evaluate_stmt host fuel node env st = Some (st', r) →
    same_structure st st'.
Proof.
  intros fuel node env st st' r H.
  eapply (keeps_evaluate_stmt (λ _, same_structure)); try exact H.
  - intros _. apply same_structure_refl.
  - intros _. apply same_structure_trans.
  - intros. apply same_structure_insert.
  - intros. apply same_structure_new_object.
  - intros. apply same_structure_set_attribute.
  - intros _ p st1 st2 H12.
    eapply same_structure_trans; [apply same_structure_new_frame | exact H12].
Qed.

(** ** The frame of a call *)

Lemma frames_bind_args_length call_env names args st :
  length (frames (store_bind_args call_env names args st))
  = length (frames st).
Proof.
  revert args st. induction names as [|n names IH]; intros [|a args] st;
    simpl; try done.
  by rewrite IH, frames_insert_length.
Qed.

Lemma same_structure_bind_args call_env names args st :
  same_structure st (store_bind_args call_env names args st).
Proof.
  revert args st. induction names as [|n names IH]; intros [|a args] st;
    simpl; try apply same_structure_refl.
  eapply same_structure_trans; [apply same_structure_insert | apply IH].
Qed.

Lemma local_bind_args_other call_env names args st e name :
  e ≠ call_env ∨ name ∉ names →
  local_binding (store_bind_args call_env names args st) e name
  = local_binding st e name.
Proof.
  revert args st. induction names as [|n names IH]; intros [|a args] st H;
    simpl; try done.
  rewrite IH.
  - apply local_insert_ne. destruct H as [H|H]; [by left|].
    right. intros ->. apply H. by left.
  - destruct H as [H|H]; [by left|]. right. intros Hin. apply H. by right.
Qed.

(** A parameter is bound to the argument at its position, unless a later
    parameter has the same name. *)
Lemma local_bind_args_at call_env names args st i name a :
  (call_env < length (frames st))%nat →
  names !! i = Some name → args !! i = Some a →
  (∀ j, (i < j)%nat → names !! j ≠ Some name) →
  local_binding (store_bind_args call_env names args st) call_env name = Some a.
Proof.
  revert args st i. induction names as [|n names IH];
    intros [|a' args] st i Hlt Hn Ha Hlast; try done.
  destruct i as [|i]; simpl in *.
  - simplify_eq. rewrite local_bind_args_other.
    + by apply local_insert_eq.
    + right. intros Hin. apply list_elem_of_lookup in Hin as [j Hj].
      by apply (Hlast (S j)); [lia|].
  - eapply IH; [by rewrite frames_insert_length|done..|].
    intros j Hj. apply (Hlast (S j)). lia.
Qed.

Lemma py_slice_from_nat {A} (l : list A) n :
  py_slice_from l (Z.of_nat n) = drop n l.
Proof.
  unfold py_slice_from. rewrite (proj2 (Z.leb_le 0 (Z.of_nat n))) by lia.
  by rewrite Nat2Z.id.
Qed.

Lemma function_call_env_enough closure args st :
  let funcdef := funcdef closure in
  let names := fd_arg_names funcdef in
  (length names ≤ length args)%nat →
  function_call_env closure args st
  = Some (function_frame closure args st,
          match vararg_name funcdef with
          | Some _ => Normal (length (frames st))
          | None =>
              if bool_decide (length names < length args)%nat
              then Raise (TypeError "Trop d'arguments pour la fonction.")
              else Normal (length (frames st))
          end).
Proof.
  intros funcdef names Hlen. unfold function_call_env, function_frame.
  fold funcdef names. cbv zeta. unfold bind at 1. unfold EnvFrame_new.
  rewrite (bind_normal _ _ _ _ _ (bind_args_enough _ _ _ _ _ Hlen)).
  destruct (vararg_name funcdef) as [vararg|].
  - by rewrite py_slice_from_nat.
  - unfold bind. case_bool_decide.
    + by rewrite (proj2 (Z.gtb_gt _ _)) by lia.
    + destruct (Z.gtb_spec (Z.of_nat (length args)) (Z.of_nat (length names)));
        [lia | done].
Qed.

Lemma function_call_env_too_few closure args st :
  let funcdef := funcdef closure in
  let names := fd_arg_names funcdef in
  (length args < length names)%nat →
  ∃ st' arg_name,
    names !! length args = Some arg_name
    ∧ function_call_env closure args st
      = Some (st', Raise (missing_function_argument funcdef arg_name)).
Proof.
  intros funcdef names Hlen. unfold function_call_env.
  fold funcdef names. cbv zeta. unfold bind at 1. unfold EnvFrame_new.
  edestruct bind_args_missing as (arg_name & Hname & Hb); [exact Hlen|].
  eexists _, arg_name. split; [done|].
  by rewrite (bind_raise _ _ _ _ _ Hb).
Qed.

(** X4: the call of a function with fewer arguments than parameters fails
    with the type error that names the first parameter left without
    argument; with more arguments than parameters and no variadic parameter,
    it fails with the type error of the surplus.  In both cases the body is
    not evaluated. *)
Theorem X4_function_arity_errors :
  ∀ ev closure args st,
    let funcdef := funcdef closure in
    let names := fd_arg_names funcdef in
    ((length args < length names)%nat →
     ∃ st' arg_name,
       names !! length args = Some arg_name
       ∧ call_function ev closure args st
         = Some (st', Raise (missing_function_argument funcdef arg_name)))
    ∧ ((length names < length args)%nat →
       vararg_name funcdef = None →
       call_function ev closure args st
       = Some (function_frame closure args st,
               Raise (TypeError "Trop d'arguments pour la fonction."))).
Proof.
  intros ev closure args st funcdef names. split.
  - intros Hlen.
    destruct (function_call_env_too_few closure args st Hlen)
      as (st' & arg_name & Hname & Henv).
    exists st', arg_name. split; [done|].
    unfold call_function. by rewrite (bind_raise _ _ _ _ _ Henv).
  - intros Hlen Hvararg. unfold call_function.
    erewrite bind_raise; [done|].
    rewrite function_call_env_enough by (fold funcdef names; lia).
    fold funcdef names. rewrite Hvararg. by rewrite bool_decide_eq_true_2.
Qed.

(** X5: when the arguments of a function fit its parameters, the body runs
    in a new frame whose parent is the frame the closure captured; every
    parameter is bound to the argument at its position (the last one, for a
    name that occurs twice), the variadic parameter to the List of the
    arguments left over, and nothing else is bound in the frame. *)
Theorem X5_function_binding :
  ∀ ev closure args st,
    let funcdef := funcdef closure in
    let names := fd_arg_names funcdef in
    let call_env := length (frames st) in
    let st' := function_frame closure args st in
    (length names ≤ length args)%nat →
    (vararg_name funcdef = None → length args = length names) →
    call_function ev closure args st
      = call_body ev (fd_body funcdef) call_env st'
    ∧ (∃ fr, frames st' !! call_env = Some fr
             ∧ parent fr = Some (closure_env closure))
    ∧ (∀ i name a,
         names !! i = Some name → args !! i = Some a →
         (∀ j, (i < j)%nat → names !! j ≠ Some name) →
         vararg_name funcdef ≠ Some name →
         local_binding st' call_env name = Some a)
    ∧ (∀ vararg,
         vararg_name funcdef = Some vararg →
         local_binding st' call_env vararg
         = Some (VList (drop (length names) args)))
    ∧ (∀ name,
         name ∉ names → vararg_name funcdef ≠ Some name →
         local_binding st' call_env name = None).
Proof.
  intros ev closure args st funcdef names call_env st' Hlen Hvararg.
  assert (Hnew : (call_env
                  < length (frames (store_new_frame
                                      (Some (closure_env closure)) st)))%nat).
  { rewrite frames_new_frame_length. unfold call_env. lia. }
  split; [|split; [|split; [|split]]].
  - unfold call_function.
    erewrite bind_normal; [done|].
    rewrite function_call_env_enough by done. fold funcdef names.
    destruct (vararg_name funcdef); [done|].
    rewrite bool_decide_eq_false_2; [done|]. rewrite Hvararg by done. lia.
  - assert (Hs : same_structure
                   (store_new_frame (Some (closure_env closure)) st) st').
    { unfold st', function_frame. fold funcdef names call_env.
      destruct (vararg_name funcdef).
      - eapply same_structure_trans;
          [apply same_structure_bind_args | apply same_structure_insert].
      - apply same_structure_bind_args. }
    destruct Hs as [Hs _]. eapply (Hs call_env (MkFrame ∅ _)).
    unfold store_new_frame. simpl. by apply list_lookup_middle.
  - intros i name a Hn Ha Hlast Hva. unfold st', function_frame.
    fold funcdef names call_env.
    destruct (vararg_name funcdef) as [vararg|].
    + rewrite local_insert_ne by (right; congruence).
      by eapply local_bind_args_at.
    + by eapply local_bind_args_at.
  - intros vararg Hva. unfold st', function_frame.
    fold funcdef names call_env. rewrite Hva.
    apply local_insert_eq. by rewrite frames_bind_args_length.
  - intros name Hname Hva. unfold st', function_frame.
    fold funcdef names call_env.
    assert (Hnone : local_binding
                      (store_bind_args call_env names args
                         (store_new_frame (Some (closure_env closure)) st))
                      call_env name = None).
    { rewrite local_bind_args_other by by right. apply local_new_frame_new. }
    destruct (vararg_name funcdef) as [vararg|]; [|done].
    rewrite local_insert_ne by (right; congruence). done.
Qed.

Lemma same_structure_bind_self call_env names instance st :
  same_structure st (store_bind_self call_env names instance st).
Proof.
  destruct names; [apply same_structure_refl | apply same_structure_insert].
Qed.

Lemma method_call_env_too_few function instance args st :
  let funcdef := funcdef function in
  let names := fd_arg_names funcdef in
  (length args < length (tail names))%nat →
  ∃ st' arg_name,
    tail names !! length args = Some arg_name
    ∧ method_call_env function instance args st
      = Some (st', Raise (missing_method_argument funcdef arg_name)).
Proof.
  intros funcdef names Hlen. unfold method_call_env.
  fold funcdef names. cbv zeta. unfold bind at 1. unfold EnvFrame_new.
  edestruct bind_args_missing as (arg_name & Hname & Hb); [exact Hlen|].
  eexists _, arg_name. split; [done|].
  rewrite (bind_normal _ _ _ _ _ (bind_self_store _ _ _ _)).
  by rewrite (bind_raise _ _ _ _ _ Hb).
Qed.

Lemma method_call_env_enough function instance args st :
  let funcdef := funcdef function in
  let names := fd_arg_names funcdef in
  let call_env := length (frames st) in
  let st1 :=
    store_bind_args call_env (tail names) args
      (store_bind_self call_env names instance
         (store_new_frame (Some (closure_env function)) st)) in
  (length (tail names) ≤ length args)%nat →
  method_call_env function instance args st
  = match vararg_name funcdef with
    | Some vararg =>
        Some (store_insert call_env vararg
                (VList (py_slice_from args (Z.of_nat (length names) - 1))) st1,
              Normal call_env)
    | None =>
        Some (st1,
              if Z.of_nat (length args) >? Z.of_nat (length names) - 1
              then Raise (TypeError "Trop d'arguments pour la méthode.")
              else Normal call_env)
    end.
Proof.
  intros funcdef names call_env st1 Hlen. unfold method_call_env.
  fold funcdef names. cbv zeta. unfold bind at 1. unfold EnvFrame_new.
  rewrite (bind_normal _ _ _ _ _ (bind_self_store _ _ _ _)).
  rewrite (bind_normal _ _ _ _ _ (bind_args_enough _ _ _ _ _ Hlen)).
  destruct (vararg_name funcdef) as [vararg|]; [done|].
  unfold bind. by destruct (_ >? _).
Qed.

(** X6: the call of a bound method with fewer arguments than parameters
    after the receiver fails with the type error that names the first
    parameter left without argument; with more, and no variadic parameter, it
    fails with the type error of the surplus.  A method declared without any
    parameter, not even the receiver, and without variadic parameter fails
    with the error of the surplus on every call, also on a call without
    arguments.  The body is not evaluated. *)
Theorem X6_method_arity_errors :
  ∀ ev function instance args st,
    let funcdef := funcdef function in
    let names := fd_arg_names funcdef in
    ((length args < length (tail names))%nat →
     ∃ st' arg_name,
       tail names !! length args = Some arg_name
       ∧ call_method ev function instance args st
         = Some (st', Raise (missing_method_argument funcdef arg_name)))
    ∧ ((length (tail names) < length args)%nat ∨ names = [] →
       vararg_name funcdef = None →
       ∃ st',
         call_method ev function instance args st
         = Some (st', Raise (TypeError "Trop d'arguments pour la méthode."))).
Proof.
  intros ev function instance args st funcdef names. split.
  - intros Hlen.
    destruct (method_call_env_too_few function instance args st Hlen)
      as (st' & arg_name & Hname & Henv).
    exists st', arg_name. split; [done|].
    unfold call_method. by rewrite (bind_raise _ _ _ _ _ Henv).
  - intros Hlen Hvararg. eexists. unfold call_method.
    erewrite bind_raise; [done|].
    rewrite method_call_env_enough.
    + fold funcdef names. rewrite Hvararg.
      rewrite (proj2 (Z.gtb_gt _ _)); [done|].
      destruct Hlen as [Hlen| ->]; [|simpl; lia].
      destruct names; simpl in *; lia.
    + fold funcdef names. destruct Hlen as [Hlen| ->]; simpl; lia.
Qed.

(** X7: when the arguments of a bound method fit its parameters after the
    receiver, the body runs in a new frame whose parent is the frame the
    closure captured; the first parameter is bound to the instance, every
    other parameter to the argument at its position, and the variadic
    parameter to the List of the arguments left over.  (A later parameter of
    the same name, or the variadic parameter, replaces an earlier
    binding.) *)
Theorem X7_method_binding :
  ∀ ev function instance args st self params,
    let funcdef := funcdef function in
    let call_env := length (frames st) in
    let st' := method_frame function instance args st in
    fd_arg_names funcdef = self :: params →
    (length params ≤ length args)%nat →
    (vararg_name funcdef = None → length args = length params) →
    call_method ev function instance args st
      = call_body ev (fd_body funcdef) call_env st'
    ∧ (∃ fr, frames st' !! call_env = Some fr
             ∧ parent fr = Some (closure_env function))
    ∧ (self ∉ params → vararg_name funcdef ≠ Some self →
       local_binding st' call_env self = Some (VObject instance))
    ∧ (∀ i name a,
         params !! i = Some name → args !! i = Some a →
         (∀ j, (i < j)%nat → params !! j ≠ Some name) →
         vararg_name funcdef ≠ Some name →
         local_binding st' call_env name = Some a)
    ∧ (∀ vararg,
         vararg_name funcdef = Some vararg →
         local_binding st' call_env vararg
         = Some (VList (drop (length params) args))).
Proof.
  intros ev function instance args st self params funcdef call_env st'
    Hnames Hlen Hvararg.
  assert (Hnew : (call_env
                  < length (frames (store_new_frame
                                      (Some (closure_env function)) st)))%nat).
  { rewrite frames_new_frame_length. unfold call_env. lia. }
  assert (Hst' :
    st' = let st1 :=
            store_bind_args call_env params args
              (store_insert call_env self (VObject instance)
                 (store_new_frame (Some (closure_env function)) st)) in
          match vararg_name funcdef with
          | Some vararg =>
              store_insert call_env vararg
                (VList (drop (length params) args)) st1
          | None => st1
          end).
  { unfold st', method_frame. fold funcdef call_env. by rewrite Hnames. }
  split; [|split; [|split; [|split]]].
  - unfold call_method.
    erewrite bind_normal; [done|].
    rewrite method_call_env_enough by (fold funcdef; by rewrite Hnames).
    unfold st', method_frame. fold funcdef call_env. rewrite Hnames. simpl.
    destruct (vararg_name funcdef).
    + do 4 f_equal.
      replace (Z.of_nat (S (length params)) - 1)
        with (Z.of_nat (length params)) by lia.
      apply py_slice_from_nat.
    + rewrite Z.gtb_ltb, (proj2 (Z.ltb_ge _ _)); [done|].
      rewrite Hvararg by done. lia.
  - assert (Hs : same_structure
                   (store_new_frame (Some (closure_env function)) st) st').
    { rewrite Hst'. cbv zeta.
      assert (Hs1 : same_structure
                (store_new_frame (Some (closure_env function)) st)
                (store_bind_args call_env params args
                   (store_insert call_env self (VObject instance)
                      (store_new_frame (Some (closure_env function)) st)))).
      { eapply same_structure_trans;
          [apply same_structure_insert | apply same_structure_bind_args]. }
      destruct (vararg_name funcdef); [|done].
      eapply same_structure_trans; [exact Hs1 | apply same_structure_insert]. }
    destruct Hs as [Hs _]. eapply (Hs call_env (MkFrame ∅ _)).
    unfold store_new_frame. simpl. by apply list_lookup_middle.
  - intros Hself Hva. rewrite Hst'. cbv zeta.
    assert (Hb : local_binding
              (store_bind_args call_env params args
                 (store_insert call_env self (VObject instance)
                    (store_new_frame (Some (closure_env function)) st)))
              call_env self = Some (VObject instance)).
    { rewrite local_bind_args_other by by right. by apply local_insert_eq. }
    destruct (vararg_name funcdef) as [vararg|]; [|done].
    rewrite local_insert_ne by (right; congruence). done.
  - intros i name a Hn Ha Hlast Hva. rewrite Hst'. cbv zeta.
    assert (Hb : local_binding
              (store_bind_args call_env params args
                 (store_insert call_env self (VObject instance)
                    (store_new_frame (Some (closure_env function)) st)))
              call_env name = Some a).
    { eapply local_bind_args_at; [by rewrite frames_insert_length|done..]. }
    destruct (vararg_name funcdef) as [vararg|]; [|done].
    rewrite local_insert_ne by (right; congruence). done.
  - intros vararg Hva. rewrite Hst'. cbv zeta. rewrite Hva.
    apply local_insert_eq.
    by rewrite frames_bind_args_length, frames_insert_length.
Qed.

(** ** Construction without [__init__], and with too few arguments *)

Lemma objects_bind_args call_env names args st :
  objects (store_bind_args call_env names args st) = objects st.
Proof.
  revert args st. induction names as [|n names IH]; intros [|a args] st;
    simpl; try done.
  by rewrite IH.
Qed.

Lemma objects_bind_self call_env names instance st :
  objects (store_bind_self call_env names instance st) = objects st.
Proof. by destruct names. Qed.

(** X8: the construction of an instance of a class without [__init__]
    returns a new instance without attributes and ignores the arguments.
    With an [__init__] that has more parameters after the receiver than
    there are arguments, it fails with the type error that names the first
    parameter left without argument; the body of [__init__] is not
    evaluated, and the instance that is no longer reachable stays in the
    store.  An exception of the body of [__init__] other than the return
    signal is the outcome of the construction. *)
Theorem X8_constructor_edges :
  ∀ ev class_def args st,
    (dict_get (class_methods class_def) "__init__" = None →
     call_constructor ev class_def args st
     = Some (store_new_object class_def st,
             Normal (VObject (length (objects st)))))
    ∧ (∀ init_method,
         dict_get (class_methods class_def) "__init__" = Some init_method →
         let names := tail (fd_arg_names (funcdef init_method)) in
         (length args < length names)%nat →
         ∃ st' arg_name,
           names !! length args = Some arg_name
           ∧ call_constructor ev class_def args st
             = Some (st', Raise (TypeError ("Argument manquant pour __init__: "
                                            +:+ arg_name)))
           ∧ objects st' = (objects st ++ [MkObject class_def ∅])%list)
    ∧ (∀ init_method st1 call_env st2 e,
         dict_get (class_methods class_def) "__init__" = Some init_method →
         init_call_env init_method (length (objects st)) args
           (store_new_object class_def st) = Some (st1, Normal call_env) →
         evaluate_list ev (fd_body (funcdef init_method)) call_env st1
           = Some (st2, Raise e) →
         (∀ v, e ≠ ReturnException v) →
         call_constructor ev class_def args st = Some (st2, Raise e)).
Proof.
  intros ev class_def args st. split; [|split].
  - intros Hinit. by apply call_constructor_no_init.
  - intros init_method Hinit names Hlen. unfold call_constructor.
    unfold bind at 1. unfold new_object. rewrite Hinit.
    edestruct bind_args_missing as (arg_name & Hname & Hb); [exact Hlen|].
    eexists _, arg_name. split; [exact Hname|]. split.
    + erewrite bind_raise; [done|]. erewrite bind_raise; [done|].
      unfold init_call_env. cbv zeta. unfold bind at 1. unfold EnvFrame_new.
      rewrite (bind_normal _ _ _ _ _ (bind_self_store _ _ _ _)).
      by rewrite (bind_raise _ _ _ _ _ Hb).
    + by rewrite objects_bind_args, objects_bind_self.
  - intros init_method st1 call_env st2 e Hinit Henv Hbody He.
    unfold call_constructor. unfold bind at 1. unfold new_object.
    rewrite Hinit. erewrite bind_raise; [done|].
    rewrite (bind_normal _ _ _ _ _ Henv).
    eapply try_except_passed; [by rewrite (bind_raise _ _ _ _ _ Hbody)|].
    destruct e; try done. by edestruct He.
Qed.

(** ** Attributes *)

Lemma attribute_of_set_eq st o attr v :
  (o < length (objects st))%nat →
  attribute_of (store_set_attribute o attr v st) o attr = Some v.
Proof.
  intros Hlt. unfold attribute_of, store_set_attribute. simpl.
  rewrite list_lookup_alter_eq.
  destruct (lookup_lt_is_Some_2 _ _ Hlt) as [ob ->]. simpl.
  apply lookup_insert_eq.
Qed.

Lemma attribute_of_set_ne st o attr v o' attr' :
  o' ≠ o ∨ attr' ≠ attr →
  attribute_of (store_set_attribute o attr v st) o' attr'
  = attribute_of st o' attr'.
Proof.
  intros Hne. unfold attribute_of, store_set_attribute. simpl.
  destruct (decide (o = o')) as [<-|Ho].
  - rewrite list_lookup_alter_eq. destruct (objects st !! o); simpl; [|done].
    apply lookup_insert_ne. destruct Hne; congruence.
  - by rewrite list_lookup_alter_ne.
Qed.

Lemma eval_PiAttribute_own fuel object attr env st st1 o v :
  evaluate_stmt host fuel object env st = Some (st1, Normal (VObject o)) →
  attribute_of st1 o attr = Some v →
  evaluate_stmt host (S fuel) (PiAttribute object attr) env st
  = Some (st1, Normal v).
Proof.
  intros Ho Hattr. simpl. rewrite (bind_normal _ _ _ _ _ Ho).
  unfold attribute_of in Hattr. unfold bind, read_object.
  destruct (objects st1 !! o) as [ob|]; [|done]. simpl. by rewrite Hattr.
Qed.

(** X9: an attribute assignment on an instance returns the assigned value
    and writes it into the instance itself: afterwards every expression that
    evaluates to that instance reads the value back through the attribute,
    whatever the class defines under that name; the other attributes, the
    other instances and the frames are as they were. *)
Theorem X9_attribute_round_trip :
  ∀ fuel object attr value env st st1 o st2 v,
    evaluate_stmt host fuel object env st = Some (st1, Normal (VObject o)) →
    evaluate_stmt host fuel value env st1 = Some (st2, Normal v) →
    (o < length (objects st2))%nat →
    let st3 := store_set_attribute o attr v st2 in
    evaluate_stmt host (S fuel) (PiAttributeAssignment object attr value) env st
      = Some (st3, Normal v)
    ∧ (∀ fuel' object' env',
         evaluate_stmt host fuel' object' env' st3
           = Some (st3, Normal (VObject o)) →
         evaluate_stmt host (S fuel') (PiAttribute object' attr) env' st3
         = Some (st3, Normal v))
    ∧ (∀ o' attr',
         o' ≠ o ∨ attr' ≠ attr →
         attribute_of st3 o' attr' = attribute_of st2 o' attr')
    ∧ frames st3 = frames st2.
Proof.
  intros fuel object attr value env st st1 o st2 v Ho Hv Hlt st3.
  split; [|split; [|split]].
  - by eapply eval_PiAttributeAssignment.
  - intros fuel' object' env' Ho'.
    eapply eval_PiAttribute_own; [exact Ho'|].
    by apply attribute_of_set_eq.
  - intros o' attr' Hne. by apply attribute_of_set_ne.
  - done.
Qed.

(** X10: an attribute assignment whose target is not an instance fails with
    a type error that names the class of the value, and the expression to
    assign is not evaluated; when the target is an instance and the
    expression to assign raises, the exception is the outcome and no
    attribute is written. *)
Theorem X10_attribute_assignment_errors :
  ∀ fuel object attr env st st1 v,
    evaluate_stmt host fuel object env st = Some (st1, Normal v) →
    ((∀ o, v ≠ VObject o) →
     ∀ value,
       evaluate_stmt host (S fuel) (PiAttributeAssignment object attr value)
         env st
       = Some (st1, Raise (TypeError
                 ("Impossible d'assigner un attribut à un objet de type "
                  +:+ type_name host v))))
    ∧ (∀ o value st2 e,
         v = VObject o →
         evaluate_stmt host fuel value env st1 = Some (st2, Raise e) →
         evaluate_stmt host (S fuel) (PiAttributeAssignment object attr value)
           env st
         = Some (st2, Raise e)).
Proof.
  intros fuel object attr env st st1 v Ho. split.
  - intros Hv value. simpl. rewrite (bind_normal _ _ _ _ _ Ho).
    destruct v; try done. by edestruct Hv.
  - intros o value st2 e -> Hvalue. simpl.
    rewrite (bind_normal _ _ _ _ _ Ho). by rewrite (bind_raise _ _ _ _ _ Hvalue).
Qed.

(** ** Conditionals and loops *)

Lemma check_type_VBool_error v st :
  (∀ b, v ≠ VBool b) →
  check_type_VBool v st = Some (st, Raise (TypeError "VBool")).
Proof. intros Hv. destruct v; try done. by edestruct Hv. Qed.

Lemma loop_body_break ev body env st st1 :
  evaluate_list ev body env st = Some (st1, Raise BreakException) →
  loop_body ev body env st = Some (st1, Normal BodyBreak).
Proof.
  intros Hb. unfold loop_body.
  by rewrite (try_except_caught _ _ _ _ _ (ret BodyBreak)
                (bind_raise _ _ _ _ _ Hb) eq_refl).
Qed.


(** X11: a conditional whose condition is not a Bool fails with a type
    error and evaluates neither branch; on a Bool it evaluates the statements
    of the one branch the Bool selects, whatever the other branch is, and an
    empty branch gives None. *)
Theorem X11_conditional :
  ∀ fuel condition env st st1 v,
    evaluate_stmt host fuel condition env st = Some (st1, Normal v) →
    ((∀ b, v ≠ VBool b) →
     ∃ msg, ∀ then_branch else_branch,
       evaluate_stmt host (S fuel)
         (PiIfThenElse condition then_branch else_branch) env st
       = Some (st1, Raise (TypeError msg)))
    ∧ (∀ then_branch else_branch,
         v = VBool true →
         evaluate_stmt host (S fuel)
           (PiIfThenElse condition then_branch else_branch) env st
         = evaluate_list (evaluate_stmt host fuel) then_branch env st1)
    ∧ (∀ then_branch else_branch,
         v = VBool false →
         evaluate_stmt host (S fuel)
           (PiIfThenElse condition then_branch else_branch) env st
         = evaluate_list (evaluate_stmt host fuel) else_branch env st1)
    ∧ (∀ b other,
         v = VBool b →
         evaluate_stmt host (S fuel)
           (PiIfThenElse condition (if b then [] else other)
              (if b then other else [])) env st
         = Some (st1, Normal VNone)).
Proof.
  intros fuel condition env st st1 v Hc. split; [|split; [|split]].
  - intros Hv. eexists. intros then_branch else_branch. simpl.
    rewrite (bind_normal _ _ _ _ _ Hc).
    by rewrite (bind_raise _ _ _ _ _ (check_type_VBool_error _ _ Hv)).
  - intros then_branch else_branch ->.
    by rewrite (eval_PiIfThenElse host _ _ _ _ _ _ _ _ Hc).
  - intros then_branch else_branch ->.
    by rewrite (eval_PiIfThenElse host _ _ _ _ _ _ _ _ Hc).
  - intros b other ->.
    rewrite (eval_PiIfThenElse host _ _ _ _ _ _ _ _ Hc). by destruct b.
Qed.



Lemma loop_body_raise_inv ev body env st st' e :
  loop_body ev body env st = Some (st', Raise e) →
  e ≠ BreakException ∧ e ≠ ContinueException.
Proof.
  unfold loop_body, try_except, bind.
  destruct (evaluate_list ev body env st) as [[st1 [v|e']]|]; [done| |done].
  destruct e'; intros H; unfold ret in H; by simplify_eq.
Qed.

Lemma for_loop_raise_inv ev var body env items last_value st st' e :
  for_loop ev var body env items last_value st = Some (st', Raise e) →
  e ≠ BreakException ∧ e ≠ ContinueException.
Proof.
  revert last_value st. induction items as [|item rest IH];
    intros last_value st H; [done|].
  rewrite for_loop_cons in H. unfold bind in H.
  destruct (loop_body _ _ _ _) as [[st1 [[v| |]|e']]|] eqn:Hbody;
    try done; eauto.
  simplify_eq. by eapply loop_body_raise_inv.
Qed.

Lemma while_loop_raise_inv ev n condition body env last_value st st' e :
  while_loop ev n condition body env last_value st = Some (st', Raise e) →
  e = BreakException ∨ e = ContinueException →
  ∃ st0, ev condition env st0 = Some (st', Raise e).
Proof.
  revert last_value st. induction n as [|n IH]; intros last_value st H He;
    [done|].
  cbn [while_loop] in H. unfold bind at 1 in H.
  destruct (ev condition env st) as [[st1 [c|e']]|] eqn:Hc; [| |done].
  - unfold bind at 1 in H.
    destruct c;
      try (unfold check_type_VBool, raise in H; simplify_eq; by destruct He).
    simpl in H. destruct value; simpl in H; [|by simplify_eq].
    unfold bind in H.
    destruct (loop_body _ _ _ _) as [[st2 [[v| |]|e']]|] eqn:Hbody;
      try done; eauto.
    simplify_eq. apply loop_body_raise_inv in Hbody as [? ?]. by destruct He.
  - simplify_eq. eauto.
Qed.

(** X14: a loop catches every [break] and [continue] of its body.  A
    for-loop over the items never ends with one of the two signals; when a
    for statement or a while-loop does end with one, the signal was raised
    by the evaluation of the iterable, or of the condition, not by the
    body. *)
Theorem X14_loops_catch_their_signals :
  ∀ fuel,
    let ev := evaluate_stmt host fuel in
    (∀ var body env items last_value st st' e,
       for_loop ev var body env items last_value st = Some (st', Raise e) →
       e ≠ BreakException ∧ e ≠ ContinueException)
    ∧ (∀ var iterable body env st st' e,
         evaluate_stmt host (S fuel) (PiFor var iterable body) env st
           = Some (st', Raise e) →
         e = BreakException ∨ e = ContinueException →
         ev iterable env st = Some (st', Raise e))
    ∧ (∀ condition body env st st' e,
         evaluate_stmt host (S fuel) (PiWhile condition body) env st
           = Some (st', Raise e) →
         e = BreakException ∨ e = ContinueException →
         ∃ st0, ev condition env st0 = Some (st', Raise e)).
Proof.
  intros fuel ev. subst ev. split; [|split].
  - intros var body env items last_value st st' e H.
    by eapply for_loop_raise_inv.
  - intros var iterable body env st st' e H He. simpl in H.
    unfold _evaluate_for, bind in H.
    destruct (evaluate_stmt host fuel iterable env st)
      as [[st1 [v|e']]|] eqn:Hit; [| |done].
    + destruct v; unfold raise in H;
        try (simplify_eq; by destruct He);
        apply for_loop_raise_inv in H as [? ?]; by destruct He.
    + by simplify_eq.
  - intros condition body env st st' e H He. rewrite eval_PiWhile in H.
    by eapply while_loop_raise_inv.
Qed.

(** ** Logical operators *)

Lemma truth_value_false_iff v :
  valid_piandor_kind v = true →
  truth_value v = false
  ↔ v = VBool false ∨ v = VNumber 0
    ∨ v = VNumber (PyFloat (S754_zero false))
    ∨ v = VNumber (PyFloat (S754_zero true))
    ∨ v = VString EmptyString ∨ v = VNone ∨ v = VList [] ∨ v = VTuple [].
Proof.
  intros Hv. destruct v as [n|b|s| |l|l| | | | |]; simpl in *; try done.
  - rewrite negb_false_iff.
    destruct n as [z|[[]|?| |? ? ?]]; simpl; rewrite ?Z.eqb_eq; naive_solver.
  - destruct b; naive_solver.
  - destruct s; simpl; naive_solver.
  - naive_solver.
  - destruct l; simpl; naive_solver.
  - destruct l; simpl; naive_solver.
Qed.

(** X15: [not] gives the Bool opposite to the truth of its operand, and is a
    type error on an operand that is not a Bool, Number, String, None, List
    or Tuple.  An [and] whose left operand is truthy, and an [or] whose left
    operand is falsy, give the value of the right operand itself, not a
    Bool.  The falsy values are False, the int 0, the floats 0.0 and -0.0,
    the empty String, None, the empty List and the empty Tuple, and no
    other. *)
Theorem X15_logical_operators :
  ∀ fuel operand env st st1 v,
    evaluate_stmt host fuel operand env st = Some (st1, Normal v) →
    (valid_piandor_kind v = true →
     evaluate_stmt host (S fuel) (PiNot operand) env st
     = Some (st1, Normal (VBool (negb (truth_value v)))))
    ∧ (valid_piandor_kind v = false →
       evaluate_stmt host (S fuel) (PiNot operand) env st
       = Some (st1, Raise (TypeError
                 ("Type non supporté pour l'opérateur 'and': "
                  +:+ type_name host v))))
    ∧ (∀ rhs st2 w,
         valid_piandor_kind v = true →
         evaluate_stmt host fuel rhs env st1 = Some (st2, Normal w) →
         valid_piandor_kind w = true →
         (truth_value v = true →
          evaluate_stmt host (S fuel) (PiAnd operand rhs) env st
          = Some (st2, Normal w))
         ∧ (truth_value v = false →
            evaluate_stmt host (S fuel) (PiOr operand rhs) env st
            = Some (st2, Normal w)))
    ∧ (valid_piandor_kind v = true →
       truth_value v = false
       ↔ v = VBool false ∨ v = VNumber 0
         ∨ v = VNumber (PyFloat (S754_zero false))
         ∨ v = VNumber (PyFloat (S754_zero true))
         ∨ v = VString EmptyString ∨ v = VNone ∨ v = VList []
         ∨ v = VTuple []).
Proof.
  intros fuel operand env st st1 v Ho. split; [|split; [|split]].
  - intros Hv. simpl. rewrite (bind_normal _ _ _ _ _ Ho).
    by rewrite (bind_normal _ _ _ _ _ (check_valid_piandor_ok host _ _ Hv)).
  - intros Hv. simpl. rewrite (bind_normal _ _ _ _ _ Ho).
    by rewrite (bind_raise _ _ _ _ _ (check_valid_piandor_error host _ _ Hv)).
  - intros rhs st2 w Hv Hr Hw. split; intros Ht; simpl;
      rewrite (bind_normal _ _ _ _ _ Ho);
      rewrite (bind_normal _ _ _ _ _ (check_valid_piandor_ok host _ _ Hv));
      rewrite Ht; simpl;
      rewrite (bind_normal _ _ _ _ _ Hr);
      by rewrite (bind_normal _ _ _ _ _ (check_valid_piandor_ok host _ _ Hw)).
  - apply truth_value_false_iff.
Qed.

(** ** Calls and operators *)

Lemma evaluate_each_length ev nodes env st st1 vs :
  evaluate_each ev nodes env st = Some (st1, Normal vs) →
  length vs = length nodes.
Proof.
  revert st vs. induction nodes as [|e nodes IH]; intros st vs H; simpl in *.
  - unfold ret in H. by simplify_eq.
  - unfold bind at 1 in H. destruct (ev e env st) as [[st2 [v|e']]|]; [|done..].
    unfold bind in H.
    destruct (evaluate_each ev nodes env st2) as [[st3 [vs'|e']]|] eqn:Hn;
      [|done..].
    unfold ret in H. simplify_eq. simpl. f_equal. by eapply IH.
Qed.

(** X16: a binary operation is the call of whatever its operator names in
    the environment.  An operator that no frame binds is the name error of
    the operator, and the operands are not evaluated.  With the operator
    bound to a primitive, the result is the primitive applied to the values
    of the left and of the right operand, evaluated in this order; with the
    operator bound to a function of the program, it is the call of that
    function on the two values. *)
Theorem X16_binary_operation :
  ∀ fuel lhs operator rhs env st,
    (lookup env operator st = Some (st, Raise (NameError operator)) →
     evaluate_stmt host (S (S (S fuel))) (PiBinaryOperation lhs operator rhs)
       env st
     = Some (st, Raise (NameError operator)))
    ∧ (∀ f st1 a st2 b,
         lookup env operator st = Some (st, Normal f) →
         evaluate_stmt host (S fuel) lhs env st = Some (st1, Normal a) →
         evaluate_stmt host (S fuel) rhs env st1 = Some (st2, Normal b) →
         (∀ name,
            f = VPrimitive name →
            evaluate_stmt host (S (S (S fuel)))
              (PiBinaryOperation lhs operator rhs) env st
            = Some (st2, prim_call host name st2 [a; b]))
         ∧ (∀ closure,
              f = VFunctionClosure closure →
              evaluate_stmt host (S (S (S fuel)))
                (PiBinaryOperation lhs operator rhs) env st
              = call_function (evaluate_stmt host (S fuel)) closure [a; b]
                  st2)).
Proof.
  intros fuel lhs operator rhs env st.
  assert (Hop : evaluate_stmt host (S (S (S fuel)))
                  (PiBinaryOperation lhs operator rhs) env st
                = evaluate_stmt host (S (S fuel))
                    (PiFunctionCall (PiVariable operator) [lhs; rhs]) env st)
    by reflexivity.
  rewrite Hop. clear Hop. split.
  - intros Hlookup.
    change (_evaluate_function_call host (evaluate_stmt host (S fuel))
              (PiVariable operator) [lhs; rhs] env st
            = Some (st, Raise (NameError operator))).
    unfold _evaluate_function_call. by erewrite bind_raise.
  - intros f st1 a st2 b Hlookup Hl Hr.
    assert (Hargs : evaluate_each (evaluate_stmt host (S fuel)) [lhs; rhs]
                      env st
                    = Some (st2, Normal [a; b])).
    { eapply evaluate_each_cons; [exact Hl|].
      eapply evaluate_each_cons; [exact Hr | apply evaluate_each_nil]. }
    assert (Hf : evaluate_stmt host (S fuel) (PiVariable operator) env st
                 = Some (st, Normal f)) by exact Hlookup.
    split.
    + intros name ->.
      by rewrite (eval_PiFunctionCall host _ _ _ _ _ _ _ _ _ Hf Hargs).
    + intros closure ->.
      by rewrite (eval_PiFunctionCall host _ _ _ _ _ _ _ _ _ Hf Hargs).
Qed.

(** X17: a call evaluates the callee, then the arguments from left to
    right, then calls.  An exception of the callee is the outcome, and no
    argument is evaluated; an exception of an argument is the outcome, and
    neither the arguments after it are evaluated nor anything called; a
    callee whose value is a Number, a Bool, a String, None, a List, a Tuple
    or an instance is a type error that names its class, raised after the
    arguments were evaluated. *)
Theorem X17_call_order :
  ∀ fuel function env st,
    let ev := evaluate_stmt host fuel in
    (∀ st1 e args,
       ev function env st = Some (st1, Raise e) →
       evaluate_stmt host (S fuel) (PiFunctionCall function args) env st
       = Some (st1, Raise e))
    ∧ (∀ st1 f pre arg post st2 vs st3 e,
         ev function env st = Some (st1, Normal f) →
         evaluate_each ev pre env st1 = Some (st2, Normal vs) →
         ev arg env st2 = Some (st3, Raise e) →
         evaluate_stmt host (S fuel)
           (PiFunctionCall function (pre ++ arg :: post)) env st
         = Some (st3, Raise e))
    ∧ (∀ st1 f args st2 vs,
         ev function env st = Some (st1, Normal f) →
         evaluate_each ev args env st1 = Some (st2, Normal vs) →
         not_callable f = true →
         evaluate_stmt host (S fuel) (PiFunctionCall function args) env st
         = Some (st2, Raise (TypeError
                   ("Tentative d'appel d'un objet non-fonction de type "
                    +:+ type_name host f)))).
Proof.
  intros fuel function env st ev. subst ev. split; [|split].
  - intros st1 e args Hf. simpl. unfold _evaluate_function_call.
    by rewrite (bind_raise _ _ _ _ _ Hf).
  - intros st1 f pre arg post st2 vs st3 e Hf Hpre Harg. simpl.
    unfold _evaluate_function_call. rewrite (bind_normal _ _ _ _ _ Hf).
    by rewrite (bind_raise _ _ _ _ _
                  (evaluate_each_raise _ _ _ post _ _ _ _ _ _ Hpre Harg)).
  - intros st1 f args st2 vs Hf Hargs Hnc.
    rewrite (eval_PiFunctionCall host _ _ _ _ _ _ _ _ _ Hf Hargs).
    by destruct f.
Qed.

(** X18: a List literal and a Tuple literal evaluate their elements from
    left to right, each in the store the one before left, and hold as many
    values as they have elements; they differ by their class only.  An
    exception of an element is the outcome of the literal, and the elements
    after it are not evaluated. *)
Theorem X18_literal_elements :
  ∀ fuel env st,
    let ev := evaluate_stmt host fuel in
    (∀ elements st1 vs,
       evaluate_each ev elements env st = Some (st1, Normal vs) →
       evaluate_stmt host (S fuel) (PiList elements) env st
         = Some (st1, Normal (VList vs))
       ∧ evaluate_stmt host (S fuel) (PiTuple elements) env st
         = Some (st1, Normal (VTuple vs))
       ∧ length vs = length elements)
    ∧ (∀ pre post st1 vs1 st2 vs2,
         evaluate_each ev pre env st = Some (st1, Normal vs1) →
         evaluate_each ev post env st1 = Some (st2, Normal vs2) →
         evaluate_each ev (pre ++ post) env st
         = Some (st2, Normal (vs1 ++ vs2)%list))
    ∧ (∀ pre element post st1 vs1 st2 e,
         evaluate_each ev pre env st = Some (st1, Normal vs1) →
         ev element env st1 = Some (st2, Raise e) →
         evaluate_stmt host (S fuel) (PiList (pre ++ element :: post)) env st
           = Some (st2, Raise e)
         ∧ evaluate_stmt host (S fuel) (PiTuple (pre ++ element :: post)) env st
           = Some (st2, Raise e)).
Proof.
  intros fuel env st ev. subst ev. split; [|split].
  - intros elements st1 vs H. split; [|split].
    + by apply eval_PiList.
    + simpl. by rewrite (bind_normal _ _ _ _ _ H).
    + by eapply evaluate_each_length.
  - intros pre post st1 vs1 st2 vs2 Hpre Hpost.
    rewrite (evaluate_each_app _ _ _ _ _ _ _ Hpre).
    by rewrite (bind_normal _ _ _ _ _ Hpost).
  - intros pre element post st1 vs1 st2 e Hpre He.
    pose proof (evaluate_each_raise _ _ _ post _ _ _ _ _ _ Hpre He) as Hr.
    split; simpl; by rewrite (bind_raise _ _ _ _ _ Hr).
Qed.

(** ** Class definitions *)

Lemma dict_get_set {V} (d : list (string * V)) k v k' :
  dict_get (dict_set d k v) k'
  = if decide (k = k') then Some v else dict_get d k'.
Proof.
  induction d as [|[k0 v0] d IH]; simpl.
  - destruct (String.eqb_spec k k'); by case_decide.
  - destruct (String.eqb_spec k0 k) as [->|Hk0]; simpl.
    + destruct (String.eqb_spec k k'); by case_decide.
    + destruct (String.eqb_spec k0 k') as [->|Hk0']; [|done].
      by case_decide.
Qed.

Lemma method_table_get class_env methods table name :
  dict_get
    (fold_left
       (λ table method,
          dict_set table (fd_name method) (MkClosure method class_env))
       methods table) name
  = match last (filter (λ method, fd_name method = name) methods) with
    | Some method => Some (MkClosure method class_env)
    | None => dict_get table name
    end.
Proof.
  revert table. induction methods as [|m methods IH]; intros table; [done|].
  simpl. rewrite IH, dict_get_set. rewrite filter_cons.
  destruct (decide (fd_name m = name)) as [Hm|Hm].
  - rewrite last_cons. by destruct (last _).
  - done.
Qed.

(** X19: a class definition is None as a statement.  It makes one new
    frame, empty and child of the frame of the definition, and binds the
    class under its name in the frame of the definition.  Under each method
    name the class holds the last method of that name in the body, as a
    closure over the new frame. *)
Theorem X19_class_definition :
  ∀ fuel name methods env st,
    ∃ class_def,
      let class_env := length (frames st) in
      let st' :=
        store_insert env name (VClassDef class_def)
          (store_new_frame (Some env) st) in
      evaluate_stmt host (S fuel) (PiClassDef name methods) env st
        = Some (st', Normal VNone)
      ∧ class_name class_def = name
      ∧ (∀ method_name,
           dict_get (class_methods class_def) method_name
           = (λ method, MkClosure method class_env)
               <$> last (filter (λ method, fd_name method = method_name)
                           methods))
      ∧ ((env < length (frames st))%nat →
         local_binding st' env name = Some (VClassDef class_def)
         ∧ frames st' !! class_env = Some (MkFrame ∅ (Some env))).
Proof.
  intros fuel name methods env st.
  exists (MkClassDef name (class_method_table (length (frames st)) methods)).
  cbv zeta. split; [apply eval_PiClassDef|]. split; [done|]. split.
  - intros method_name. unfold class_method_table. simpl.
    rewrite method_table_get. by destruct (last _).
  - intros Henv. split.
    + apply local_insert_eq. rewrite frames_new_frame_length. lia.
    + unfold store_insert, store_new_frame. simpl.
      rewrite list_lookup_alter_ne by lia. by apply list_lookup_middle.
Qed.

(** ** Programs *)

Lemma evaluate_seq_first_value ev stmts env v v' st :
  stmts ≠ [] →
  evaluate_seq ev stmts env v st = evaluate_seq ev stmts env v' st.
Proof. by destruct stmts. Qed.

Lemma evaluate_seq_app_raise ev pre post env v0 st st1 e :
  evaluate_seq ev pre env v0 st = Some (st1, Raise e) →
  evaluate_seq ev (pre ++ post) env v0 st = Some (st1, Raise e).
Proof.
  revert v0 st. induction pre as [|s pre IH]; intros v0 st H; simpl in *;
    [done|].
  unfold bind in *. destruct (ev s env st) as [[st2 [v|e']]|]; try done.
  by apply IH.
Qed.

(** X20: the empty program is None and leaves the store as it is.  The
    program [p1 ++ p2], when [p1] ends normally and [p2] is not empty, is
    [p2] evaluated in the store that [p1] left: the value of [p1] is
    dropped, and the value of a program is the value of its last statement.
    When [p1] raises, [p1 ++ p2] raises the same in the same store and [p2]
    is not evaluated. *)
Theorem X20_program_composition :
  ∀ fuel env st,
    evaluate host fuel [] env st = Some (st, Normal VNone)
    ∧ (∀ p1 p2 st1 v1,
         evaluate host fuel p1 env st = Some (st1, Normal v1) →
         p2 ≠ [] →
         evaluate host fuel (p1 ++ p2) env st = evaluate host fuel p2 env st1)
    ∧ (∀ p1 stmt st1 v1,
         evaluate host fuel p1 env st = Some (st1, Normal v1) →
         evaluate host fuel (p1 ++ [stmt]) env st
         = evaluate_stmt host fuel stmt env st1)
    ∧ (∀ p1 p2 st1 e,
         evaluate host fuel p1 env st = Some (st1, Raise e) →
         evaluate host fuel (p1 ++ p2) env st = Some (st1, Raise e)).
Proof.
  intros fuel env st. unfold evaluate, evaluate_list.
  split; [done|]. split; [|split].
  - intros p1 p2 st1 v1 H1 Hp2.
    rewrite (evaluate_seq_app _ _ _ _ _ _ _ _ H1).
    by apply evaluate_seq_first_value.
  - intros p1 stmt st1 v1 H1.
    rewrite (evaluate_seq_app _ _ _ _ _ _ _ _ H1). simpl. unfold bind.
    by destruct (evaluate_stmt host fuel stmt env st1) as [[st2 [v|e]]|].
  - intros p1 p2 st1 e H1. by apply evaluate_seq_app_raise.
Qed.

(** ** What passes through loops and calls *)

(** X21: a for-loop passes on every exception of its body except [break]
    and [continue], in the store where it was raised and without binding the
    items left; the call of a function or of a method passes on every
    exception of its body except the return signal.  A [break] or a
    [continue] that the body of a called function raises outside a loop of
    its own therefore leaves the call, and a statement of a loop body that
    raises [break], such a call included, ends the loop of the caller. *)
Theorem X21_signals_pass_calls :
  ∀ fuel,
    let ev := evaluate_stmt host fuel in
    (∀ var body env item rest last_value st st1 e,
       evaluate_list ev body env (store_insert env var item st)
         = Some (st1, Raise e) →
       e ≠ BreakException → e ≠ ContinueException →
       for_loop ev var body env (item :: rest) last_value st
       = Some (st1, Raise e))
    ∧ (∀ closure args st st1 call_env st2 e,
         function_call_env closure args st = Some (st1, Normal call_env) →
         evaluate_list ev (fd_body (funcdef closure)) call_env st1
           = Some (st2, Raise e) →
         (∀ v, e ≠ ReturnException v) →
         call_function ev closure args st = Some (st2, Raise e))
    ∧ (∀ method instance args st st1 call_env st2 e,
         method_call_env method instance args st
           = Some (st1, Normal call_env) →
         evaluate_list ev (fd_body (funcdef method)) call_env st1
           = Some (st2, Raise e) →
         (∀ v, e ≠ ReturnException v) →
         call_method ev method instance args st = Some (st2, Raise e))
    ∧ (∀ var pre stmt post env item rest last_value st st1 v1 st2,
         evaluate_seq ev pre env VNone (store_insert env var item st)
           = Some (st1, Normal v1) →
         ev stmt env st1 = Some (st2, Raise BreakException) →
         for_loop ev var (pre ++ stmt :: post) env (item :: rest) last_value st
         = Some (st2, Normal last_value)).
Proof.
  intros fuel ev. subst ev. split; [|split; [|split]].
  - intros var body env item rest last_value st st1 e Hb Hbreak Hcontinue.
    rewrite for_loop_cons.
    by rewrite (bind_raise _ _ _ _ _
                  (loop_body_raise _ _ _ _ _ _ Hb Hbreak Hcontinue)).
  - intros closure args st st1 call_env st2 e Henv Hb He.
    rewrite (call_function_body _ _ _ _ _ _ Henv). by apply call_body_raise.
  - intros method instance args st st1 call_env st2 e Henv Hb He.
    rewrite (call_method_body _ _ _ _ _ _ _ Henv). by apply call_body_raise.
  - intros var pre stmt post env item rest last_value st st1 v1 st2 Hpre Hs.
    rewrite for_loop_cons.
    pose proof (evaluate_seq_raise _ _ _ post _ _ _ _ _ _ _ Hpre Hs) as Hb.
    by rewrite (bind_normal _ _ _ _ _ (loop_body_break _ _ _ _ _ Hb)).
Qed.

(** ** The initial environment *)

Lemma primitive_map_lookup (names : list string) name :
  (list_to_map ((λ n, (n, VPrimitive n)) <$> names) : gmap string EnvValue)
    !! name
  = if decide (name ∈ names) then Some (VPrimitive name) else None.
Proof.
  induction names as [|n names IH].
  - rewrite fmap_nil, list_to_map_nil, lookup_empty.
    rewrite decide_False; [done | apply not_elem_of_nil].
  - rewrite fmap_cons, list_to_map_cons.
    destruct (decide (n = name)) as [->|Hn].
    + rewrite lookup_insert_eq. rewrite decide_True; [done | by left].
    + rewrite lookup_insert_ne by done. rewrite IH.
      destruct (decide (name ∈ names)) as [Hin|Hin].
      * rewrite decide_True; [done | by right].
      * rewrite decide_False; [done|].
        rewrite elem_of_cons. intros [Heq|Hin']; [congruence | done].
Qed.

(** X22: the initial environment is one frame without parent, and no
    instance.  A name resolves in it exactly when it is the name of a
    primitive, and then to the primitive of that name; every other name is
    the name error of that name. *)
Theorem X22_initial_env :
  frames (initial_env host)
    = [MkFrame (list_to_map ((λ n, (n, VPrimitive n)) <$> prim_names host))
         None]
  ∧ objects (initial_env host) = []
  ∧ ∀ name,
      lookup 0%nat name (initial_env host)
      = Some (initial_env host,
              if decide (name ∈ prim_names host)
              then Normal (VPrimitive name)
              else Raise (NameError name)).
Proof.
  split; [done|]. split; [done|]. intros name.
  unfold lookup, EnvFrame_lookup, initial_env. simpl.
  rewrite primitive_map_lookup. by case_decide.
Qed.

(** ** Expressions that write nothing *)

Lemma unchanged_ret {A} (a : A) : unchanged (ret a).
Proof. intros st st' r H. unfold ret in H. by simplify_eq. Qed.

Lemma unchanged_raise {A} e : unchanged (@raise A e).
Proof. intros st st' r H. unfold raise in H. by simplify_eq. Qed.

Lemma unchanged_pure {A} (f : Store → Outcome A) :
  unchanged (λ st, Some (st, f st)).
Proof. intros st st' r H. by simplify_eq. Qed.

Lemma unchanged_bind {A B} (m : M A) (k : A → M B) :
  unchanged m → (∀ a, unchanged (k a)) → unchanged (bind m k).
Proof.
  intros Hm Hk st st' r H. unfold bind in H.
  destruct (m st) as [[st1 [a|e]]|] eqn:Hmst; simplify_eq.
  - apply Hm in Hmst as ->. by eapply Hk.
  - by eapply Hm.
Qed.

Lemma unchanged_try_except {A} (m : M A) h :
  unchanged m → (∀ e k, h e = Some k → unchanged k) →
  unchanged (try_except m h).
Proof.
  intros Hm Hh st st' r H. unfold try_except in H.
  destruct (m st) as [[st1 [a|e]]|] eqn:Hmst; simplify_eq.
  - by eapply Hm.
  - apply Hm in Hmst as ->.
    destruct (h e) as [k|] eqn:Hhe; simplify_eq; [by eapply Hh | done].
Qed.

Lemma unchanged_lookup env name : unchanged (EnvFrame_lookup env name).
Proof.
  intros st st' r H. unfold EnvFrame_lookup in H.
  destruct (lookup_chain _ _ _ _); unfold ret, raise in H; by simplify_eq.
Qed.

Lemma unchanged_read_object o : unchanged (read_object o).
Proof.
  intros st st' r H. unfold read_object in H.
  destruct (objects st !! o); unfold ret, raise in H; by simplify_eq.
Qed.

Lemma unchanged_check_type_VBool v : unchanged (check_type_VBool v).
Proof. destruct v; first [apply unchanged_ret | apply unchanged_raise]. Qed.

Lemma unchanged_py_int x : unchanged (py_int x).
Proof.
  unfold py_int. destruct (number_to_int x);
    first [apply unchanged_ret | apply unchanged_raise].
Qed.

Lemma unchanged_check_type_VNumber v : unchanged (check_type_VNumber v).
Proof. destruct v; first [apply unchanged_ret | apply unchanged_raise]. Qed.

Lemma unchanged_check_valid_piandor v :
  unchanged (_check_valid_piandor_type host v).
Proof. destruct v; first [apply unchanged_ret | apply unchanged_raise]. Qed.

Create HintDb unchanged discriminated.

#[local] Hint Resolve unchanged_ret unchanged_raise unchanged_pure
  unchanged_lookup unchanged_read_object unchanged_check_type_VBool
  unchanged_check_type_VNumber unchanged_py_int unchanged_check_valid_piandor
  : unchanged.

Ltac unchanged_step :=
  match goal with
  | |- unchanged (bind _ _) => apply unchanged_bind; [|intros ?]
  | |- unchanged (try_except _ _) =>
      apply unchanged_try_except;
      [|let e := fresh "e" in
        let k := fresh "k" in
        let H := fresh "H" in
        intros e k H; destruct e; simplify_eq]
  | |- unchanged (match ?x with _ => _ end) => destruct x
  | |- unchanged (evaluate_list _ (if ?b then _ else _) _) => destruct b
  | |- unchanged _ => solve [eauto with unchanged]
  end.

Ltac unchanged_tac := repeat (cbv beta zeta; unchanged_step).

Section Unchanged_nodes.

Variable ev : PiStatement → frame_ref → M EnvValue.

Lemma unchanged_evaluate_each nodes env :
  (∀ node, In node nodes → unchanged (ev node env)) →
  unchanged (evaluate_each ev nodes env).
Proof.
  induction nodes as [|e nodes IH]; intros Hnodes; simpl; [unchanged_tac|].
  apply unchanged_bind; [apply Hnodes; by left|]. intros v.
  apply unchanged_bind; [|intros; apply unchanged_ret].
  apply IH. intros node Hin. apply Hnodes. by right.
Qed.

Lemma unchanged_evaluate_seq stmts env last_value :
  (∀ node, In node stmts → unchanged (ev node env)) →
  unchanged (evaluate_seq ev stmts env last_value).
Proof.
  revert last_value. induction stmts as [|s stmts IH];
    intros last_value Hnodes; simpl; [unchanged_tac|].
  apply unchanged_bind; [apply Hnodes; by left|]. intros v.
  apply IH. intros node Hin. apply Hnodes. by right.
Qed.

Lemma unchanged_loop_body body env :
  (∀ node, In node body → unchanged (ev node env)) →
  unchanged (loop_body ev body env).
Proof.
  intros Hbody. unfold loop_body, evaluate_list.
  pose proof (unchanged_evaluate_seq body env VNone Hbody). unchanged_tac.
Qed.

Lemma unchanged_while_loop n condition body env last_value :
  unchanged (ev condition env) →
  (∀ node, In node body → unchanged (ev node env)) →
  unchanged (while_loop ev n condition body env last_value).
Proof.
  intros Hc Hbody. pose proof (unchanged_loop_body body env Hbody).
  revert last_value. induction n; intros; simpl; [by intros ???|].
  unchanged_tac.
Qed.

Lemma unchanged_evaluate_subscript collection index env :
  unchanged (ev collection env) → unchanged (ev index env) →
  unchanged (_evaluate_subscript ev collection index env).
Proof. intros Hc Hi. unfold _evaluate_subscript. unchanged_tac. Qed.

Lemma unchanged_evaluate_in element container env :
  unchanged (ev element env) → unchanged (ev container env) →
  unchanged (_evaluate_in host ev element container env).
Proof.
  intros He Hc. unfold _evaluate_in.
  unchanged_tac; apply (unchanged_pure (λ st, Normal _)).
Qed.

End Unchanged_nodes.

Lemma unchanged_evaluate_list ev node env :
  (∀ stmt, In stmt node → unchanged (ev stmt env)) →
  unchanged (evaluate_list ev node env).
Proof. apply unchanged_evaluate_seq. Qed.

#[local] Hint Resolve unchanged_evaluate_each unchanged_evaluate_list
  unchanged_while_loop unchanged_evaluate_subscript unchanged_evaluate_in
  : unchanged.

Lemma unchanged_evaluate_stmt fuel :
  ∀ node env,
    pure_expression node = true →
    unchanged (evaluate_stmt host fuel node env).
Proof.
  induction fuel as [|fuel IH]; intros node env Hpure; [by intros ???|].
  assert (Hall : ∀ nodes env',
            forallb pure_expression nodes = true →
            ∀ node, In node nodes →
                    unchanged (evaluate_stmt host fuel node env')).
  { intros nodes env' Hnodes node' Hin. apply IH.
    by apply (proj1 (forallb_forall _ _) Hnodes). }
  destruct node; simpl in Hpure; try discriminate;
    repeat match goal with
           | H : _ && _ = true |- _ => apply andb_true_iff in H as [? ?]
           end;
    repeat match goal with
           | H : pure_expression _ = true |- _ => apply (IH _ env) in H
           | H : forallb pure_expression _ = true |- _ =>
               apply (Hall _ env) in H
           end;
    simpl; unfold lookup, _evaluate_while; unchanged_tac.
Qed.

(** X23: the evaluation of a node built from literals, variables, List and
    Tuple literals, attribute reads, subscripts, membership tests, the
    logical operators, conditionals, while-loops, [break], [continue] and
    [return] only, without any assignment, definition, call, binary
    operation or for-loop, leaves the store exactly as it found it, whatever
    its outcome. *)
Theorem X23_pure_expressions_write_nothing :
  ∀ fuel node env st st' r,
    pure_expression node = true →
    evaluate_stmt host fuel node env st = Some (st', r) →
    st' = st.
Proof.
  intros fuel node env st st' r Hpure H.
  by eapply unchanged_evaluate_stmt.
Qed.

(** ** Calls through an attribute, and the order of operands *)

Lemma eval_PiAttribute_method fuel object attr env st st1 o ob method :
  evaluate_stmt host fuel object env st = Some (st1, Normal (VObject o)) →
  objects st1 !! o = Some ob →
  attributes ob !! attr = None →
  dict_get (class_methods (obj_class ob)) attr = Some method →
  evaluate_stmt host (S fuel) (PiAttribute object attr) env st
  = Some (st1, Normal (VMethodClosure method o)).
Proof.
  intros Ho Hob Hattr Hmethod. simpl. rewrite (bind_normal _ _ _ _ _ Ho).
  unfold bind, read_object. rewrite Hob. simpl. by rewrite Hattr, Hmethod.
Qed.

(** X24: the call [object.attr(args)] on an instance that has no attribute
    [attr] of its own and whose class has the method [attr] is the call of
    that method with the instance as receiver.  When the instance has an
    attribute [attr] of its own that holds a function, the call is the call
    of that function on the arguments alone: the attribute hides the method,
    and no receiver is passed. *)
Theorem X24_call_through_attribute :
  ∀ fuel object attr args env st st1 o ob st2 vs,
    evaluate_stmt host fuel object env st = Some (st1, Normal (VObject o)) →
    objects st1 !! o = Some ob →
    evaluate_each (evaluate_stmt host (S fuel)) args env st1
      = Some (st2, Normal vs) →
    (∀ method,
       attributes ob !! attr = None →
       dict_get (class_methods (obj_class ob)) attr = Some method →
       evaluate_stmt host (S (S fuel))
         (PiFunctionCall (PiAttribute object attr) args) env st
       = call_method (evaluate_stmt host (S fuel)) method o vs st2)
    ∧ (∀ closure,
         attributes ob !! attr = Some (VFunctionClosure closure) →
         evaluate_stmt host (S (S fuel))
           (PiFunctionCall (PiAttribute object attr) args) env st
         = call_function (evaluate_stmt host (S fuel)) closure vs st2).
Proof.
  intros fuel object attr args env st st1 o ob st2 vs Ho Hob Hargs. split.
  - intros method Hattr Hmethod.
    by rewrite (eval_PiFunctionCall host _ _ _ _ _ _ _ _ _
                  (eval_PiAttribute_method _ _ _ _ _ _ _ _ _
                     Ho Hob Hattr Hmethod) Hargs).
  - intros closure Hattr.
    assert (Hown : attribute_of st1 o attr = Some (VFunctionClosure closure)).
    { unfold attribute_of. by rewrite Hob. }
    by rewrite (eval_PiFunctionCall host _ _ _ _ _ _ _ _ _
                  (eval_PiAttribute_own _ _ _ _ _ _ _ _ Ho Hown) Hargs).
Qed.

(** X25: a membership test evaluates its container before its element: an
    exception of the container is the outcome and the element is not
    evaluated.  A subscript evaluates its collection and then its index
    before it looks at the class of either: an exception of the index is the
    outcome also when the collection is not a List, a Tuple or a String. *)
Theorem X25_operand_order :
  ∀ fuel env st,
    let ev := evaluate_stmt host fuel in
    (∀ container st1 e element,
       ev container env st = Some (st1, Raise e) →
       evaluate_stmt host (S fuel) (PiIn element container) env st
       = Some (st1, Raise e))
    ∧ (∀ container st1 c element st2 e,
         ev container env st = Some (st1, Normal c) →
         ev element env st1 = Some (st2, Raise e) →
         evaluate_stmt host (S fuel) (PiIn element container) env st
         = Some (st2, Raise e))
    ∧ (∀ collection st1 e index,
         ev collection env st = Some (st1, Raise e) →
         evaluate_stmt host (S fuel) (PiSubscript collection index) env st
         = Some (st1, Raise e))
    ∧ (∀ collection st1 c index st2 e,
         ev collection env st = Some (st1, Normal c) →
         ev index env st1 = Some (st2, Raise e) →
         evaluate_stmt host (S fuel) (PiSubscript collection index) env st
         = Some (st2, Raise e)).
Proof.
  intros fuel env st ev. subst ev. split; [|split; [|split]].
  - intros container st1 e element Hc. simpl. unfold _evaluate_in.
    by rewrite (bind_raise _ _ _ _ _ Hc).
  - intros container st1 c element st2 e Hc He. simpl. unfold _evaluate_in.
    rewrite (bind_normal _ _ _ _ _ Hc). by rewrite (bind_raise _ _ _ _ _ He).
  - intros collection st1 e index Hc. simpl. unfold _evaluate_subscript.
    by rewrite (bind_raise _ _ _ _ _ Hc).
  - intros collection st1 c index st2 e Hc Hi. simpl.
    unfold _evaluate_subscript.
    rewrite (bind_normal _ _ _ _ _ Hc). by rewrite (bind_raise _ _ _ _ _ Hi).
Qed.

End More_properties.

(** * The further properties at concrete inputs *)

Lemma X1_witness :
  evaluate_stmt arith_host 2 (PiAssignment "x" (PiNumber 1)) 1%nat
    two_frame_store
  = Some (store_insert 1%nat "x" (VNumber 1) two_frame_store,
          Normal (VNumber 1))
  ∧ touches_only 1%nat two_frame_store
      (store_insert 1%nat "x" (VNumber 1) two_frame_store).
Proof.
  assert (H : evaluate_stmt arith_host 2 (PiAssignment "x" (PiNumber 1)) 1%nat
                two_frame_store
              = Some (store_insert 1%nat "x" (VNumber 1) two_frame_store,
                      Normal (VNumber 1))) by reflexivity.
  split; [exact H|].
  exact (X1_evaluation_touches_only_its_frame arith_host _ _ _ _ _ _ H).
Defined.

Lemma X2_witness :
  (0 < length (frames st0))%nat
  ∧ ∃ st' r,
      call_function (evaluate_stmt arith_host 3) local_closure [] st0
      = Some (st', r)
      ∧ frames st' !! 0%nat = frames st0 !! 0%nat.
Proof.
  assert (Hlt : (0 < length (frames st0))%nat) by (simpl; lia).
  split; [exact Hlt|].
  eexists. eexists. split.
  - vm_compute. reflexivity.
  - eapply (proj1 (X2_call_leaves_frames_untouched arith_host 3 st0 _ _ 0%nat
                     Hlt) local_closure []).
    vm_compute. reflexivity.
Defined.

Lemma X3_witness :
  evaluate_stmt arith_host 2 (PiAssignment "x" (PiNumber 1)) 1%nat
    two_frame_store
  = Some (store_insert 1%nat "x" (VNumber 1) two_frame_store,
          Normal (VNumber 1))
  ∧ same_structure two_frame_store
      (store_insert 1%nat "x" (VNumber 1) two_frame_store).
Proof.
  assert (H : evaluate_stmt arith_host 2 (PiAssignment "x" (PiNumber 1)) 1%nat
                two_frame_store
              = Some (store_insert 1%nat "x" (VNumber 1) two_frame_store,
                      Normal (VNumber 1))) by reflexivity.
  split; [exact H|].
  exact (X3_evaluation_keeps_structure arith_host _ _ _ _ _ _ H).
Defined.

Lemma X4_witness :
  (length [VNumber 1%Z] < length ["a"; "b"])%nat
  ∧ ∃ st' arg_name,
      ["a"; "b"] !! length [VNumber 1] = Some arg_name
      ∧ call_function (evaluate_stmt arith_host 3) add_closure [VNumber 1] st0
        = Some (st', Raise (missing_function_argument (funcdef add_closure)
                              arg_name)).
Proof.
  assert (Hlen : (length [VNumber 1%Z] < length ["a"; "b"])%nat) by (simpl; lia).
  split; [exact Hlen|].
  exact (proj1 (X4_function_arity_errors (evaluate_stmt arith_host 3) add_closure [VNumber 1] st0)
           Hlen).
Defined.

Lemma X5_witness :
  (length ["a"; "b"] ≤ length [VNumber 1%Z; VNumber 2%Z])%nat
  ∧ local_binding (function_frame add_closure [VNumber 1; VNumber 2] st0)
      (length (frames st0)) "a"
    = Some (VNumber 1).
Proof.
  assert (Hlen : (length ["a"; "b"] ≤ length [VNumber 1%Z; VNumber 2%Z])%nat)
    by (simpl; lia).
  split; [exact Hlen|].
  destruct (X5_function_binding (evaluate_stmt arith_host 3)
              add_closure [VNumber 1; VNumber 2] st0 Hlen (λ _, eq_refl))
    as (_ & _ & Hparam & _).
  apply (Hparam 0%nat "a" (VNumber 1) eq_refl eq_refl).
  - intros [|[|j]] Hj; simpl; [lia | discriminate | discriminate].
  - discriminate.
Defined.

Lemma X6_witness :
  fd_arg_names (funcdef bare_closure) = []
  ∧ vararg_name (funcdef bare_closure) = None
  ∧ ∃ st',
      call_method (evaluate_stmt arith_host 3) bare_closure 0%nat []
        instance_store
      = Some (st', Raise (TypeError "Trop d'arguments pour la méthode.")).
Proof.
  split; [reflexivity|]. split; [reflexivity|].
  exact (proj2 (X6_method_arity_errors (evaluate_stmt arith_host 3)
                  bare_closure 0%nat [] instance_store)
           (or_intror eq_refl) eq_refl).
Defined.

Lemma X7_witness :
  fd_arg_names (funcdef get_closure) = ["self"; "k"]
  ∧ (length ["k"] ≤ length [VNumber 5%Z])%nat
  ∧ local_binding (method_frame get_closure 0%nat [VNumber 5] instance_store)
      (length (frames instance_store)) "self"
    = Some (VObject 0%nat).
Proof.
  assert (Hlen : (length ["k"] ≤ length [VNumber 5%Z])%nat) by (simpl; lia).
  split; [reflexivity|]. split; [exact Hlen|].
  destruct (X7_method_binding (evaluate_stmt arith_host 3)
              get_closure 0%nat [VNumber 5] instance_store "self" ["k"]
              eq_refl Hlen (λ _, eq_refl))
    as (_ & _ & Hself & _).
  apply Hself.
  - intros Hin. apply list_elem_of_singleton in Hin. discriminate.
  - discriminate.
Defined.

Lemma X8_witness :
  dict_get (class_methods class_C_with_method) "__init__" = None
  ∧ call_constructor (evaluate_stmt arith_host 3) class_C_with_method
      [VNumber 1] instance_store
    = Some (store_new_object class_C_with_method instance_store,
            Normal (VObject (length (objects instance_store)))).
Proof.
  assert (H : dict_get (class_methods class_C_with_method) "__init__" = None)
    by reflexivity.
  split; [exact H|].
  exact (proj1 (X8_constructor_edges (evaluate_stmt arith_host 3)
                  class_C_with_method [VNumber 1] instance_store) H).
Defined.

Lemma X9_witness :
  evaluate_stmt arith_host 1 (PiVariable "o") 0%nat instance_store
  = Some (instance_store, Normal (VObject 0%nat))
  ∧ evaluate_stmt arith_host 1 (PiNumber 9) 0%nat instance_store
    = Some (instance_store, Normal (VNumber 9))
  ∧ (0 < length (objects instance_store))%nat
  ∧ evaluate_stmt arith_host 2
      (PiAttributeAssignment (PiVariable "o") "val" (PiNumber 9)) 0%nat
      instance_store
    = Some (store_set_attribute 0%nat "val" (VNumber 9) instance_store,
            Normal (VNumber 9))
  ∧ evaluate_stmt arith_host 2 (PiAttribute (PiVariable "o") "val") 0%nat
      (store_set_attribute 0%nat "val" (VNumber 9) instance_store)
    = Some (store_set_attribute 0%nat "val" (VNumber 9) instance_store,
            Normal (VNumber 9)).
Proof.
  assert (Ho : evaluate_stmt arith_host 1 (PiVariable "o") 0%nat instance_store
               = Some (instance_store, Normal (VObject 0%nat)))
    by (vm_compute; reflexivity).
  assert (Hv : evaluate_stmt arith_host 1 (PiNumber 9) 0%nat instance_store
               = Some (instance_store, Normal (VNumber 9))) by reflexivity.
  assert (Hlt : (0 < length (objects instance_store))%nat) by (simpl; lia).
  split; [exact Ho|]. split; [exact Hv|]. split; [exact Hlt|].
  destruct (X9_attribute_round_trip arith_host 1 (PiVariable "o") "val"
              (PiNumber 9) 0%nat instance_store instance_store 0%nat
              instance_store (VNumber 9) Ho Hv Hlt)
    as (Hassign & Hread & _).
  split; [exact Hassign|].
  apply (Hread 1%nat (PiVariable "o") 0%nat). vm_compute. reflexivity.
Defined.

Lemma X10_witness :
  evaluate_stmt arith_host 1 (PiNumber 1) 0%nat st0
  = Some (st0, Normal (VNumber 1))
  ∧ evaluate_stmt arith_host 2
      (PiAttributeAssignment (PiNumber 1) "val" (PiVariable "undefined"))
      0%nat st0
    = Some (st0, Raise (TypeError
              ("Impossible d'assigner un attribut à un objet de type "
               +:+ "VNumber"))).
Proof.
  assert (H : evaluate_stmt arith_host 1 (PiNumber 1) 0%nat st0
              = Some (st0, Normal (VNumber 1))) by reflexivity.
  split; [exact H|].
  apply (proj1 (X10_attribute_assignment_errors arith_host 1 (PiNumber 1)
                  "val" 0%nat st0 st0 (VNumber 1) H)).
  intros o. discriminate.
Defined.

Lemma X11_witness :
  evaluate_stmt arith_host 1 (PiNumber 1) 0%nat st0
  = Some (st0, Normal (VNumber 1))
  ∧ ∃ msg, ∀ then_branch else_branch,
      evaluate_stmt arith_host 2
        (PiIfThenElse (PiNumber 1) then_branch else_branch) 0%nat st0
      = Some (st0, Raise (TypeError msg)).
Proof.
  assert (H : evaluate_stmt arith_host 1 (PiNumber 1) 0%nat st0
              = Some (st0, Normal (VNumber 1))) by reflexivity.
  split; [exact H|].
  apply (proj1 (X11_conditional arith_host 1 (PiNumber 1) 0%nat st0 st0
                  (VNumber 1) H)).
  intros b. discriminate.
Defined.



Lemma X14_witness :
  for_loop (evaluate_stmt arith_host 1) "x" [PiVariable "z"] 0%nat [VNumber 1]
    VNone st0
  = Some (store_insert 0%nat "x" (VNumber 1) st0, Raise (NameError "z"))
  ∧ NameError "z" ≠ BreakException ∧ NameError "z" ≠ ContinueException.
Proof.
  assert (H : for_loop (evaluate_stmt arith_host 1) "x" [PiVariable "z"] 0%nat
                [VNumber 1] VNone st0
              = Some (store_insert 0%nat "x" (VNumber 1) st0,
                      Raise (NameError "z")))
    by (vm_compute; reflexivity).
  split; [exact H|].
  exact (proj1 (X14_loops_catch_their_signals arith_host 1) _ _ _ _ _ _ _ _ H).
Defined.

Lemma X15_witness :
  evaluate_stmt arith_host 1 (PiNumber 0) 0%nat st0
  = Some (st0, Normal (VNumber 0))
  ∧ evaluate_stmt arith_host 2 (PiNot (PiNumber 0)) 0%nat st0
    = Some (st0, Normal (VBool true)).
Proof.
  assert (H : evaluate_stmt arith_host 1 (PiNumber 0) 0%nat st0
              = Some (st0, Normal (VNumber 0))) by reflexivity.
  split; [exact H|].
  exact (proj1 (X15_logical_operators arith_host 1 (PiNumber 0) 0%nat st0 st0
                  (VNumber 0) H) eq_refl).
Defined.

Lemma X16_witness :
  lookup 0%nat "+" st0 = Some (st0, Normal (VPrimitive "+"))
  ∧ evaluate_stmt arith_host 1 (PiNumber 1) 0%nat st0
    = Some (st0, Normal (VNumber 1))
  ∧ evaluate_stmt arith_host 1 (PiNumber 2) 0%nat st0
    = Some (st0, Normal (VNumber 2))
  ∧ evaluate_stmt arith_host 3
      (PiBinaryOperation (PiNumber 1) "+" (PiNumber 2)) 0%nat st0
    = Some (st0, Normal (VNumber 3)).
Proof.
  assert (Hop : lookup 0%nat "+" st0 = Some (st0, Normal (VPrimitive "+")))
    by (vm_compute; reflexivity).
  assert (Hl : evaluate_stmt arith_host 1 (PiNumber 1) 0%nat st0
               = Some (st0, Normal (VNumber 1))) by reflexivity.
  assert (Hr : evaluate_stmt arith_host 1 (PiNumber 2) 0%nat st0
               = Some (st0, Normal (VNumber 2))) by reflexivity.
  split; [exact Hop|]. split; [exact Hl|]. split; [exact Hr|].
  exact (proj1 (proj2 (X16_binary_operation arith_host 0 (PiNumber 1) "+"
                         (PiNumber 2) 0%nat st0)
                  (VPrimitive "+") st0 (VNumber 1) st0 (VNumber 2) Hop Hl Hr)
           "+" eq_refl).
Defined.

Lemma X17_witness :
  evaluate_stmt arith_host 1 (PiNumber 5) 0%nat st0
  = Some (st0, Normal (VNumber 5))
  ∧ evaluate_each (evaluate_stmt arith_host 1) [PiNumber 1] 0%nat st0
    = Some (st0, Normal [VNumber 1])
  ∧ evaluate_stmt arith_host 2 (PiFunctionCall (PiNumber 5) [PiNumber 1])
      0%nat st0
    = Some (st0, Raise (TypeError
              ("Tentative d'appel d'un objet non-fonction de type "
               +:+ "VNumber"))).
Proof.
  assert (Hf : evaluate_stmt arith_host 1 (PiNumber 5) 0%nat st0
               = Some (st0, Normal (VNumber 5))) by reflexivity.
  assert (Hargs : evaluate_each (evaluate_stmt arith_host 1) [PiNumber 1]
                    0%nat st0
                  = Some (st0, Normal [VNumber 1])) by reflexivity.
  split; [exact Hf|]. split; [exact Hargs|].
  destruct (X17_call_order arith_host 1 (PiNumber 5) 0%nat st0)
    as (_ & _ & Hnc).
  exact (Hnc st0 (VNumber 5) [PiNumber 1] st0 [VNumber 1] Hf Hargs eq_refl).
Defined.

Lemma X18_witness :
  evaluate_each (evaluate_stmt arith_host 1) [PiNumber 1; PiNumber 2] 0%nat st0
  = Some (st0, Normal [VNumber 1; VNumber 2])
  ∧ evaluate_stmt arith_host 2 (PiTuple [PiNumber 1; PiNumber 2]) 0%nat st0
    = Some (st0, Normal (VTuple [VNumber 1; VNumber 2])).
Proof.
  assert (H : evaluate_each (evaluate_stmt arith_host 1)
                [PiNumber 1; PiNumber 2] 0%nat st0
              = Some (st0, Normal [VNumber 1; VNumber 2])) by reflexivity.
  split; [exact H|].
  destruct (proj1 (X18_literal_elements arith_host 1 0%nat st0) _ _ _ H)
    as (_ & Htuple & _).
  exact Htuple.
Defined.

Lemma X19_witness :
  (0 < length (frames st0))%nat
  ∧ ∃ class_def,
      evaluate_stmt arith_host 1 (PiClassDef "C" [init_val_def []]) 0%nat st0
      = Some (store_insert 0%nat "C" (VClassDef class_def)
                (store_new_frame (Some 0%nat) st0),
              Normal VNone)
      ∧ local_binding
          (store_insert 0%nat "C" (VClassDef class_def)
             (store_new_frame (Some 0%nat) st0)) 0%nat "C"
        = Some (VClassDef class_def).
Proof.
  assert (Hlt : (0 < length (frames st0))%nat) by (simpl; lia).
  split; [exact Hlt|].
  destruct (X19_class_definition arith_host 0 "C" [init_val_def []] 0%nat st0)
    as (class_def & Heval & _ & _ & Hbound).
  exists class_def. split; [exact Heval|]. exact (proj1 (Hbound Hlt)).
Defined.

Lemma X20_witness :
  evaluate arith_host 1 [PiNumber 1] 0%nat st0
  = Some (st0, Normal (VNumber 1))
  ∧ [PiNumber 2] ≠ []
  ∧ evaluate arith_host 1 ([PiNumber 1] ++ [PiNumber 2]) 0%nat st0
    = evaluate arith_host 1 [PiNumber 2] 0%nat st0.
Proof.
  assert (H : evaluate arith_host 1 [PiNumber 1] 0%nat st0
              = Some (st0, Normal (VNumber 1))) by reflexivity.
  assert (Hne : [PiNumber 2] ≠ []) by discriminate.
  split; [exact H|]. split; [exact Hne|].
  destruct (X20_program_composition arith_host 1 0%nat st0) as (_ & Happ & _).
  exact (Happ [PiNumber 1] [PiNumber 2] st0 (VNumber 1) H Hne).
Defined.

Lemma X21_witness :
  function_call_env break_closure [] st0
  = Some (store_new_frame (Some 0%nat) st0, Normal 1%nat)
  ∧ evaluate_list (evaluate_stmt arith_host 1)
      (fd_body (funcdef break_closure)) 1%nat
      (store_new_frame (Some 0%nat) st0)
    = Some (store_new_frame (Some 0%nat) st0, Raise BreakException)
  ∧ call_function (evaluate_stmt arith_host 1) break_closure [] st0
    = Some (store_new_frame (Some 0%nat) st0, Raise BreakException).
Proof.
  assert (Henv : function_call_env break_closure [] st0
                 = Some (store_new_frame (Some 0%nat) st0, Normal 1%nat))
    by reflexivity.
  assert (Hbody : evaluate_list (evaluate_stmt arith_host 1)
                    (fd_body (funcdef break_closure)) 1%nat
                    (store_new_frame (Some 0%nat) st0)
                  = Some (store_new_frame (Some 0%nat) st0,
                          Raise BreakException)) by reflexivity.
  split; [exact Henv|]. split; [exact Hbody|].
  destruct (X21_signals_pass_calls arith_host 1) as (_ & Hcall & _).
  apply (Hcall break_closure [] st0 _ _ _ BreakException Henv Hbody).
  intros v. discriminate.
Defined.

Lemma X23_witness :
  pure_expression (PiNot (PiVariable "undefined")) = true
  ∧ evaluate_stmt arith_host 2 (PiNot (PiVariable "undefined")) 0%nat st0
    = Some (st0, Raise (NameError "undefined"))
  ∧ st0 = st0.
Proof.
  assert (Hpure : pure_expression (PiNot (PiVariable "undefined")) = true)
    by reflexivity.
  assert (H : evaluate_stmt arith_host 2 (PiNot (PiVariable "undefined"))
                0%nat st0
              = Some (st0, Raise (NameError "undefined")))
    by (vm_compute; reflexivity).
  split; [exact Hpure|]. split; [exact H|].
  exact (X23_pure_expressions_write_nothing arith_host _ _ _ _ _ _ Hpure H).
Defined.

Lemma X24_witness :
  evaluate_stmt arith_host 1 (PiVariable "o") 0%nat instance_store
  = Some (instance_store, Normal (VObject 0%nat))
  ∧ objects instance_store !! 0%nat
    = Some (MkObject class_C_with_method {[ "val" := VNumber 7 ]})
  ∧ evaluate_each (evaluate_stmt arith_host 2) [] 0%nat instance_store
    = Some (instance_store, Normal [])
  ∧ evaluate_stmt arith_host 3
      (PiFunctionCall (PiAttribute (PiVariable "o") "m") []) 0%nat
      instance_store
    = call_method (evaluate_stmt arith_host 2)
        (MkClosure (MkFunctionDef "m" ["self"] None []) 0%nat) 0%nat []
        instance_store.
Proof.
  assert (Ho : evaluate_stmt arith_host 1 (PiVariable "o") 0%nat instance_store
               = Some (instance_store, Normal (VObject 0%nat)))
    by (vm_compute; reflexivity).
  assert (Hob : objects instance_store !! 0%nat
                = Some (MkObject class_C_with_method {[ "val" := VNumber 7 ]}))
    by reflexivity.
  assert (Hargs : evaluate_each (evaluate_stmt arith_host 2) [] 0%nat
                    instance_store
                  = Some (instance_store, Normal [])) by reflexivity.
  split; [exact Ho|]. split; [exact Hob|]. split; [exact Hargs|].
  apply (proj1 (X24_call_through_attribute arith_host 1 (PiVariable "o") "m"
                  [] 0%nat instance_store instance_store 0%nat _
                  instance_store [] Ho Hob Hargs)).
  - vm_compute. reflexivity.
  - reflexivity.
Defined.

Lemma X25_witness :
  evaluate_stmt arith_host 1 (PiVariable "c") 0%nat st0
  = Some (st0, Raise (NameError "c"))
  ∧ evaluate_stmt arith_host 2 (PiIn (PiVariable "x") (PiVariable "c")) 0%nat
      st0
    = Some (st0, Raise (NameError "c")).
Proof.
  assert (H : evaluate_stmt arith_host 1 (PiVariable "c") 0%nat st0
              = Some (st0, Raise (NameError "c")))
    by (vm_compute; reflexivity).
  split; [exact H|].
  exact (proj1 (X25_operand_order arith_host 1 0%nat st0) (PiVariable "c") st0
           (NameError "c") (PiVariable "x") H).
Defined.

(** A [break] in the body of a called function ends the loop of the caller:
    after [def f(): break] and [for x in [1, 2, 3]: y = x; f()], both [x]
    and [y] are [1]. *)
Example break_in_callee_ends_loop :
  ∃ st',
    evaluate arith_host 4
      [PiFunctionDef (funcdef break_closure);
       PiFor "x" (PiList [PiNumber 1; PiNumber 2; PiNumber 3])
         [PiAssignment "y" (PiVariable "x");
          PiFunctionCall (PiVariable "f") []]]
      0%nat st0
    = Some (st', Normal VNone)
    ∧ local_binding st' 0%nat "x" = Some (VNumber 1)
    ∧ local_binding st' 0%nat "y" = Some (VNumber 1).
Proof. eexists. split; [vm_compute; reflexivity|]. by vm_compute. Qed.
